(** * mind-map-react: the layout pipeline of [MindMap.jsx]

    [src/src/components/MindMap.jsx] holds two variants of the component.
    The first one (module [V1]) sizes every box from the label length and
    takes the connector geometry from the [nodeRadius] and [nodeLabelGap]
    props; the second one (module [V2]) wraps the label with [wrapText] and
    uses the constants [CONNECTOR_RADIUS], [PADDING_X], ...  Both are
    embedded here function by function, under the names of the source.

    Numbers are JavaScript numbers restricted to the rationals and the
    infinities ([num]), with exact arithmetic; strings are sequences of
    one-byte characters; property values of the input are JSON scalars
    ([prim]).  The tidy-tree routine of d3-hierarchy and the canvas text
    measurement are imported by the source and enter as parameters. *)

From Stdlib Require Import QArith Qabs Qminmax Lqa ZArith Lia.
From Stdlib Require Import Ascii String DecimalString DecimalNat DecimalZ.
From stdpp Require Import gmap strings list.

Local Open Scope string_scope.
Local Open Scope list_scope.
Set Warnings "-register-all,-clear-no-such-hyp".

(* ===================================================================== *)
(** ** JavaScript scalars *)
(* ===================================================================== *)

(** The scalar values a property of the input can hold.  A missing property
    reads as [PUndefined]. *)
Inductive prim : Type :=
| PUndefined
| PNull
| PBool (b : bool)
| PNum (n : Z)
| PStr (s : string).

#[global] Instance prim_eq_dec : EqDecision prim.
Proof. solve_decision. Defined.

Definition prim_encode (v : prim) : unit + (unit + (bool + (Z + string))) :=
  match v with
  | PUndefined => inl tt
  | PNull => inr (inl tt)
  | PBool b => inr (inr (inl b))
  | PNum n => inr (inr (inr (inl n)))
  | PStr s => inr (inr (inr (inr s)))
  end.

Definition prim_decode (c : unit + (unit + (bool + (Z + string)))) : prim :=
  match c with
  | inl _ => PUndefined
  | inr (inl _) => PNull
  | inr (inr (inl b)) => PBool b
  | inr (inr (inr (inl n))) => PNum n
  | inr (inr (inr (inr s))) => PStr s
  end.

#[global] Instance prim_countable : Countable prim.
Proof.
  apply (inj_countable' prim_encode prim_decode).
  intros []; reflexivity.
Defined.

(** [!v] is [negb (truthy v)]. *)
Definition truthy (v : prim) : bool :=
  match v with
  | PUndefined | PNull => false
  | PBool b => b
  | PNum n => negb (n =? 0)%Z
  | PStr s => negb (String.eqb s "")
  end.

(** The test of [??]: null or undefined. *)
Definition nullish (v : prim) : bool :=
  match v with
  | PUndefined | PNull => true
  | _ => false
  end.

(** [a ?? b] *)
Definition coalesce (a b : prim) : prim := if nullish a then b else a.

(** [String(v)] *)
Definition String_of (v : prim) : string :=
  match v with
  | PUndefined => "undefined"
  | PNull => "null"
  | PBool true => "true"
  | PBool false => "false"
  | PNum n => NilZero.string_of_int (Z.to_int n)
  | PStr s => s
  end.

(** The template literal [`auto_${n}`]. *)
Definition auto_id (n : nat) : string :=
  ("auto_" ++ NilEmpty.string_of_uint (Nat.to_uint n))%string.

(* ===================================================================== *)
(** ** JavaScript numbers *)
(* ===================================================================== *)

(** Rationals extended with the two infinities and NaN: [Math.max()] of no
    argument is [-Infinity], the bounds scan starts from [Infinity]. *)
Inductive num : Type :=
| NaN
| NegInf
| Fin (q : Q)
| PosInf.

Definition nadd (a b : num) : num :=
  match a, b with
  | NaN, _ | _, NaN => NaN
  | NegInf, PosInf | PosInf, NegInf => NaN
  | NegInf, _ | _, NegInf => NegInf
  | PosInf, _ | _, PosInf => PosInf
  | Fin x, Fin y => Fin (x + y)
  end.

Definition nneg (a : num) : num :=
  match a with
  | NaN => NaN
  | NegInf => PosInf
  | Fin x => Fin (- x)
  | PosInf => NegInf
  end.

Definition nsub (a b : num) : num := nadd a (nneg b).

(** [a / 2] *)
Definition nhalf (a : num) : num :=
  match a with
  | Fin x => Fin (x / 2)
  | other => other
  end.

(** [Math.min(a, b)] *)
Definition nmin (a b : num) : num :=
  match a, b with
  | NaN, _ | _, NaN => NaN
  | NegInf, _ | _, NegInf => NegInf
  | PosInf, c | c, PosInf => c
  | Fin x, Fin y => Fin (Qmin x y)
  end.

(** [Math.max(a, b)] *)
Definition nmax (a b : num) : num :=
  match a, b with
  | NaN, _ | _, NaN => NaN
  | PosInf, _ | _, PosInf => PosInf
  | NegInf, c | c, NegInf => c
  | Fin x, Fin y => Fin (Qmax x y)
  end.

(** [Math.max(...xs)] *)
Definition nmax_list (xs : list num) : num := fold_left nmax xs NegInf.

(** [Math.abs(a)] *)
Definition nabs (a : num) : num :=
  match a with
  | NaN => NaN
  | NegInf | PosInf => PosInf
  | Fin x => Fin (Qabs x)
  end.

(** [a * c] for a constant [c] above zero. *)
Definition nscale (a : num) (c : Q) : num :=
  match a with
  | Fin x => Fin (x * c)
  | other => other
  end.

Declare Scope num_scope.
Delimit Scope num_scope with num.
Bind Scope num_scope with num.
Infix "+" := nadd : num_scope.
Infix "-" := nsub : num_scope.

(** Order and equality of numbers; every comparison with NaN is false. *)
Definition num_le (a b : num) : Prop :=
  match a, b with
  | NaN, _ | _, NaN => False
  | NegInf, _ => True
  | _, PosInf => True
  | Fin x, Fin y => (x <= y)%Q
  | _, _ => False
  end.

Definition num_lt (a b : num) : Prop :=
  match a, b with
  | NaN, _ | _, NaN => False
  | NegInf, NegInf | PosInf, PosInf => False
  | NegInf, _ => True
  | _, PosInf => True
  | Fin x, Fin y => (x < y)%Q
  | _, _ => False
  end.

Definition num_eq (a b : num) : Prop :=
  match a, b with
  | NegInf, NegInf | PosInf, PosInf => True
  | Fin x, Fin y => (x == y)%Q
  | _, _ => False
  end.

Record Point : Type := { px : num; py : num }.

(** A closed interval [[lo, hi]] of the vertical axis; two of them are
    disjoint when one ends before the other starts. *)
Definition spans_disjoint (lo1 hi1 lo2 hi2 : num) : Prop :=
  num_lt hi1 lo2 \/ num_lt hi2 lo1.

(* ===================================================================== *)
(** ** Input values and the canonical tree *)
(* ===================================================================== *)

(** A value found where a node is expected: a scalar, an array, or an
    object read through the four properties the code looks at.  The
    [children] property is [Some] when [Array.isArray] holds of it. *)
Inductive jsval : Type :=
| RPrim (v : prim)
| RArray
| RObject (r_id r_label r_name : prim) (r_children : option (list jsval)).

(** [node.id], [node.label], [node.name] *)
Definition prop_id (node : jsval) : prim :=
  match node with RObject i _ _ _ => i | _ => PUndefined end.
Definition prop_label (node : jsval) : prim :=
  match node with RObject _ l _ _ => l | _ => PUndefined end.
Definition prop_name (node : jsval) : prim :=
  match node with RObject _ _ n _ => n | _ => PUndefined end.

(** [!node] is [negb (raw_truthy node)]. *)
Definition raw_truthy (node : jsval) : bool :=
  match node with RPrim v => truthy v | _ => true end.

(** [typeof node === 'object'] *)
Definition typeof_object (node : jsval) : bool :=
  match node with RPrim PNull => true | RPrim _ => false | _ => true end.

(** Object-like: an object or an array. *)
Definition object_like (node : jsval) : bool :=
  match node with RPrim _ => false | _ => true end.

Inductive TreeNode : Type :=
  Node { id : prim; label : prim; children : list TreeNode }.

(* ===================================================================== *)
(** ** d3-hierarchy: [hierarchy], [descendants], [links] *)
(* ===================================================================== *)

(** The source imports [hierarchy] and [tree] from d3-hierarchy.  The
    hierarchy is embedded here as the library documents it: a node per
    datum with its depth, [descendants] in breadth-first order, one link
    per node other than the root.  The coordinates [tree] assigns stay a
    parameter of the layout. *)

(** A node of [hierarchy(data)]: its datum, its depth and the child indices
    leading to it from the root. *)
Record HNode : Type := { hdata : TreeNode; hdepth : nat; hpath : list nat }.

Definition hierarchy (data : TreeNode) : HNode :=
  {| hdata := data; hdepth := 0; hpath := [] |}.

Definition hchildren (h : HNode) : list HNode :=
  imap (fun i c => {| hdata := c; hdepth := S (hdepth h); hpath := hpath h ++ [i] |})
       (children (hdata h)).

Fixpoint height (t : TreeNode) : nat :=
  match t with
  | Node _ _ cs => fold_right Nat.max 0 (map (fun c => S (height c)) cs)
  end.

(** The nodes at depth [k], left to right. *)
Fixpoint level (root : HNode) (k : nat) : list HNode :=
  match k with
  | 0 => [root]
  | S k' => flat_map hchildren (level root k')
  end.

(** [root.descendants()]: breadth-first, level after level. *)
Definition descendants (data : TreeNode) : list HNode :=
  flat_map (level (hierarchy data)) (seq 0 (S (height data))).

(** [root.links()]: one [{source: parent, target: child}] per node other
    than the root, in the order of [descendants]. *)
Definition hlinks (data : TreeNode) : list (HNode * HNode) :=
  flat_map (fun h => map (fun c => (h, c)) (hchildren h)) (descendants data).

(** The node a path leads to, if any. *)
Fixpoint node_at (t : TreeNode) (path : list nat) : option TreeNode :=
  match path with
  | [] => Some t
  | i :: rest =>
      match children t !! i with
      | Some c => node_at c rest
      | None => None
      end
  end.

Record NodeSpacing : Type := { spacing_x : Q; spacing_y : Q }.

Record Link : Type := { l_id : string; source : Point; target : Point }.

(** The four points of a cubic path [M p0 C p1, p2, p3], which the [d]
    attribute of an edge is written from. *)
Record Curve : Type := {
  c_from : Point;
  c_ctrl1 : Point;
  c_ctrl2 : Point;
  c_to : Point
}.

(** The fill and stroke a node is drawn with: [colors.root],
    [colors.branch] or [colors.leaf]. *)
Inductive Palette : Type := Root | Branch | Leaf.

(** The sign written on an expandable node. *)
Inductive Indicator : Type := Plus | Minus.

(* ===================================================================== *)
(** ** First variant (lines 1-319 of MindMap.jsx) *)
(* ===================================================================== *)

Module V1.

(** The test of [.filter((c) => c && c.id)], on one entry. *)
Definition keep (c : option TreeNode) : option TreeNode :=
  match c with
  | Some n => if truthy (id n) then Some n else None
  | None => None
  end.

(** [walk], with the counter [auto] passed in and handed back. *)
Fixpoint walk (node : jsval) (auto : nat) : option TreeNode * nat :=
  if negb (raw_truthy node) || negb (typeof_object node) then (None, auto)
  else
    let '(id, auto) :=
      if nullish (prop_id node) then (PStr (auto_id auto), S auto)
      else (prop_id node, auto) in
    let label :=
      coalesce (prop_label node) (coalesce (prop_name node) (PStr (String_of id))) in
    let '(mapped, auto) :=
      match node with
      | RObject _ _ _ (Some raw) =>
          (fix map_walk (cs : list jsval) (auto : nat) : list (option TreeNode) * nat :=
             match cs with
             | [] => ([], auto)
             | c :: rest =>
                 let '(r, auto) := walk c auto in
                 let '(rs, auto) := map_walk rest auto in
                 (r :: rs, auto)
             end) raw auto
      | _ => ([], auto)
      end in
    let children := omap keep mapped in
    (Some (Node id label children), auto).

Definition normalizeTree (input : jsval) : option TreeNode :=
  if negb (raw_truthy input) || negb (typeof_object input) then None
  else fst (walk input 0).

Fixpoint collectExpandableIds (node : TreeNode) (set : gset prim) : gset prim :=
  match node with
  | Node i _ cs =>
      let set := if negb (Nat.eqb (length cs) 0) then {[ i ]} ∪ set else set in
      fold_left (fun set c => collectExpandableIds c set) cs set
  end.

(** [kids.map(f)] for [kids = node.children.filter((c) => c && c.id)], in
    one pass over [node.children]. *)
Definition map_kids (f : TreeNode -> TreeNode) (cs : list TreeNode) : list TreeNode :=
  omap (fun c => if truthy (id c) then Some (f c) else None) cs.

Fixpoint buildVisibleTree (node : TreeNode) (expanded : gset prim) : TreeNode :=
  match node with
  | Node i l cs =>
      let kids := filter (fun c => truthy (id c) = true) cs in
      if Nat.eqb (length kids) 0 then Node i l []
      else if negb (bool_decide (i ∈ expanded)) then Node i l []
      else Node i l (map_kids (fun c => buildVisibleTree c expanded) cs)
  end.

Record PositionedNode : Type := {
  pn_id : prim;
  pn_label : prim;
  pn_x : num;
  pn_y : num;
  pn_depth : nat;
  pn_hasChildren : bool;
  pn_boxW : num;
  pn_boxH : num
}.

Record Bounds : Type := { minX : num; minY : num; maxX : num; maxY : num }.

Record Layout : Type := {
  nodes : list PositionedNode;
  links : list Link;
  bounds : Bounds
}.

Section Component.

(** [tree().nodeSize([dx, dy])(root)]: the [(x, y)] d3 writes on the node
    of [hierarchy(data)] that [path] leads to. *)
Variable d3_tree : Q -> Q -> TreeNode -> list nat -> Q * Q.

(** The props of the component that reach the layout. *)
Variable nodeSpacing : NodeSpacing.
Variable padding : Q.
Variable nodeRadius : Q.
Variable nodeLabelGap : Q.

Definition LABEL_X : Q := nodeRadius + nodeLabelGap.

(** The callback of [dn.map]. *)
Definition place (data : TreeNode) (expandableIds : gset prim) (n : HNode)
  : PositionedNode :=
  let t := d3_tree (spacing_y nodeSpacing) (spacing_x nodeSpacing) data (hpath n) in
  let label := coalesce (label (hdata n)) (id (hdata n)) in
  let paddingX := 14%Q in
  let paddingY := 10%Q in
  let textW :=
    nmin (Fin 640)
         (nmax (Fin 90)
               (Fin (inject_Z (Z.of_nat (String.length (String_of label))) * (36 # 5)))) in
  let boxW := (textW + Fin (paddingX * 2))%num in
  let boxH := Fin (34 + paddingY) in
  {| pn_id := id (hdata n);
     pn_label := label;
     pn_x := Fin (snd t);
     pn_y := Fin (fst t);
     pn_depth := hdepth n;
     pn_hasChildren := bool_decide (id (hdata n) ∈ expandableIds);
     pn_boxW := boxW;
     pn_boxH := boxH |}.

(** One turn of the [for (const n of nodes)] loop over
    [(minX, maxX, minY, maxY)]. *)
Definition scan (acc : num * num * num * num) (n : PositionedNode)
  : num * num * num * num :=
  let '(minX, maxX, minY, maxY) := acc in
  let left := pn_x n in
  let right := (pn_x n + Fin LABEL_X + pn_boxW n)%num in
  let top := (pn_y n - nhalf (pn_boxH n))%num in
  let bottom := (pn_y n + nhalf (pn_boxH n))%num in
  (nmin minX left, nmax maxX right, nmin minY top, nmax maxY bottom).

(** The whole loop, from [Infinity] and [-Infinity]. *)
Definition scan_all (nodes : list PositionedNode) : num * num * num * num :=
  fold_left scan nodes (PosInf, NegInf, PosInf, NegInf).

Definition shift (shiftX shiftY : num) (n : PositionedNode) : PositionedNode :=
  {| pn_id := pn_id n;
     pn_label := pn_label n;
     pn_x := (pn_x n + shiftX)%num;
     pn_y := (pn_y n + shiftY)%num;
     pn_depth := pn_depth n;
     pn_hasChildren := pn_hasChildren n;
     pn_boxW := pn_boxW n;
     pn_boxH := pn_boxH n |}.

(** [new Map(shiftedNodes.map((n) => [n.id, n]))]: a later entry replaces
    an earlier one with the same key. *)
Definition byId_of (ns : list PositionedNode) : gmap prim PositionedNode :=
  fold_left (fun m n => <[ pn_id n := n ]> m) ns ∅.

(** The callback of [lk.map]; [None] is the TypeError of reading a
    property of [undefined]. *)
Definition mkLink (byId : gmap prim PositionedNode) (l : HNode * HNode)
  : option Link :=
  match byId !! id (hdata (fst l)), byId !! id (hdata (snd l)) with
  | Some s, Some tnode =>
      let sAttach := {| px := (pn_x s + Fin LABEL_X + pn_boxW s)%num; py := pn_y s |} in
      let tAttach := {| px := (pn_x tnode + Fin LABEL_X)%num; py := pn_y tnode |} in
      Some {| l_id := (String_of (pn_id s) ++ "__" ++ String_of (pn_id tnode))%string;
              source := sAttach;
              target := tAttach |}
  | _, _ => None
  end.

(** The body of the [layout] memo; [None] stands for a thrown error. *)
Definition layout (visibleData : option TreeNode) (expandableIds : gset prim)
  : option Layout :=
  match visibleData with
  | None =>
      Some {| nodes := []; links := [];
              bounds := {| minX := Fin 0; minY := Fin 0;
                           maxX := Fin 1000; maxY := Fin 600 |} |}
  | Some data =>
      let dn := descendants data in
      let lk := hlinks data in
      let nodes := map (place data expandableIds) dn in
      let '(minX, maxX, minY, maxY) := scan_all nodes in
      let shiftX := (Fin padding - minX)%num in
      let shiftY := (Fin padding - minY)%num in
      let shiftedNodes := map (shift shiftX shiftY) nodes in
      let byId := byId_of shiftedNodes in
      links ← mapM (mkLink byId) lk;
      let bounds := {| minX := Fin padding;
                       minY := Fin padding;
                       maxX := (maxX + shiftX + Fin padding)%num;
                       maxY := (maxY + shiftY + Fin padding)%num |} in
      Some {| nodes := shiftedNodes; links := links; bounds := bounds |}
  end.

(** The box as it is drawn: the label group is translated by
    [(nodeLabelGap, -boxH / 2)] from the node's anchor and holds a
    rectangle of [boxW] by [boxH]. *)
Definition box_left (n : PositionedNode) : num := (pn_x n + Fin nodeLabelGap)%num.
Definition box_right (n : PositionedNode) : num :=
  (pn_x n + Fin nodeLabelGap + pn_boxW n)%num.
Definition box_top (n : PositionedNode) : num := (pn_y n - nhalf (pn_boxH n))%num.
Definition box_bottom (n : PositionedNode) : num := (pn_y n + nhalf (pn_boxH n))%num.

End Component.

(** [toggle], as a function of the previous expanded set: the next set and
    the [onNodeExpand(id, !wasExpanded)] call the updater makes when the
    host passed that callback. *)
Definition toggle (expandableIds : gset prim) (id : prim) (prev : gset prim)
  : gset prim * list (prim * bool) :=
  if negb (bool_decide (id ∈ expandableIds)) then (prev, [])
  else
    let wasExpanded := bool_decide (id ∈ prev) in
    let next := if wasExpanded then prev ∖ {[ id ]} else prev ∪ {[ id ]} in
    (next, [(id, negb wasExpanded)]).

(** [handleNodeClick], as a function of the previous expanded set: the next
    set, the [onNodeExpand] calls and the [onNodeClick] calls made when the
    host passed the two callbacks. *)
Definition handleNodeClick (expandableIds : gset prim) (node : PositionedNode)
    (prev : gset prim) : gset prim * list (prim * bool) * list PositionedNode :=
  let '(next, expands) :=
    if pn_hasChildren node then toggle expandableIds (pn_id node) prev
    else (prev, []) in
  (next, expands, [node]).

(** [diagonal]: the points its path string is written from. *)
Definition diagonal (s t : Point) : Curve :=
  let midX := nhalf (px s + px t)%num in
  {| c_from := s;
     c_ctrl1 := {| px := midX; py := py s |};
     c_ctrl2 := {| px := midX; py := py t |};
     c_to := t |}.

(** The [expandableIds] memo. *)
Definition expandableIds (safeData : option TreeNode) : gset prim :=
  match safeData with
  | None => ∅
  | Some t => collectExpandableIds t ∅
  end.

(** The [visibleData] memo. *)
Definition visibleData (safeData : option TreeNode) (expanded : gset prim)
  : option TreeNode :=
  match safeData with
  | None => None
  | Some t => Some (buildVisibleTree t expanded)
  end.

(** The chain of memos of the component, from the [data] prop and the
    [expanded] state to [layout]. *)
Definition MindMap_layout (d3_tree : Q -> Q -> TreeNode -> list nat -> Q * Q)
    (nodeSpacing : NodeSpacing) (padding nodeRadius nodeLabelGap : Q)
    (data : jsval) (expanded : gset prim) : option Layout :=
  let safeData := normalizeTree data in
  layout d3_tree nodeSpacing padding nodeRadius nodeLabelGap
         (visibleData safeData expanded) (expandableIds safeData).

(** The colours of a node in the render: [isRoot], then [n.hasChildren]. *)
Definition palette (n : PositionedNode) : Palette :=
  if Nat.eqb (pn_depth n) 0 then Root
  else if pn_hasChildren n then Branch
  else Leaf.

(** The sign in the label of a node: none unless [n.hasChildren], then
    by [isExpanded]. *)
Definition indicator (expanded : gset prim) (n : PositionedNode) : option Indicator :=
  if pn_hasChildren n
  then Some (if bool_decide (pn_id n ∈ expanded) then Minus else Plus)
  else None.

End V1.

(* ===================================================================== *)
(** ** Second variant (lines 319-608 of MindMap.jsx) *)
(* ===================================================================== *)

Module V2.

Definition FONT_SIZE : Q := 16.
Definition LINE_HEIGHT : Q := 20.
Definition MAX_TEXT_WIDTH : Q := 260.
Definition PADDING_X : Q := 22.
Definition PADDING_Y : Q := 18.
Definition CONNECTOR_RADIUS : Q := 9.
Definition CONNECTOR_OVERLAP : Q := 0.

(** [s.split(' ')] *)
Fixpoint split_space (s : string) : list string :=
  match s with
  | EmptyString => [""]
  | String c rest =>
      if Ascii.eqb c " "%char then "" :: split_space rest
      else match split_space rest with
           | w :: ws => String c w :: ws
           | [] => [String c ""]
           end
  end.

(** [measureText] where there is no [document]: every text measures 100. *)
Definition measureText_no_document (text : string) : Q := 100.

(** The test of [.filter(Boolean)], on one entry. *)
Definition keep (c : option TreeNode) : option TreeNode := c.

(** [walk], with the counter [auto] passed in and handed back. *)
Fixpoint walk (node : jsval) (auto : nat) : option TreeNode * nat :=
  if negb (raw_truthy node) then (None, auto)
  else
    let '(id, auto) :=
      if nullish (prop_id node) then (PStr (auto_id auto), S auto)
      else (prop_id node, auto) in
    let label :=
      coalesce (prop_label node) (coalesce (prop_name node) (PStr (String_of id))) in
    let '(mapped, auto) :=
      match node with
      | RObject _ _ _ (Some cs) =>
          (fix map_walk (cs : list jsval) (auto : nat) : list (option TreeNode) * nat :=
             match cs with
             | [] => ([], auto)
             | c :: rest =>
                 let '(r, auto) := walk c auto in
                 let '(rs, auto) := map_walk rest auto in
                 (r :: rs, auto)
             end) cs auto
      | _ => ([], auto)
      end in
    let children := omap keep mapped in
    (Some (Node id label children), auto).

Definition normalizeTree (input : jsval) : option TreeNode :=
  if negb (raw_truthy input) || negb (typeof_object input) then None
  else fst (walk input 0).

Fixpoint collectExpandableIds (node : TreeNode) (set : gset prim) : gset prim :=
  match node with
  | Node i _ cs =>
      let set := if negb (Nat.eqb (length cs) 0) then {[ i ]} ∪ set else set in
      fold_left (fun set c => collectExpandableIds c set) cs set
  end.

Fixpoint buildVisibleTree (node : TreeNode) (expanded : gset prim) : TreeNode :=
  match node with
  | Node i l cs =>
      if negb (bool_decide (i ∈ expanded)) then Node i l []
      else Node i l (map (fun c => buildVisibleTree c expanded) cs)
  end.

Record PositionedNode : Type := {
  pn_id : prim;
  pn_label : prim;
  pn_lines : list string;
  pn_depth : nat;
  pn_hasChildren : bool;
  pn_x : num;
  pn_y : num;
  pn_boxW : num;
  pn_boxH : num
}.

Record Bounds : Type := { maxX : num; maxY : num }.

Record Layout : Type := {
  nodes : list PositionedNode;
  links : list Link;
  bounds : Bounds
}.

Section Component.

(** [measureText(text)] under [FONT]: 100 where there is no document,
    the width the canvas context reports otherwise. *)
Variable measureText : string -> Q.

(** [tree().nodeSize([dx, dy])(root)]: the [(x, y)] d3 writes on the node
    of [hierarchy(data)] that [path] leads to. *)
Variable d3_tree : Q -> Q -> TreeNode -> list nat -> Q * Q.

Variable nodeSpacing : NodeSpacing.
Variable padding : Q.

(** One turn of the [for (const word of words)] loop over
    [(lines, line)]. *)
Definition wrap_step (maxWidth : Q) (st : list string * string) (word : string)
  : list string * string :=
  let '(lines, line) := st in
  let test := if truthy (PStr line) then (line ++ " " ++ word)%string else word in
  if negb (Qle_bool (measureText test) maxWidth) && truthy (PStr line)
  then (lines ++ [line], word)
  else (lines, test).

(** The loop of [wrapText] and its closing [if (line) lines.push(line)]. *)
Definition wrap_words (maxWidth : Q) (words : list string) : list string :=
  let '(lines, line) := fold_left (wrap_step maxWidth) words ([], "") in
  if truthy (PStr line) then lines ++ [line] else lines.

Definition wrapText (text : prim) (maxWidth : Q) : list string :=
  let words := split_space (String_of text) in
  wrap_words maxWidth words.

(** The callback of [root.descendants().map]. *)
Definition place (data : TreeNode) (expandableIds : gset prim) (n : HNode)
  : PositionedNode :=
  let t := d3_tree (spacing_y nodeSpacing) (spacing_x nodeSpacing) data (hpath n) in
  let lines := wrapText (label (hdata n)) MAX_TEXT_WIDTH in
  let textWidth := nmax_list (map (fun l => Fin (measureText l)) lines) in
  let boxW := (textWidth + Fin (PADDING_X * 2))%num in
  let boxH := Fin (inject_Z (Z.of_nat (length lines)) * LINE_HEIGHT + PADDING_Y * 2) in
  {| pn_id := id (hdata n);
     pn_label := label (hdata n);
     pn_lines := lines;
     pn_depth := hdepth n;
     pn_hasChildren := bool_decide (id (hdata n) ∈ expandableIds);
     pn_x := Fin (snd t);
     pn_y := Fin (fst t);
     pn_boxW := boxW;
     pn_boxH := boxH |}.

(** One turn of the first [nodes.forEach] over [(minX, minY, maxX, maxY)]. *)
Definition scan (acc : num * num * num * num) (n : PositionedNode)
  : num * num * num * num :=
  let '(minX, minY, maxX, maxY) := acc in
  (nmin minX (pn_x n),
   nmin minY (pn_y n - nhalf (pn_boxH n))%num,
   nmax maxX (pn_x n + pn_boxW n + Fin 40)%num,
   nmax maxY (pn_y n + nhalf (pn_boxH n))%num).

(** The whole loop, from [Infinity] and [-Infinity]. *)
Definition scan_all (nodes : list PositionedNode) : num * num * num * num :=
  fold_left scan nodes (PosInf, PosInf, NegInf, NegInf).

(** One turn of the second [nodes.forEach]: [n.x += shiftX; n.y += shiftY]. *)
Definition shift (shiftX shiftY : num) (n : PositionedNode) : PositionedNode :=
  {| pn_id := pn_id n;
     pn_label := pn_label n;
     pn_lines := pn_lines n;
     pn_depth := pn_depth n;
     pn_hasChildren := pn_hasChildren n;
     pn_x := (pn_x n + shiftX)%num;
     pn_y := (pn_y n + shiftY)%num;
     pn_boxW := pn_boxW n;
     pn_boxH := pn_boxH n |}.

(** [new Map(nodes.map((n) => [n.id, n]))]: a later entry replaces an
    earlier one with the same key. *)
Definition byId_of (ns : list PositionedNode) : gmap prim PositionedNode :=
  fold_left (fun m n => <[ pn_id n := n ]> m) ns ∅.

(** The callback of [root.links().map]; [None] is the TypeError of reading
    a property of [undefined]. *)
Definition mkLink (byId : gmap prim PositionedNode) (l : HNode * HNode)
  : option Link :=
  match byId !! id (hdata (fst l)), byId !! id (hdata (snd l)) with
  | Some s, Some t =>
      Some {| l_id := (String_of (pn_id s) ++ "-" ++ String_of (pn_id t))%string;
              source := {| px := pn_x s; py := pn_y s |};
              target := {| px := (pn_x t + Fin CONNECTOR_RADIUS)%num; py := pn_y t |} |}
  | _, _ => None
  end.

(** The body of the [layout] memo; [None] stands for a thrown error. *)
Definition layout (visibleData : option TreeNode) (expandableIds : gset prim)
  : option Layout :=
  match visibleData with
  | None =>
      Some {| nodes := []; links := [];
              bounds := {| maxX := Fin 1200; maxY := Fin 800 |} |}
  | Some data =>
      let nodes := map (place data expandableIds) (descendants data) in
      let '(minX, minY, maxX, maxY) := scan_all nodes in
      let shiftX := (Fin padding - minX)%num in
      let shiftY := (Fin padding - minY)%num in
      let nodes := map (shift shiftX shiftY) nodes in
      let byId := byId_of nodes in
      links ← mapM (mkLink byId) (hlinks data);
      Some {| nodes := nodes;
              links := links;
              bounds := {| maxX := (maxX + shiftX + Fin padding)%num;
                           maxY := (maxY + shiftY + Fin padding)%num |} |}
  end.

(** The box as it is drawn: the label group is translated by
    [(CONNECTOR_RADIUS - CONNECTOR_OVERLAP, -boxH / 2)] from the node's
    anchor and holds a rectangle of [boxW] by [boxH]. *)
Definition box_left (n : PositionedNode) : num :=
  (pn_x n + Fin (CONNECTOR_RADIUS - CONNECTOR_OVERLAP))%num.
Definition box_right (n : PositionedNode) : num :=
  (pn_x n + Fin (CONNECTOR_RADIUS - CONNECTOR_OVERLAP) + pn_boxW n)%num.
Definition box_top (n : PositionedNode) : num := (pn_y n - nhalf (pn_boxH n))%num.
Definition box_bottom (n : PositionedNode) : num := (pn_y n + nhalf (pn_boxH n))%num.

End Component.

(** [toggle], as a function of the previous expanded set. *)
Definition toggle (expandableIds : gset prim) (id : prim) (prev : gset prim)
  : gset prim :=
  if negb (bool_decide (id ∈ expandableIds)) then prev
  else if bool_decide (id ∈ prev) then prev ∖ {[ id ]} else prev ∪ {[ id ]}.

(** [diagonal]: the points its path string is written from. *)
Definition diagonal (s t : Point) : Curve :=
  let dx := (px t - px s)%num in
  let curve := nmin (Fin 200) (nscale (nabs dx) (3 # 5)) in
  {| c_from := s;
     c_ctrl1 := {| px := (px s + curve)%num; py := py s |};
     c_ctrl2 := {| px := (px t - curve)%num; py := py t |};
     c_to := t |}.

(** The [expandableIds] memo. *)
Definition expandableIds (safeData : option TreeNode) : gset prim :=
  match safeData with
  | None => ∅
  | Some t => collectExpandableIds t ∅
  end.

(** The [visibleData] memo. *)
Definition visibleData (safeData : option TreeNode) (expanded : gset prim)
  : option TreeNode :=
  match safeData with
  | None => None
  | Some t => Some (buildVisibleTree t expanded)
  end.

(** The chain of memos of the component, from the [data] prop and the
    [expanded] state to [layout]. *)
Definition MindMap_layout (measureText : string -> Q)
    (d3_tree : Q -> Q -> TreeNode -> list nat -> Q * Q)
    (nodeSpacing : NodeSpacing) (padding : Q)
    (data : jsval) (expanded : gset prim) : option Layout :=
  let safeData := normalizeTree data in
  layout measureText d3_tree nodeSpacing padding
         (visibleData safeData expanded) (expandableIds safeData).

(** The colours of a node in the render: [isRoot], then [n.hasChildren]. *)
Definition palette (n : PositionedNode) : Palette :=
  if Nat.eqb (pn_depth n) 0 then Root
  else if pn_hasChildren n then Branch
  else Leaf.

(** The sign on the connector of a node: none unless [n.hasChildren], then
    by [expanded.has(n.id)]. *)
Definition indicator (expanded : gset prim) (n : PositionedNode) : option Indicator :=
  if pn_hasChildren n
  then Some (if bool_decide (pn_id n ∈ expanded) then Minus else Plus)
  else None.

(** [layout] from the positioned nodes on: the scan, the shift, the edges
    and the bounds. *)
Definition layout_from (padding : Q) (data : TreeNode) (nodes : list PositionedNode)
  : option Layout :=
  let '(minX, minY, maxX, maxY) := scan_all nodes in
  let shiftX := (Fin padding - minX)%num in
  let shiftY := (Fin padding - minY)%num in
  let nodes := map (shift shiftX shiftY) nodes in
  let byId := byId_of nodes in
  links ← mapM (mkLink byId) (hlinks data);
  Some {| nodes := nodes;
          links := links;
          bounds := {| maxX := (maxX + shiftX + Fin padding)%num;
                       maxY := (maxY + shiftY + Fin padding)%num |} |}.

(** [FONT], the template literal [`${FONT_SIZE}px ui-sans-serif, system-ui`]. *)
Definition FONT : string := "16px ui-sans-serif, system-ui".

(** What [measureText] reads and writes besides its arguments: whether
    there is a [document], and the canvas kept in [measureText.canvas],
    known by the [font] of its 2D context ([None] before the first call
    creates it). *)
Record Env : Type := { has_document : bool; canvas_font : option string }.

Section Canvas.

(** The canvas of the platform: the [font] of the context of a new canvas,
    the [font] a context holds after [ctx.font = v] (a value the canvas
    cannot parse leaves the font as it was), and the [width] of
    [ctx.measureText(text)] under a font. *)
Variable fresh_font : string.
Variable assign_font : string -> prim -> string.
Variable text_width : string -> string -> Q.

Variable d3_tree : Q -> Q -> TreeNode -> list nat -> Q * Q.
Variable nodeSpacing : NodeSpacing.
Variable padding : Q.

(** [measureText(text, font)], with the canvas it caches and the font it
    assigns. *)
Definition measureText_in (text : string) (font : prim) (env : Env) : Q * Env :=
  if negb (has_document env) then (100%Q, env)
  else
    let canvas :=
      match canvas_font env with
      | Some f => f
      | None => fresh_font
      end in
    let ctx_font := assign_font canvas font in
    (text_width ctx_font text,
     {| has_document := has_document env; canvas_font := Some ctx_font |}).

(** One turn of the loop of [wrapText]; [measureText(test)] takes the
    default [font = FONT] and is evaluated before the test of [line]. *)
Definition wrap_step_in (maxWidth : Q) (st : list string * string * Env) (word : string)
  : list string * string * Env :=
  let '(lines, line, env) := st in
  let test := if truthy (PStr line) then (line ++ " " ++ word)%string else word in
  let '(width, env) := measureText_in test (PStr FONT) env in
  if negb (Qle_bool width maxWidth) && truthy (PStr line)
  then (lines ++ [line], word, env)
  else (lines, test, env).

Definition wrapText_in (text : prim) (maxWidth : Q) (env : Env) : list string * Env :=
  let words := split_space (String_of text) in
  let '(lines, line, env) := fold_left (wrap_step_in maxWidth) words ([], "", env) in
  (if truthy (PStr line) then lines ++ [line] else lines, env).

(** [lines.map(measureText)]: [map] calls [measureText(line, index, lines)],
    so the index of the line takes the place of [font]. *)
Fixpoint map_measureText (lines : list string) (index : nat) (env : Env)
  : list Q * Env :=
  match lines with
  | [] => ([], env)
  | line :: rest =>
      let '(width, env) := measureText_in line (PNum (Z.of_nat index)) env in
      let '(widths, env) := map_measureText rest (S index) env in
      (width :: widths, env)
  end.

(** The callback of [root.descendants().map], with the canvas. *)
Definition place_in (data : TreeNode) (expandableIds : gset prim) (n : HNode) (env : Env)
  : PositionedNode * Env :=
  let t := d3_tree (spacing_y nodeSpacing) (spacing_x nodeSpacing) data (hpath n) in
  let '(lines, env) := wrapText_in (label (hdata n)) MAX_TEXT_WIDTH env in
  let '(widths, env) := map_measureText lines 0 env in
  let textWidth := nmax_list (map Fin widths) in
  let boxW := (textWidth + Fin (PADDING_X * 2))%num in
  let boxH := Fin (inject_Z (Z.of_nat (length lines)) * LINE_HEIGHT + PADDING_Y * 2) in
  ({| pn_id := id (hdata n);
      pn_label := label (hdata n);
      pn_lines := lines;
      pn_depth := hdepth n;
      pn_hasChildren := bool_decide (id (hdata n) ∈ expandableIds);
      pn_x := Fin (snd t);
      pn_y := Fin (fst t);
      pn_boxW := boxW;
      pn_boxH := boxH |}, env).

(** [root.descendants().map(...)], node after node. *)
Fixpoint map_place (data : TreeNode) (expandableIds : gset prim) (dn : list HNode)
    (env : Env) : list PositionedNode * Env :=
  match dn with
  | [] => ([], env)
  | n :: rest =>
      let '(node, env) := place_in data expandableIds n env in
      let '(nodes, env) := map_place data expandableIds rest env in
      (node :: nodes, env)
  end.

(** The body of the [layout] memo run on a canvas: its result and the
    canvas it leaves behind. *)
Definition layout_in (visibleData : option TreeNode) (expandableIds : gset prim)
    (env : Env) : option Layout * Env :=
  match visibleData with
  | None =>
      (Some {| nodes := []; links := [];
               bounds := {| maxX := Fin 1200; maxY := Fin 800 |} |}, env)
  | Some data =>
      let '(nodes, env) := map_place data expandableIds (descendants data) env in
      (layout_from padding data nodes, env)
  end.

End Canvas.

(** The [y] of the [tspan] of line [i], inside the label group: the
    baseline of that line below the top of the box. *)
Definition tspan_y (n : PositionedNode) (i : nat) : num :=
  (nhalf (pn_boxH n)
   - nhalf (Fin ((inject_Z (Z.of_nat (length (pn_lines n))) - 1) * LINE_HEIGHT))
   + Fin (inject_Z (Z.of_nat i) * LINE_HEIGHT)
   + Fin 6)%num.

End V2.

(* ===================================================================== *)
(** ** The tidy-tree positioning *)
(* ===================================================================== *)

Module Tidy.

(** Modelled from the spec: the post-order pass of the tidy-tree routine
    (d3-hierarchy, not under src/).  The extent of a subtree along the
    order axis, in sibling gaps: one slot for a leaf, the sum of the
    children's extents otherwise. *)
Fixpoint extent (t : TreeNode) : nat :=
  match t with
  | Node _ _ cs => Nat.max 1 (list_sum (map extent cs))
  end.

(** Modelled from the spec: the median of the children's order positions,
    over which a parent is centred. *)
Definition median (ps : list Q) : Q :=
  let n := length ps in
  if Nat.even n
  then ((nth (Nat.div2 n - 1) ps 0 + nth (Nat.div2 n) ps 0) / 2)%Q
  else nth (Nat.div2 n) ps 0%Q.

(** Modelled from the spec: siblings keep the input order.  The positions
    of consecutive subtrees that take the slots from [lo] on. *)
Definition positions (order : TreeNode -> Q -> Q) : list TreeNode -> Q -> list Q :=
  fix go (cs : list TreeNode) (lo : Q) : list Q :=
    match cs with
    | [] => []
    | c :: rest => order c lo :: go rest (lo + inject_Z (Z.of_nat (extent c)))%Q
    end.

(** Modelled from the spec: the order position of the root of [t] when its
    subtree takes the slots from [lo] on.  A leaf sits on its slot, a
    parent over the median of its children, which take consecutive runs of
    slots in input order. *)
Fixpoint order (t : TreeNode) (lo : Q) : Q :=
  match t with
  | Node _ _ cs =>
      match cs with
      | [] => lo
      | _ => median (positions order cs lo)
      end
  end.

(** Modelled from the spec: the first slot of child [i] of a node whose
    subtree starts at [lo]. *)
Definition slot (cs : list TreeNode) (lo : Q) (i : nat) : Q :=
  (lo + inject_Z (Z.of_nat (list_sum (map extent (take i cs)))))%Q.

(** Modelled from the spec: the pre-order pass.  The order position of the
    node [path] leads to. *)
Fixpoint order_at (t : TreeNode) (lo : Q) (path : list nat) : Q :=
  match path with
  | [] => order t lo
  | i :: rest =>
      match children t !! i with
      | Some c => order_at c (slot (children t) lo i) rest
      | None => 0%Q
      end
  end.

(** Modelled from the spec: the tidy-tree routine the source imports from
    d3-hierarchy ([tree().nodeSize([dx, dy])]), which is not under src/.
    The spec describes it (4.4 and the design notes): a post-order pass gives
    each subtree its extent along the order axis, a pre-order pass assigns
    the positions with every parent centred over the median of its
    children, siblings keep the input order and a gap of at least [dx],
    levels are [dy] apart.  The root is the origin of the order axis. *)
Definition tidy (dx dy : Q) (data : TreeNode) (path : list nat) : Q * Q :=
  (((order_at data 0 path - order data 0) * dx)%Q,
   (inject_Z (Z.of_nat (length path)) * dy)%Q).

End Tidy.

(** What the layout needs of the tidy-tree routine: for a node size [dx]
    that is not negative, two children of one node, taken in input order,
    lie at least [dx] apart on the order axis. *)
Definition sibling_gap (d3_tree : Q -> Q -> TreeNode -> list nat -> Q * Q) : Prop :=
  forall (dx dy : Q) (data : TreeNode) (p : list nat) (i j : nat),
    (0 <= dx)%Q ->
    (i < j)%nat ->
    is_Some (node_at data (p ++ [j])) ->
    (fst (d3_tree dx dy data (p ++ [i])) + dx <= fst (d3_tree dx dy data (p ++ [j])))%Q.

(** And along the depth axis: the levels are [dy] apart, the root on the
    first. *)
Definition level_gap (d3_tree : Q -> Q -> TreeNode -> list nat -> Q * Q) : Prop :=
  forall (dx dy : Q) (data : TreeNode) (p : list nat),
    (snd (d3_tree dx dy data p) == inject_Z (Z.of_nat (length p)) * dy)%Q.

(* ===================================================================== *)
(** ** Notions of the specification *)
(* ===================================================================== *)

(** The ids of a tree, parents before children. *)
Fixpoint tree_ids (t : TreeNode) : list prim :=
  match t with
  | Node i _ cs => i :: flat_map tree_ids cs
  end.

(** The nodes reachable from the root by following only children of
    expanded nodes: every proper ancestor of a reachable node is in the
    expanded set, the node itself need not be. *)
Inductive reachable (expanded : gset prim) (root : TreeNode) : TreeNode -> Prop :=
  | reach_root : reachable expanded root root
  | reach_child (parent c : TreeNode) :
    reachable expanded root parent ->
    id parent ∈ expanded ->
    In c (children parent) ->
    reachable expanded root c.

(** What the spec asks of the ids of the positioned nodes, for a canonical
    tree [t] and an expanded set: they are the ids of the reachable nodes,
    they are ids of [t], and the id of the root is among them. *)
Definition visible_ids_spec (t : TreeNode) (expanded : gset prim) (ids : list prim) : Prop :=
  (forall i, In i ids <-> exists n, reachable expanded t n /\ id n = i) /\
  (forall i, In i ids -> In i (tree_ids t)) /\
  In (id t) ids.

(** The ids the input supplies, over the values [walk] visits: those of
    the truthy entries in the second variant, of the objects and arrays in
    the first. *)
Fixpoint supplied_ids (node : jsval) : list prim :=
  (if nullish (prop_id node) then [] else [prop_id node]) ++
  match node with
  | RObject _ _ _ (Some cs) => flat_map supplied_ids cs
  | _ => []
  end.

(** [xs.map(f)] for a callback that reads and advances the counter. *)
Definition map_state {A B : Type} (f : A -> nat -> B * nat)
  : list A -> nat -> list B * nat :=
  fix map_walk (cs : list A) (auto : nat) : list B * nat :=
    match cs with
    | [] => ([], auto)
    | c :: rest =>
        let '(r, auto) := f c auto in
        let '(rs, auto) := map_walk rest auto in
        (r :: rs, auto)
    end.

(** The shape the two [walk]s share: they differ in the values they
    reject and in the filter over the walked children. *)
Fixpoint walk_gen (reject : jsval -> bool) (keep : option TreeNode -> option TreeNode)
    (node : jsval) (auto : nat) : option TreeNode * nat :=
  if reject node then (None, auto)
  else
    let '(id, auto) :=
      if nullish (prop_id node) then (PStr (auto_id auto), S auto)
      else (prop_id node, auto) in
    let label :=
      coalesce (prop_label node) (coalesce (prop_name node) (PStr (String_of id))) in
    let '(mapped, auto) :=
      match node with
      | RObject _ _ _ (Some cs) =>
          (fix map_walk (cs : list jsval) (auto : nat) : list (option TreeNode) * nat :=
             match cs with
             | [] => ([], auto)
             | c :: rest =>
                 let '(r, auto) := walk_gen reject keep c auto in
                 let '(rs, auto) := map_walk rest auto in
                 (r :: rs, auto)
             end) cs auto
      | _ => ([], auto)
      end in
    (Some (Node id label (omap keep mapped)), auto).

(** The entries [walk] maps over: [node.children] when it is an array. *)
Definition entries (node : jsval) : list jsval :=
  match node with
  | RObject _ _ _ (Some cs) => cs
  | _ => []
  end.

(** Where an id of the output comes from: the input supplied it, or the
    counter synthesized it at a value in [[a, a')]. *)
Definition from_input (supplied : list prim) (a a' : nat) (i : prim) : Prop :=
  In i supplied \/ exists k : nat, (a <= k < a')%nat /\ i = PStr (auto_id k).

(** The rational a finite number holds. *)
Definition to_Q (x : num) : Q :=
  match x with
  | Fin q => q
  | _ => 0%Q
  end.

(** A finite number; a number that is finite or [-Infinity]. *)
Definition fin (x : num) : Prop := x = Fin (to_Q x).
Definition low (x : num) : Prop := x = NegInf \/ fin x.

(** A point and a curve made of finite numbers only. *)
Definition finite_point (p : Point) : Prop := fin (px p) /\ fin (py p).
Definition finite_curve (c : Curve) : Prop :=
  finite_point (c_from c) /\ finite_point (c_ctrl1 c) /\
  finite_point (c_ctrl2 c) /\ finite_point (c_to c).

(** [new Map(ns.map((n) => [key(n), n]))] *)
Definition index_by {A : Type} (key : A -> prim) (ns : list A) : gmap prim A :=
  fold_left (fun m n => <[ key n := n ]> m) ns ∅.

(** A node of the hierarchy sits where its path says. *)
Definition well_placed (t : TreeNode) (h : HNode) : Prop :=
  hdepth h = length (hpath h) /\ node_at t (hpath h) = Some (hdata h).

(** Two nodes of the hierarchy are siblings: distinct children of one
    parent. *)
Definition siblings (ha hb : HNode) : Prop :=
  exists (p : list nat) (i j : nat),
    i <> j /\ hpath ha = p ++ [i] /\ hpath hb = p ++ [j].

(** Every node below the root has a truthy id. *)
Fixpoint clean (t : TreeNode) : bool :=
  match t with
  | Node _ _ cs => forallb (fun c => truthy (id c) && clean c) cs
  end.

(** [words.join(' ')] *)
Fixpoint join_space (words : list string) : string :=
  match words with
  | [] => ""
  | [w] => w
  | w :: rest => (w ++ " " ++ join_space rest)%string
  end.



(** A string of the form [auto_<n>]. *)
Definition is_auto_id (v : prim) : Prop := exists n : nat, v = PStr (auto_id n).

(** The nodes of a tree, parents before children. *)
Fixpoint subtrees (t : TreeNode) : list TreeNode :=
  match t with
  | Node _ _ cs => t :: flat_map subtrees cs
  end.

(** A node that has at least one child, and carries the id [i]. *)
Definition parent_with_id (t : TreeNode) (i : prim) : Prop :=
  exists n, In n (subtrees t) /\ children n <> [] /\ id n = i.

(** A canonical node read back as an input value: the object
    [{id, label, children}] that [walk] returned. *)
Fixpoint to_input (t : TreeNode) : jsval :=
  match t with
  | Node i l cs => RObject i l PUndefined (Some (map to_input cs))
  end.

(** Every id and every label of the tree is set: neither null nor
    undefined. *)
Fixpoint all_set (t : TreeNode) : bool :=
  match t with
  | Node i l cs => negb (nullish i) && negb (nullish l) && forallb all_set cs
  end.

(** An input both variants take whole: objects and arrays only, each with
    an id that is absent or truthy. *)
Fixpoint plain (node : jsval) : bool :=
  match node with
  | RPrim _ => false
  | RArray => true
  | RObject i _ _ cs =>
      (nullish i || truthy i) &&
      match cs with
      | Some l => forallb plain l
      | None => true
      end
  end.

(** A string that holds nothing but spaces. *)
Fixpoint only_spaces (s : string) : bool :=
  match s with
  | EmptyString => true
  | String c rest => Ascii.eqb c " "%char && only_spaces rest
  end.

(** The expanded set after a run of [toggle] calls, from the initial empty
    set of [useState]. *)
Definition after_toggles (expandableIds : gset prim) (clicks : list prim) : gset prim :=
  fold_left (fun prev i => V2.toggle expandableIds i prev) clicks ∅.

(* ===================================================================== *)
(** ** Notions used by the proofs *)
(* ===================================================================== *)

(** Induction over a tree and over an input value, with the hypothesis on
    every child. *)
Definition TreeNode_ind' (P : TreeNode -> Prop)
    (step : forall i l cs, Forall P cs -> P (Node i l cs)) : forall t, P t :=
  fix go (t : TreeNode) : P t :=
    match t with
    | Node i l cs =>
        step i l cs
          ((fix all (cs : list TreeNode) : Forall P cs :=
              match cs with
              | [] => @List.Forall_nil _ P
              | c :: rest => @List.Forall_cons _ P c rest (go c) (all rest)
              end) cs)
    end.

Definition jsval_ind' (P : jsval -> Prop)
    (prim_case : forall v, P (RPrim v))
    (array_case : P RArray)
    (leaf_case : forall i l n, P (RObject i l n None))
    (object_case : forall i l n cs, Forall P cs -> P (RObject i l n (Some cs)))
  : forall node, P node :=
  fix go (node : jsval) : P node :=
    match node with
    | RPrim v => prim_case v
    | RArray => array_case
    | RObject i l n None => leaf_case i l n
    | RObject i l n (Some cs) =>
        object_case i l n cs
          ((fix all (cs : list jsval) : Forall P cs :=
              match cs with
              | [] => @List.Forall_nil _ P
              | c :: rest => @List.Forall_cons _ P c rest (go c) (all rest)
              end) cs)
    end.

(** The values the [walk] of the first variant returns [null] for
    ([!node || typeof node !== 'object']), and those of the second
    ([!node]). *)
Definition reject1 (node : jsval) : bool :=
  negb (raw_truthy node) || negb (typeof_object node).
Definition reject2 (node : jsval) : bool := negb (raw_truthy node).

(** What holds of one walked value: the counter does not go back, every id
    of the result was supplied or synthesized on the way, and the ids are
    pairwise distinct when the supplied ones are and none of them looks
    synthesized. *)
Definition walk_ok (reject : jsval -> bool) (keep : option TreeNode -> option TreeNode)
    (node : jsval) : Prop :=
  forall a r a', walk_gen reject keep node a = (r, a') ->
    (a <= a')%nat /\
    forall t, r = Some t ->
      (forall i, In i (tree_ids t) -> from_input (supplied_ids node) a a' i) /\
      (NoDup (supplied_ids node) ->
       (forall v, In v (supplied_ids node) -> ~ is_auto_id v) ->
       NoDup (tree_ids t)).

(** The same of a run of walked entries, after the filter. *)
Definition walks_ok (reject : jsval -> bool) (keep : option TreeNode -> option TreeNode)
    (cs : list jsval) : Prop :=
  forall a mapped a', map_state (walk_gen reject keep) cs a = (mapped, a') ->
    (a <= a')%nat /\
    (forall i, In i (flat_map tree_ids (omap keep mapped)) ->
       from_input (flat_map supplied_ids cs) a a' i) /\
    (NoDup (flat_map supplied_ids cs) ->
     (forall v, In v (flat_map supplied_ids cs) -> ~ is_auto_id v) ->
     NoDup (flat_map tree_ids (omap keep mapped))).

(** The ids the counter synthesizes from [a] up to [a'], in order. *)
Definition autos (a a' : nat) : list prim :=
  map (fun k => PStr (auto_id k)) (seq a (a' - a)).

(** What holds of a walked value that supplies no id: the ids of the
    result are the synthesized ones, in order, and a rejected value leaves
    the counter alone. *)
Definition counted (reject : jsval -> bool) (keep : option TreeNode -> option TreeNode)
    (node : jsval) : Prop :=
  supplied_ids node = [] ->
  forall a r a', walk_gen reject keep node a = (r, a') ->
    (a <= a')%nat /\
    match r with
    | Some t => tree_ids t = autos a a' /\ id t = PStr (auto_id a)
    | None => a' = a
    end.

(** What the closing [if (line) lines.push(line)] makes of a loop state. *)
Definition wrap_finish (st : list string * string) : list string :=
  if truthy (PStr (snd st)) then fst st ++ [snd st] else fst st.


(** A node as [place] makes it in the first variant: all finite. *)
Definition wf1 (n : V1.PositionedNode) : Prop :=
  fin (V1.pn_x n) /\ fin (V1.pn_y n) /\ fin (V1.pn_boxH n) /\ fin (V1.pn_boxW n).

(** A node as [place] makes it: finite anchor and height, a width that is
    finite or, for a label without lines, [-Infinity]. *)
Definition wf2 (n : V2.PositionedNode) : Prop :=
  fin (V2.pn_x n) /\ fin (V2.pn_y n) /\ fin (V2.pn_boxH n) /\ low (V2.pn_boxW n).

(** The ids of the visible nodes are pairwise distinct. *)
Definition distinct_ids (data : TreeNode) : Prop :=
  NoDup (map (fun h => id (hdata h)) (descendants data)).

(** The attachment points of an edge of the first variant, against the
    boxes of the parent [s] and the child [t]: the middle of the trailing
    edge of [s] and the middle of the leading edge of [t], each moved right
    by the connector radius. *)
Definition attached1 (nodeRadius nodeLabelGap : Q) (s t : V1.PositionedNode) (l : Link)
  : Prop :=
  num_eq (px (source l)) (V1.box_right nodeLabelGap s + Fin nodeRadius)%num /\
  num_eq (py (source l)) (nhalf (V1.box_top s + V1.box_bottom s)%num) /\
  num_eq (px (target l)) (V1.box_left nodeLabelGap t + Fin nodeRadius)%num /\
  num_eq (py (target l)) (nhalf (V1.box_top t + V1.box_bottom t)%num).

(** The attachment points of an edge of the second variant: the anchor of
    the parent [s], which lies the connector radius before the leading edge
    of its box, and the middle of the leading edge of the box of the
    child [t]. *)
Definition attached2 (s t : V2.PositionedNode) (l : Link) : Prop :=
  source l = {| px := V2.pn_x s; py := V2.pn_y s |} /\
  num_eq (px (source l) + Fin V2.CONNECTOR_RADIUS)%num (V2.box_left s) /\
  num_eq (py (source l)) (nhalf (V2.box_top s + V2.box_bottom s)%num) /\
  num_eq (px (target l)) (V2.box_left t) /\
  num_eq (py (target l)) (nhalf (V2.box_top t + V2.box_bottom t)%num).

(* ===================================================================== *)
(** ** Sample inputs *)
(* ===================================================================== *)

(** A measure of 10 units a character, as a rendering-free stand-in. *)
Definition measure10 (s : string) : Q := inject_Z (Z.of_nat (String.length s)) * 10.

(** A canvas that takes every string as a font and ignores the other
    values, with a width of as many units a character as the font has
    characters. *)
Definition sample_assign_font (cur : string) (v : prim) : string :=
  match v with
  | PStr s => s
  | _ => cur
  end.

Definition sample_text_width (font text : string) : Q :=
  inject_Z (Z.of_nat (String.length font)) * inject_Z (Z.of_nat (String.length text)).

(** The default spacings of the two variants. *)
Definition spacing1 : NodeSpacing := {| spacing_x := 360; spacing_y := 120 |}.
Definition spacing2 : NodeSpacing := {| spacing_x := 380; spacing_y := 140 |}.

(** Scenario A: [{id:'r', label:'Root', children:[{id:'a'},{id:'b'}]}]. *)
Definition scenario_A : jsval :=
  RObject (PStr "r") (PStr "Root") PUndefined
          (Some [RObject (PStr "a") PUndefined PUndefined None;
                 RObject (PStr "b") PUndefined PUndefined None]).

Definition scenario_A_tree : TreeNode :=
  Node (PStr "r") (PStr "Root")
       [Node (PStr "a") (PStr "a") []; Node (PStr "b") (PStr "b") []].

(** The input of the collision: a root that supplies the id [auto_0] and
    one child [{label: 'x'}] without an id. *)
Definition colliding_input : jsval :=
  RObject (PStr "auto_0") PUndefined PUndefined
          (Some [RObject PUndefined (PStr "x") PUndefined None]).

Definition colliding_tree : TreeNode :=
  Node (PStr "auto_0") (PStr "auto_0") [Node (PStr "auto_0") (PStr "x") []].

(** A root with two children whose labels hold six words of fourteen
    letters: under ten units a letter no two words share a line of 260. *)
Definition six_words : string :=
  "aaaaaaaaaaaaaa bbbbbbbbbbbbbb cccccccccccccc dddddddddddddd eeeeeeeeeeeeee ffffffffffffff".

Definition tall_tree : TreeNode :=
  Node (PStr "r") (PStr "Root")
       [Node (PStr "a") (PStr six_words) []; Node (PStr "b") (PStr six_words) []].

(* ===================================================================== *)
(** * Properties *)
(* ===================================================================== *)

(** ** The interaction controller *)

Lemma toggle_variants_agree (expandableIds : gset prim) (i : prim) (prev : gset prim) :
  fst (V1.toggle expandableIds i prev) = V2.toggle expandableIds i prev.
Proof.
  unfold V1.toggle, V2.toggle.
  destruct (bool_decide (i ∈ expandableIds)); simpl; [|reflexivity].
  destruct (bool_decide (i ∈ prev)); reflexivity.
Qed.

(** C9. [toggle(id)] leaves the expanded set as it is when [id] is not
    expandable; otherwise it flips the membership of [id] and of no other
    id.  Both variants compute the same set; the first one also reports the
    new state of [id] through [onNodeExpand]. *)
Theorem toggle_flips_only_its_id (expandableIds : gset prim) (i : prim) (prev : gset prim) :
  fst (V1.toggle expandableIds i prev) = V2.toggle expandableIds i prev /\
  (i ∉ expandableIds ->
     V2.toggle expandableIds i prev = prev /\
     snd (V1.toggle expandableIds i prev) = []) /\
  (i ∈ expandableIds ->
     (i ∈ V2.toggle expandableIds i prev <-> i ∉ prev) /\
     (forall i' : prim, i' <> i ->
        (i' ∈ V2.toggle expandableIds i prev <-> i' ∈ prev)) /\
     snd (V1.toggle expandableIds i prev) =
       [(i, bool_decide (i ∈ V2.toggle expandableIds i prev))]).
Proof.
  split; [apply toggle_variants_agree|].
  unfold V1.toggle, V2.toggle. split.
  - intros Hout. rewrite bool_decide_eq_false_2 by assumption. simpl. auto.
  - intros Hin. rewrite bool_decide_eq_true_2 by assumption. simpl.
    destruct (bool_decide (i ∈ prev)) eqn:Hprev.
    + apply bool_decide_eq_true_1 in Hprev.
      split; [set_solver|]. split; [set_solver|].
      rewrite bool_decide_eq_false_2 by set_solver. reflexivity.
    + apply bool_decide_eq_false_1 in Hprev.
      split; [set_solver|]. split; [set_solver|].
      rewrite bool_decide_eq_true_2 by set_solver. reflexivity.
Qed.

Lemma toggle_flips_only_its_id_witness :
  (PStr "r" ∈ V2.toggle {[ PStr "r" ]} (PStr "r") ∅ <-> PStr "r" ∉ (∅ : gset prim)) /\
  (PStr "a" ∈ V2.toggle {[ PStr "r" ]} (PStr "r") {[ PStr "a" ]} <->
   PStr "a" ∈ ({[ PStr "a" ]} : gset prim)).
Proof.
  split.
  - apply (toggle_flips_only_its_id {[ PStr "r" ]} (PStr "r") ∅). set_solver.
  - apply (toggle_flips_only_its_id {[ PStr "r" ]} (PStr "r") {[ PStr "a" ]});
      [set_solver | discriminate].
Defined.

(** ** The text measurer *)

#[local] Arguments truthy : simpl never.

Lemma truthy_str (s : string) : truthy (PStr s) = true <-> s <> "".
Proof.
  unfold truthy. destruct (String.eqb_spec s ""); simpl; split; congruence.
Qed.

Lemma truthy_empty : truthy (PStr "") = false.
Proof. reflexivity. Qed.

Lemma truthy_app_l (a b : string) :
  truthy (PStr a) = true -> truthy (PStr (a ++ b)%string) = true.
Proof. destruct a; [discriminate | reflexivity]. Qed.

Section WrapText.

Variable measureText : string -> Q.
Variable maxWidth : Q.

Local Abbreviation step := (V2.wrap_step measureText maxWidth).
Local Abbreviation wrap_words := (V2.wrap_words measureText maxWidth).

Lemma wrap_words_finish (words : list string) :
  wrap_words words = wrap_finish (fold_left step words ([], "")).
Proof.
  unfold V2.wrap_words, wrap_finish.
  destruct (fold_left step words ([], "")) as [lines line]. reflexivity.
Qed.

Lemma step_eq (lines : list string) (line word : string) :
  step (lines, line) word =
    if truthy (PStr line)
    then if Qle_bool (measureText (line ++ " " ++ word)%string) maxWidth
         then (lines, (line ++ " " ++ word)%string)
         else (lines ++ [line], word)
    else (lines, word).
Proof.
  unfold V2.wrap_step. destruct (truthy (PStr line)).
  - rewrite andb_true_r. destruct (Qle_bool _ maxWidth); reflexivity.
  - rewrite andb_false_r. reflexivity.
Qed.

(** After a turn of the loop on a word that is not empty, the line is
    not empty. *)
Lemma step_line_truthy (st : list string * string) (word : string) :
  truthy (PStr word) = true ->
  truthy (PStr (snd (step st word))) = true.
Proof.
  intros Hw. destruct st as [lines line]. unfold V2.wrap_step.
  destruct (truthy (PStr line)) eqn:Hl.
  - destruct (negb (Qle_bool _ maxWidth)); simpl; [exact Hw|].
    apply truthy_app_l. exact Hl.
  - rewrite andb_false_r. simpl. exact Hw.
Qed.










End WrapText.


(** Splitting at the spaces gives back the words that were joined. *)
Lemma split_space_cons (s : string) : exists w ws, V2.split_space s = w :: ws.
Proof.
  induction s as [|c s IH]; simpl; [eauto|].
  destruct (Ascii.eqb c " "); [eauto|].
  destruct (V2.split_space s); eauto.
Qed.










(** ** The normalizer *)

Lemma walk_gen_eq (reject : jsval -> bool) (keep : option TreeNode -> option TreeNode)
    (node : jsval) (auto : nat) :
  walk_gen reject keep node auto =
    if reject node then (None, auto)
    else
      let '(id, auto) :=
        if nullish (prop_id node) then (PStr (auto_id auto), S auto)
        else (prop_id node, auto) in
      let label :=
        coalesce (prop_label node) (coalesce (prop_name node) (PStr (String_of id))) in
      let '(mapped, auto) :=
        match node with
        | RObject _ _ _ (Some cs) => map_state (walk_gen reject keep) cs auto
        | _ => ([], auto)
        end in
      (Some (Node id label (omap keep mapped)), auto).
Proof. destruct node as [v| |i l n [cs|]]; reflexivity. Qed.

Lemma V1_walk_gen (node : jsval) (auto : nat) :
  V1.walk node auto = walk_gen reject1 V1.keep node auto.
Proof.
  revert auto. induction node as [v| |i l n|i l n cs IH] using jsval_ind'; intros auto;
    try reflexivity.
  assert (E : forall a, map_state V1.walk cs a = map_state (walk_gen reject1 V1.keep) cs a).
  { induction IH as [|c rest Hc _ IHrest]; intros a; [reflexivity|].
    simpl. rewrite Hc. destruct (walk_gen reject1 V1.keep c a) as [r a1].
    rewrite IHrest. reflexivity. }
  rewrite walk_gen_eq.
  change (V1.walk (RObject i l n (Some cs)) auto) with
    (let '(id, auto) :=
        if nullish i then (PStr (auto_id auto), S auto) else (i, auto) in
      let label := coalesce l (coalesce n (PStr (String_of id))) in
      let '(mapped, auto) := map_state V1.walk cs auto in
      (Some (Node id label (omap V1.keep mapped)), auto)).
  simpl. destruct (nullish i); rewrite E; reflexivity.
Qed.

Lemma V2_walk_gen (node : jsval) (auto : nat) :
  V2.walk node auto = walk_gen reject2 V2.keep node auto.
Proof.
  revert auto. induction node as [v| |i l n|i l n cs IH] using jsval_ind'; intros auto;
    try reflexivity.
  assert (E : forall a, map_state V2.walk cs a = map_state (walk_gen reject2 V2.keep) cs a).
  { induction IH as [|c rest Hc _ IHrest]; intros a; [reflexivity|].
    simpl. rewrite Hc. destruct (walk_gen reject2 V2.keep c a) as [r a1].
    rewrite IHrest. reflexivity. }
  rewrite walk_gen_eq.
  change (V2.walk (RObject i l n (Some cs)) auto) with
    (let '(id, auto) :=
        if nullish i then (PStr (auto_id auto), S auto) else (i, auto) in
      let label := coalesce l (coalesce n (PStr (String_of id))) in
      let '(mapped, auto) := map_state V2.walk cs auto in
      (Some (Node id label (omap V2.keep mapped)), auto)).
  simpl. destruct (nullish i); rewrite E; reflexivity.
Qed.

Lemma auto_id_inj (a b : nat) : auto_id a = auto_id b -> a = b.
Proof.
  unfold auto_id. intros H. simpl in H. injection H as H.
  change (NilEmpty.string_of_uint (Nat.to_uint a) = NilEmpty.string_of_uint (Nat.to_uint b)) in H.
  assert (E : Some (Nat.to_uint a) = Some (Nat.to_uint b)).
  { rewrite <- !NilEmpty.usu. rewrite H. reflexivity. }
  injection E as E.
  rewrite <- (DecimalNat.Unsigned.of_to a), <- (DecimalNat.Unsigned.of_to b), E.
  reflexivity.
Qed.

Lemma auto_prim_inj (a b : nat) : PStr (auto_id a) = PStr (auto_id b) -> a = b.
Proof. intros H. apply auto_id_inj. congruence. Qed.

Lemma supplied_ids_eq (node : jsval) :
  supplied_ids node =
    (if nullish (prop_id node) then [] else [prop_id node]) ++
    flat_map supplied_ids (entries node).
Proof. destruct node as [v| |i l n [cs|]]; reflexivity. Qed.

Lemma from_input_weaken (l l' : list prim) (a b b' a' : nat) (i : prim) :
  (forall x, In x l -> In x l') ->
  (a <= b)%nat -> (b' <= a')%nat ->
  from_input l b b' i -> from_input l' a a' i.
Proof.
  intros Hl Hab Hba [H|(k & Hk & ->)]; [left; auto|].
  right. exists k. split; [lia | reflexivity].
Qed.

Section Walk.

Variable reject : jsval -> bool.
Variable keep : option TreeNode -> option TreeNode.
Hypothesis keep_sub : forall c n, keep c = Some n -> c = Some n.

Local Abbreviation walk := (walk_gen reject keep).

Lemma walk_entries (node : jsval) (auto : nat) :
  walk node auto =
    if reject node then (None, auto)
    else
      let '(id, auto) :=
        if nullish (prop_id node) then (PStr (auto_id auto), S auto)
        else (prop_id node, auto) in
      let label :=
        coalesce (prop_label node) (coalesce (prop_name node) (PStr (String_of id))) in
      let '(mapped, auto) := map_state walk (entries node) auto in
      (Some (Node id label (omap keep mapped)), auto).
Proof. rewrite walk_gen_eq. destruct node as [v| |i l n [cs|]]; reflexivity. Qed.

Lemma walks_ok_of_each (cs : list jsval) : Forall (walk_ok reject keep) cs -> walks_ok reject keep cs.
Proof.
  induction 1 as [|c rest Hc _ IH]; intros a mapped a' E.
  - simpl in E. injection E as <- <-. simpl.
    split; [lia|]. split; [intros i []|]. intros _ _. constructor.
  - simpl in E.
    destruct (walk c a) as [r a1] eqn:Ec.
    destruct (map_state walk rest a1) as [rs a2] eqn:Er.
    injection E as <- <-.
    destruct (Hc _ _ _ Ec) as [Hle1 Hc'].
    destruct (IH _ _ _ Er) as (Hle2 & Hin2 & Hnd2).
    split; [lia|].
    assert (Hkeep : forall n, keep r = Some n ->
              (forall i, In i (tree_ids n) -> from_input (supplied_ids c) a a1 i) /\
              (NoDup (supplied_ids c) ->
               (forall v, In v (supplied_ids c) -> ~ is_auto_id v) ->
               NoDup (tree_ids n))).
    { intros n Hn. apply Hc'. apply keep_sub. exact Hn. }
    simpl omap. destruct (keep r) as [n|] eqn:Ek; simpl.
    + destruct (Hkeep n eq_refl) as [Hin1 Hnd1]. split.
      * intros i Hi. apply in_app_or in Hi as [Hi|Hi].
        -- eapply from_input_weaken; [| | |apply (Hin1 i Hi)];
             [intros x Hx; apply in_or_app; left; exact Hx | lia | lia].
        -- eapply from_input_weaken; [| | |apply (Hin2 i Hi)];
             [intros x Hx; apply in_or_app; right; exact Hx | lia | lia].
      * intros Hnd Hno. apply NoDup_app in Hnd as (Hndc & Hdisj & Hndr).
        apply NoDup_app. split; [|split].
        -- apply Hnd1; [exact Hndc|]. intros v Hv. apply Hno. apply in_or_app. left. exact Hv.
        -- intros i Hi Hi'. apply list_elem_of_In in Hi, Hi'.
           destruct (Hin1 i Hi) as [H1|(k1 & Hk1 & E1)];
             destruct (Hin2 i Hi') as [H2|(k2 & Hk2 & E2)].
           ++ apply (Hdisj i); apply list_elem_of_In; assumption.
           ++ apply (Hno i); [apply in_or_app; left; exact H1 | exists k2; exact E2].
           ++ apply (Hno i); [apply in_or_app; right; exact H2 | exists k1; exact E1].
           ++ subst i. apply auto_prim_inj in E2. lia.
        -- apply Hnd2; [exact Hndr|]. intros v Hv. apply Hno. apply in_or_app. right. exact Hv.
    + split.
      * intros i Hi. eapply from_input_weaken; [| | |apply (Hin2 i Hi)];
          [intros x Hx; apply in_or_app; right; exact Hx | lia | lia].
      * intros Hnd Hno. apply NoDup_app in Hnd as (_ & _ & Hndr).
        apply Hnd2; [exact Hndr|]. intros v Hv. apply Hno. apply in_or_app. right. exact Hv.
Qed.

Lemma walk_ok_node (node : jsval) : walks_ok reject keep (entries node) -> walk_ok reject keep node.
Proof.
  intros Hcs a r a' E. rewrite walk_entries in E.
  destruct (reject node). { injection E as <- <-. split; [lia|]. discriminate. }
  rewrite supplied_ids_eq.
  destruct (nullish (prop_id node)) eqn:Hnull.
  - destruct (map_state walk (entries node) (S a)) as [mapped a2] eqn:Em.
    injection E as <- <-.
    destruct (Hcs _ _ _ Em) as (Hle & Hin & Hnd).
    split; [lia|]. intros t [= <-]. simpl. split.
    + intros i [<-|Hi].
      * right. exists a. split; [lia | reflexivity].
      * eapply from_input_weaken; [| | |apply (Hin i Hi)]; [auto | lia | lia].
    + intros Hnds Hno. constructor; [|apply Hnd; assumption].
      intros Hi. apply list_elem_of_In in Hi.
      destruct (Hin _ Hi) as [H|(k & Hk & Ek)].
      * apply (Hno _ H). exists a. reflexivity.
      * apply auto_prim_inj in Ek. lia.
  - destruct (map_state walk (entries node) a) as [mapped a2] eqn:Em.
    injection E as <- <-.
    destruct (Hcs _ _ _ Em) as (Hle & Hin & Hnd).
    split; [lia|]. intros t [= <-]. simpl. split.
    + intros i [<-|Hi].
      * left. left. reflexivity.
      * eapply from_input_weaken; [| | |apply (Hin i Hi)]; [|lia|lia].
        intros x Hx. right. exact Hx.
    + intros Hnds Hno. apply NoDup_cons in Hnds as [Hfresh Hnds].
      constructor; [|apply Hnd; [exact Hnds|]].
      * intros Hi. apply list_elem_of_In in Hi.
        destruct (Hin _ Hi) as [H|(k & Hk & Ek)].
        -- apply Hfresh. apply list_elem_of_In. exact H.
        -- apply (Hno (prop_id node)); [left; reflexivity | exists k; exact Ek].
      * intros v Hv. apply Hno. right. exact Hv.
Qed.

Lemma walk_ok_all (node : jsval) : walk_ok reject keep node.
Proof.
  induction node as [v| |i l n|i l n cs IH] using jsval_ind';
    apply walk_ok_node; simpl; try (apply walks_ok_of_each; constructor).
  apply walks_ok_of_each. exact IH.
Qed.

End Walk.

Lemma V1_keep_sub (c : option TreeNode) (n : TreeNode) : V1.keep c = Some n -> c = Some n.
Proof.
  destruct c as [m|]; simpl; [|discriminate].
  destruct (truthy (id m)); [congruence | discriminate].
Qed.

Lemma V2_keep_sub (c : option TreeNode) (n : TreeNode) : V2.keep c = Some n -> c = Some n.
Proof. intros H. exact H. Qed.

Lemma V1_normalize_walk (input : jsval) (t : TreeNode) :
  V1.normalizeTree input = Some t -> exists a', V1.walk input 0 = (Some t, a').
Proof.
  unfold V1.normalizeTree. destruct (negb (raw_truthy input) || negb (typeof_object input));
    [discriminate|].
  destruct (V1.walk input 0) as [r a']. simpl. intros ->. eauto.
Qed.

Lemma V2_normalize_walk (input : jsval) (t : TreeNode) :
  V2.normalizeTree input = Some t -> exists a', V2.walk input 0 = (Some t, a').
Proof.
  unfold V2.normalizeTree. destruct (negb (raw_truthy input) || negb (typeof_object input));
    [discriminate|].
  destruct (V2.walk input 0) as [r a']. simpl. intros ->. eauto.
Qed.

(** C2, as the code has it. When the ids the input supplies are pairwise
    distinct and none of them is a string of the form [auto_<n>], no two
    nodes of the tree [normalize] returns share an id, in either variant. *)
Theorem normalize_ids_unique (input : jsval) (t : TreeNode) :
  NoDup (supplied_ids input) ->
  (forall v, In v (supplied_ids input) -> ~ is_auto_id v) ->
  V1.normalizeTree input = Some t \/ V2.normalizeTree input = Some t ->
  NoDup (tree_ids t).
Proof.
  intros Hnd Hno [H|H].
  - apply V1_normalize_walk in H as [a' H]. rewrite V1_walk_gen in H.
    destruct (walk_ok_all reject1 V1.keep V1_keep_sub input _ _ _ H) as [_ Hok].
    apply (Hok t eq_refl); assumption.
  - apply V2_normalize_walk in H as [a' H]. rewrite V2_walk_gen in H.
    destruct (walk_ok_all reject2 V2.keep V2_keep_sub input _ _ _ H) as [_ Hok].
    apply (Hok t eq_refl); assumption.
Qed.

Lemma normalize_ids_unique_witness : NoDup (tree_ids scenario_A_tree).
Proof.
  apply (normalize_ids_unique scenario_A scenario_A_tree).
  - simpl. repeat constructor; simpl; intros H; apply list_elem_of_In in H;
      simpl in H; intuition discriminate.
  - simpl. intros v [<-|[<-|[<-|[]]]] [n H]; discriminate H.
  - left. reflexivity.
Defined.

(** C2 as stated fails: the ids this input supplies are pairwise distinct,
    yet the root and its child both carry [auto_0] after [normalize]. *)
Lemma normalize_ids_can_collide :
  NoDup (supplied_ids colliding_input) /\
  V1.normalizeTree colliding_input = Some colliding_tree /\
  V2.normalizeTree colliding_input = Some colliding_tree /\
  ~ NoDup (tree_ids colliding_tree).
Proof.
  split; [|split; [|split]].
  - simpl. repeat constructor. intros H. apply list_elem_of_In in H. destruct H.
  - reflexivity.
  - reflexivity.
  - simpl. intros H. apply NoDup_cons in H as [H _]. apply H. left.
Qed.

(** The children of a walked node are the walked entries that pass the
    filter, in order. *)
Lemma map_state_ext {A B : Type} (f g : A -> nat -> B * nat) (xs : list A) (a : nat) :
  (forall x a, f x a = g x a) -> map_state f xs a = map_state g xs a.
Proof.
  intros E. revert a. induction xs as [|x xs IH]; intros a; [reflexivity|].
  simpl. rewrite E. destruct (g x a) as [r a1]. rewrite IH. reflexivity.
Qed.

Lemma V1_walk_children (p : jsval) (a a' : nat) (t : TreeNode) :
  V1.walk p a = (Some t, a') ->
  children t =
    omap V1.keep (fst (map_state V1.walk (entries p)
                                 (if nullish (prop_id p) then S a else a))).
Proof.
  rewrite (map_state_ext V1.walk _ _ _ V1_walk_gen).
  rewrite V1_walk_gen, walk_entries.
  destruct (reject1 p); [discriminate|].
  destruct (nullish (prop_id p));
    destruct (map_state _ _ _) as [m a2]; intros [= <- _]; reflexivity.
Qed.

Lemma V2_walk_children (p : jsval) (a a' : nat) (t : TreeNode) :
  V2.walk p a = (Some t, a') ->
  children t =
    omap V2.keep (fst (map_state V2.walk (entries p)
                                 (if nullish (prop_id p) then S a else a))).
Proof.
  rewrite (map_state_ext V2.walk _ _ _ V2_walk_gen).
  rewrite V2_walk_gen, walk_entries.
  destruct (reject2 p); [discriminate|].
  destruct (nullish (prop_id p));
    destruct (map_state _ _ _) as [m a2]; intros [= <- _]; reflexivity.
Qed.

Lemma truthy_auto_id (a : nat) : truthy (PStr (auto_id a)) = true.
Proof. reflexivity. Qed.

(** C8, as the code has it. An object-like child that lacks an id gets the
    synthesized [auto_<n>] and passes the filter, in both variants: it is
    never dropped, whether or not that id is already taken.  The first
    variant drops the entries that are not object-like and the objects
    whose own id is falsy; the second drops the falsy entries only. *)
Theorem child_without_id_is_kept (c : jsval) (a : nat) :
  (object_like c = true -> nullish (prop_id c) = true ->
     (exists n a', V1.walk c a = (Some n, a') /\ id n = PStr (auto_id a) /\
                   V1.keep (Some n) = Some n) /\
     (exists n a', V2.walk c a = (Some n, a') /\ id n = PStr (auto_id a) /\
                   V2.keep (Some n) = Some n)) /\
  (V1.keep (fst (V1.walk c a)) = None <->
     object_like c = false \/
     (nullish (prop_id c) = false /\ truthy (prop_id c) = false)) /\
  (V2.keep (fst (V2.walk c a)) = None <-> raw_truthy c = false).
Proof.
  rewrite V1_walk_gen, V2_walk_gen. rewrite !walk_entries.
  split; [|split].
  - intros Hobj Hnull.
    assert (R1 : reject1 c = false) by (destruct c; [discriminate | reflexivity..]).
    assert (R2 : reject2 c = false) by (destruct c; [discriminate | reflexivity..]).
    rewrite R1, R2, Hnull. split.
    + destruct (map_state (walk_gen reject1 V1.keep) (entries c) (S a)) as [m a2].
      eexists _, _. split; [reflexivity|]. split; [reflexivity|].
      unfold V1.keep. cbn [id]. rewrite truthy_auto_id. reflexivity.
    + destruct (map_state (walk_gen reject2 V2.keep) (entries c) (S a)) as [m a2].
      eexists _, _. split; [reflexivity|]. split; reflexivity.
  - destruct c as [v| |i l n kids].
    + assert (R1 : reject1 (RPrim v) = true).
      { unfold reject1. destruct v; simpl; rewrite ?orb_true_r; reflexivity. }
      rewrite R1. simpl. split; [auto | reflexivity].
    + simpl. split; [discriminate | intros [H|[H _]]; discriminate].
    + change (reject1 (RObject i l n kids)) with false. cbv iota.
      change (prop_id (RObject i l n kids)) with i.
      destruct (nullish i) eqn:Hnull.
      * destruct (map_state _ _ (S a)) as [m a2]. cbn [fst V1.keep id].
        rewrite truthy_auto_id.
        split; [discriminate | intros [H|[H _]]; discriminate].
      * destruct (map_state _ _ a) as [m a2]. cbn [fst V1.keep id].
        destruct (truthy i) eqn:Ht.
        -- split; [discriminate | intros [H|[_ H]]; discriminate].
        -- split; [intros _; right; auto | reflexivity].
  - unfold reject2. destruct (raw_truthy c) eqn:Ht; simpl.
    + destruct (nullish (prop_id c)).
      * destruct (map_state _ _ (S a)) as [m a2]. simpl. split; discriminate.
      * destruct (map_state _ _ a) as [m a2]. simpl. split; discriminate.
    + split; reflexivity.
Qed.

Lemma child_without_id_is_kept_witness :
  exists n a', V1.walk (RObject PUndefined (PStr "x") PUndefined None) 3 = (Some n, a') /\
               id n = PStr (auto_id 3) /\ V1.keep (Some n) = Some n.
Proof.
  apply (child_without_id_is_kept (RObject PUndefined (PStr "x") PUndefined None) 3);
    reflexivity.
Defined.

(** C8 as stated fails: the synthesized id of the child [{label: 'x'}]
    collides with the id of the root, and the child is kept all the same. *)
Lemma colliding_child_is_not_dropped :
  V1.normalizeTree colliding_input = Some colliding_tree /\
  V2.normalizeTree colliding_input = Some colliding_tree /\
  children colliding_tree = [Node (PStr "auto_0") (PStr "x") []] /\
  id colliding_tree = PStr "auto_0".
Proof. repeat split. Qed.

(** ** The hierarchy *)

Lemma in_hchildren (h h0 : HNode) :
  In h (hchildren h0) <->
  exists i c, children (hdata h0) !! i = Some c /\
              h = {| hdata := c; hdepth := S (hdepth h0); hpath := hpath h0 ++ [i] |}.
Proof.
  unfold hchildren. rewrite <- list_elem_of_In, elem_of_lookup_imap.
  split; intros (i & c & H1 & H2); exists i, c; auto.
Qed.

Lemma node_at_snoc (t : TreeNode) (p : list nat) (i : nat) :
  node_at t (p ++ [i]) =
    match node_at t p with
    | Some n => children n !! i
    | None => None
    end.
Proof.
  revert t. induction p as [|j p IH]; intros t; simpl.
  - destruct (children t !! i); reflexivity.
  - destruct (children t !! j); [apply IH | reflexivity].
Qed.

Lemma level_spec (t : TreeNode) (k : nat) (h : HNode) :
  In h (level (hierarchy t) k) <-> length (hpath h) = k /\ well_placed t h.
Proof.
  revert h. induction k as [|k IH]; intros h; simpl.
  - split.
    + intros [<-|[]]. repeat split.
    + intros (Hlen & Hd & Hn). left. destruct h as [d n p]. simpl in *.
      destruct p; [|discriminate]. simpl in Hn, Hd. injection Hn as <-. subst n.
      reflexivity.
  - rewrite in_flat_map. split.
    + intros (h0 & Hh0 & Hh). apply IH in Hh0 as (Hlen & Hd & Hn).
      apply in_hchildren in Hh as (i & c & Hc & ->). simpl.
      rewrite length_app. simpl. split; [lia|]. split; simpl.
      * rewrite length_app. simpl. lia.
      * rewrite node_at_snoc, Hn. exact Hc.
    + intros (Hlen & Hd & Hn). destruct h as [c d p]. simpl in *.
      revert Hlen Hd Hn. destruct p as [|i q _] using rev_ind; [discriminate|].
      intros Hlen Hd Hn.
      rewrite length_app in Hlen. simpl in Hlen.
      rewrite node_at_snoc in Hn. destruct (node_at t q) as [n|] eqn:Hq; [|discriminate].
      exists {| hdata := n; hdepth := k; hpath := q |}. split.
      * apply IH. simpl. split; [lia|]. split; simpl; [lia | exact Hq].
      * apply in_hchildren. exists i, c. simpl. split; [exact Hn|].
        f_equal. rewrite Hd, length_app. simpl. lia.
Qed.

Lemma height_child (t c : TreeNode) (i : nat) :
  children t !! i = Some c -> (S (height c) <= height t)%nat.
Proof.
  destruct t as [ti tl cs]. simpl. revert i.
  induction cs as [|c0 cs IH]; intros i H; [discriminate|].
  destruct i as [|i]; simpl in *.
  - injection H as ->. lia.
  - specialize (IH i H). lia.
Qed.

Lemma node_at_height (t n : TreeNode) (p : list nat) :
  node_at t p = Some n -> (length p <= height t)%nat.
Proof.
  revert t. induction p as [|i p IH]; intros t H; simpl in *; [lia|].
  destruct (children t !! i) as [c|] eqn:Hc; [|discriminate].
  apply IH in H. apply height_child in Hc. lia.
Qed.

Lemma descendants_spec (t : TreeNode) (h : HNode) :
  In h (descendants t) <-> well_placed t h.
Proof.
  unfold descendants. rewrite in_flat_map. split.
  - intros (k & _ & Hk). apply level_spec in Hk. apply Hk.
  - intros Hw. exists (length (hpath h)). split.
    + apply in_seq. destruct Hw as [_ Hn]. apply node_at_height in Hn. lia.
    + apply level_spec. auto.
Qed.

Lemma root_in_descendants (t : TreeNode) : In (hierarchy t) (descendants t).
Proof. apply descendants_spec. split; reflexivity. Qed.

Lemma hchildren_well_placed (t : TreeNode) (h c : HNode) :
  well_placed t h -> In c (hchildren h) -> well_placed t c.
Proof.
  intros [Hd Hn] Hc. apply in_hchildren in Hc as (i & n & Hi & ->).
  split; simpl.
  - rewrite length_app. simpl. lia.
  - rewrite node_at_snoc, Hn. exact Hi.
Qed.

Lemma in_hlinks (t : TreeNode) (h c : HNode) :
  In (h, c) (hlinks t) <-> In h (descendants t) /\ In c (hchildren h).
Proof.
  unfold hlinks. rewrite in_flat_map. split.
  - intros (h0 & Hh0 & Hin). apply in_map_iff in Hin as (c0 & [= <- <-] & Hc0). auto.
  - intros [Hh Hc]. exists h. split; [exact Hh|]. apply in_map_iff. eauto.
Qed.

Lemma hlinks_in_descendants (t : TreeNode) (l : HNode * HNode) :
  In l (hlinks t) -> In (fst l) (descendants t) /\ In (snd l) (descendants t).
Proof.
  destruct l as [h c]. intros H. apply in_hlinks in H as [Hh Hc]. simpl.
  split; [exact Hh|]. apply descendants_spec.
  eapply hchildren_well_placed; [apply descendants_spec; exact Hh | exact Hc].
Qed.

(** A node of the hierarchy is determined by its path. *)
Lemma well_placed_path_inj (t : TreeNode) (h h' : HNode) :
  well_placed t h -> well_placed t h' -> hpath h = hpath h' -> h = h'.
Proof.
  intros [Hd Hn] [Hd' Hn'] E. destruct h as [n d p], h' as [n' d' p']. simpl in *.
  subst p'. rewrite Hn in Hn'. injection Hn' as <-. subst d d'. reflexivity.
Qed.

(** The ids of the hierarchy are those found along the paths of the tree. *)
Lemma descendants_ids (t : TreeNode) (i : prim) :
  In i (map (fun h => id (hdata h)) (descendants t)) <->
  exists p n, node_at t p = Some n /\ id n = i.
Proof.
  rewrite in_map_iff. split.
  - intros (h & <- & Hh). apply descendants_spec in Hh as [_ Hn]. eauto.
  - intros (p & n & Hn & <-).
    exists {| hdata := n; hdepth := length p; hpath := p |}. split; [reflexivity|].
    apply descendants_spec. split; [reflexivity | exact Hn].
Qed.

(** ** The visibility reducer *)

Lemma V2_build_id (t : TreeNode) (expanded : gset prim) :
  id (V2.buildVisibleTree t expanded) = id t.
Proof. destruct t as [i l cs]. simpl. destruct (bool_decide (i ∈ expanded)); reflexivity. Qed.

Lemma V2_build_children (t : TreeNode) (expanded : gset prim) :
  children (V2.buildVisibleTree t expanded) =
    if bool_decide (id t ∈ expanded)
    then map (fun c => V2.buildVisibleTree c expanded) (children t)
    else [].
Proof. destruct t as [i l cs]. simpl. destruct (bool_decide (i ∈ expanded)); reflexivity. Qed.

Lemma node_at_ids (t n : TreeNode) (p : list nat) :
  node_at t p = Some n -> In (id n) (tree_ids t).
Proof.
  revert t. induction p as [|i p IH]; intros t H; simpl in H.
  - injection H as ->. destruct n. left. reflexivity.
  - destruct (children t !! i) as [c|] eqn:Hc; [|discriminate].
    destruct t as [ti tl cs]. simpl in *. right. apply in_flat_map.
    exists c. split; [|apply IH; exact H].
    apply list_elem_of_In, list_elem_of_lookup. eauto.
Qed.

Lemma reachable_node_at (expanded : gset prim) (t n : TreeNode) :
  reachable expanded t n -> exists p, node_at t p = Some n.
Proof.
  induction 1 as [|parent c _ [p Hp] _ Hc].
  - exists []. reflexivity.
  - apply list_elem_of_In, list_elem_of_lookup in Hc as [i Hi].
    exists (p ++ [i]). rewrite node_at_snoc, Hp. exact Hi.
Qed.

Lemma visible_is_reachable (expanded : gset prim) (t n' : TreeNode) (p : list nat) :
  node_at (V2.buildVisibleTree t expanded) p = Some n' ->
  exists n, reachable expanded t n /\ n' = V2.buildVisibleTree n expanded.
Proof.
  revert n'. induction p as [|i p IH] using rev_ind; intros n' H.
  - simpl in H. injection H as <-. exists t. split; [constructor | reflexivity].
  - rewrite node_at_snoc in H.
    destruct (node_at (V2.buildVisibleTree t expanded) p) as [m'|] eqn:Hm; [|discriminate].
    destruct (IH m' eq_refl) as (m & Hreach & ->).
    rewrite V2_build_children in H.
    destruct (bool_decide (id m ∈ expanded)) eqn:Hexp; [|discriminate].
    apply bool_decide_eq_true_1 in Hexp.
    change (map ?f ?l) with (f <$> l) in H.
    rewrite list_lookup_fmap in H.
    destruct (children m !! i) as [c|] eqn:Hc; [|discriminate].
    injection H as <-. exists c. split; [|reflexivity].
    eapply reach_child; [exact Hreach | exact Hexp |].
    apply list_elem_of_In, list_elem_of_lookup. eauto.
Qed.

Lemma reachable_is_visible (expanded : gset prim) (t n : TreeNode) :
  reachable expanded t n ->
  exists p, node_at (V2.buildVisibleTree t expanded) p = Some (V2.buildVisibleTree n expanded).
Proof.
  induction 1 as [|parent c _ [p Hp] Hexp Hc].
  - exists []. reflexivity.
  - apply list_elem_of_In, list_elem_of_lookup in Hc as [i Hi].
    exists (p ++ [i]). rewrite node_at_snoc, Hp, V2_build_children.
    rewrite bool_decide_eq_true_2 by exact Hexp.
    change (map ?f ?l) with (f <$> l).
    rewrite list_lookup_fmap, Hi. reflexivity.
Qed.

Lemma map_kids_map (f : TreeNode -> TreeNode) (cs : list TreeNode) :
  forallb (fun c => truthy (id c)) cs = true -> V1.map_kids f cs = map f cs.
Proof.
  unfold V1.map_kids. induction cs as [|c cs IH]; intros H; [reflexivity|].
  simpl in H. apply andb_prop in H as [Hc Hcs].
  cbn [omap list_omap map]. rewrite Hc. f_equal. apply IH. exact Hcs.
Qed.

Lemma filter_truthy_all (cs : list TreeNode) :
  forallb (fun c => truthy (id c)) cs = true ->
  filter (fun c => truthy (id c) = true) cs = cs.
Proof.
  induction cs as [|c cs IH]; intros H; [reflexivity|].
  simpl in H. apply andb_prop in H as [Hc Hcs].
  rewrite filter_cons_True by exact Hc. rewrite IH by exact Hcs. reflexivity.
Qed.

Lemma clean_children (cs : list TreeNode) :
  forallb (fun c => truthy (id c) && clean c) cs = true ->
  forallb (fun c => truthy (id c)) cs = true /\ Forall (fun c => clean c = true) cs.
Proof.
  induction cs as [|c cs IH]; intros H; [split; [reflexivity | constructor]|].
  simpl in H. apply andb_prop in H as [Hc Hcs]. apply andb_prop in Hc as [Ht Hc].
  destruct (IH Hcs) as [H1 H2]. split.
  - simpl. rewrite Ht. exact H1.
  - constructor; assumption.
Qed.

(** On a tree whose nodes below the root all have truthy ids, the filter of
    the first variant removes nothing and the two reducers agree. *)
Lemma build_variants_agree (t : TreeNode) (expanded : gset prim) :
  clean t = true -> V1.buildVisibleTree t expanded = V2.buildVisibleTree t expanded.
Proof.
  induction t as [i l cs IH] using TreeNode_ind'. intros Hclean. simpl in Hclean.
  apply clean_children in Hclean as [Htruthy Hclean].
  assert (Hmap : map (fun c => V1.buildVisibleTree c expanded) cs =
                 map (fun c => V2.buildVisibleTree c expanded) cs).
  { clear Htruthy. induction IH as [|c cs Hc _ IHcs]; [reflexivity|].
    apply Forall_cons in Hclean as [Hcc Hcs].
    simpl. rewrite (Hc Hcc), (IHcs Hcs). reflexivity. }
  cbn [V1.buildVisibleTree V2.buildVisibleTree].
  rewrite (filter_truthy_all cs Htruthy), (map_kids_map _ cs Htruthy), Hmap.
  destruct cs as [|c cs']; simpl.
  - destruct (bool_decide (i ∈ expanded)); reflexivity.
  - destruct (bool_decide (i ∈ expanded)); reflexivity.
Qed.

Lemma map_state_results {A B : Type} (f : A -> nat -> B * nat) (cs : list A)
    (a a' : nat) (mapped : list B) (r : B) :
  map_state f cs a = (mapped, a') ->
  In r mapped -> exists c a1 a2, In c cs /\ f c a1 = (r, a2).
Proof.
  revert a mapped. induction cs as [|c cs IH]; intros a mapped E Hr; simpl in E.
  - injection E as <- <-. destruct Hr.
  - destruct (f c a) as [r0 a1] eqn:Ec.
    destruct (map_state f cs a1) as [rs a2] eqn:Er.
    injection E as <- <-. destruct Hr as [<-|Hr].
    + exists c, a, a1. split; [left; reflexivity | exact Ec].
    + destruct (IH _ _ Er Hr) as (c' & b1 & b2 & Hc' & E').
      exists c', b1, b2. split; [right; exact Hc' | exact E'].
Qed.

Lemma in_omap_V1_keep (mapped : list (option TreeNode)) (n : TreeNode) :
  In n (omap V1.keep mapped) -> truthy (id n) = true /\ In (Some n) mapped.
Proof.
  rewrite <- list_elem_of_In, list_elem_of_omap.
  intros (r & Hr & Hk). apply list_elem_of_In in Hr.
  destruct r as [m|]; simpl in Hk; [|discriminate].
  destruct (truthy (id m)) eqn:Ht; [|discriminate].
  injection Hk as ->. auto.
Qed.

(** The first variant's [walk] returns trees whose nodes below the root
    all have truthy ids. *)
Lemma V1_walk_clean (node : jsval) (a a' : nat) (t : TreeNode) :
  V1.walk node a = (Some t, a') -> clean t = true.
Proof.
  rewrite V1_walk_gen. revert a a' t.
  assert (Hnode : forall node,
             Forall (fun c => forall a a' t,
                       walk_gen reject1 V1.keep c a = (Some t, a') -> clean t = true)
                    (entries node) ->
             forall a a' t,
               walk_gen reject1 V1.keep node a = (Some t, a') -> clean t = true).
  { intros nd Hcs a a' t E. rewrite walk_entries in E.
    destruct (reject1 nd); [discriminate|].
    assert (Hgoal : forall a1 mapped a2 i l,
               map_state (walk_gen reject1 V1.keep) (entries nd) a1 = (mapped, a2) ->
               clean (Node i l (omap V1.keep mapped)) = true).
    { intros a1 mapped a2 i l Em. simpl. apply forallb_forall. intros n Hn.
      apply in_omap_V1_keep in Hn as [Ht Hn]. rewrite Ht. simpl.
      destruct (map_state_results _ _ _ _ _ _ Em Hn) as (c & b1 & b2 & Hc & Ec).
      rewrite Forall_forall in Hcs. apply (Hcs c (proj2 (list_elem_of_In _ _) Hc) _ _ _ Ec). }
    destruct (nullish (prop_id nd)).
    - destruct (map_state _ _ (S a)) as [mapped a2] eqn:Em.
      injection E as <- _. eapply Hgoal. exact Em.
    - destruct (map_state _ _ a) as [mapped a2] eqn:Em.
      injection E as <- _. eapply Hgoal. exact Em. }
  induction node as [v| |i l n|i l n cs IH] using jsval_ind';
    apply Hnode; simpl; try constructor.
  exact IH.
Qed.

Lemma V1_normalize_clean (input : jsval) (t : TreeNode) :
  V1.normalizeTree input = Some t -> clean t = true.
Proof.
  intros H. apply V1_normalize_walk in H as [a' H]. eapply V1_walk_clean. exact H.
Qed.

(** ** Numbers *)

Lemma num_le_trans (a b c : num) : num_le a b -> num_le b c -> num_le a c.
Proof.
  destruct a, b, c; simpl; try tauto. apply Qle_trans.
Qed.

Lemma low_cases (a : num) : low a -> a = NegInf \/ exists q, a = Fin q.
Proof. intros [H|H]; [left; exact H | right; eexists; exact H]. Qed.

Lemma fin_Fin (q : Q) : fin (Fin q).
Proof. reflexivity. Qed.

Lemma low_Fin (q : Q) : low (Fin q).
Proof. right. reflexivity. Qed.

Lemma low_NegInf : low NegInf.
Proof. left. reflexivity. Qed.

Lemma num_le_refl_low (a : num) : low a -> num_le a a.
Proof.
  intros H. apply low_cases in H as [-> | (q & ->)]; simpl; [exact I | apply Qle_refl].
Qed.

Lemma nmax_low (a b : num) : low a -> low b -> low (nmax a b).
Proof.
  intros Ha Hb. apply low_cases in Ha as [-> | (x & ->)];
    apply low_cases in Hb as [-> | (y & ->)]; simpl;
    first [apply low_NegInf | apply low_Fin].
Qed.

Lemma nmax_upper_l (a b : num) : low a -> low b -> num_le a (nmax a b).
Proof.
  intros Ha Hb. apply low_cases in Ha as [-> | (x & ->)];
    apply low_cases in Hb as [-> | (y & ->)]; simpl;
    first [exact I | apply Qle_refl | apply Q.le_max_l].
Qed.

Lemma nmax_upper_r (a b : num) : low a -> low b -> num_le b (nmax a b).
Proof.
  intros Ha Hb. apply low_cases in Ha as [-> | (x & ->)];
    apply low_cases in Hb as [-> | (y & ->)]; simpl;
    first [exact I | apply Qle_refl | apply Q.le_max_r].
Qed.

Section Folds.

Context {A : Type}.
Variable f : A -> num.

Lemma fold_nmin_from_fin (ns : list A) (m0 : Q) :
  (forall n, In n ns -> fin (f n)) ->
  exists m : Q,
    fold_left (fun m n => nmin m (f n)) ns (Fin m0) = Fin m /\
    (m <= m0)%Q /\
    (forall n, In n ns -> (m <= to_Q (f n))%Q) /\
    ((m == m0)%Q \/ exists n, In n ns /\ (m == to_Q (f n))%Q).
Proof.
  revert m0. induction ns as [|n ns IH]; intros m0 Hfin; simpl.
  - exists m0. split; [reflexivity|]. split; [apply Qle_refl|].
    split; [intros n []|]. left. reflexivity.
  - rewrite (Hfin n (or_introl eq_refl)). simpl.
    destruct (IH (Qmin m0 (to_Q (f n)))) as (m & E & Hle & Hall & Hex).
    { intros n' Hn'. apply Hfin. right. exact Hn'. }
    exists m. split; [exact E|].
    pose proof (Q.le_min_l m0 (to_Q (f n))) as Hl.
    pose proof (Q.le_min_r m0 (to_Q (f n))) as Hr.
    split; [eapply Qle_trans; eassumption|]. split.
    + intros n' [<-|Hn']; [eapply Qle_trans; eassumption | apply Hall; exact Hn'].
    + destruct Hex as [Hex|(n' & Hn' & Hex)].
      * destruct (Q.min_spec m0 (to_Q (f n))) as [[_ Hm]|[_ Hm]].
        -- left. rewrite Hex. exact Hm.
        -- right. exists n. split; [left; reflexivity|]. rewrite Hex. exact Hm.
      * right. exists n'. split; [right; exact Hn' | exact Hex].
Qed.

Lemma fold_nmin_from_inf (ns : list A) :
  ns <> [] ->
  (forall n, In n ns -> fin (f n)) ->
  exists m : Q,
    fold_left (fun m n => nmin m (f n)) ns PosInf = Fin m /\
    (forall n, In n ns -> (m <= to_Q (f n))%Q) /\
    (exists n, In n ns /\ (m == to_Q (f n))%Q).
Proof.
  destruct ns as [|n ns]; [congruence|]. intros _ Hfin. simpl.
  rewrite (Hfin n (or_introl eq_refl)). simpl.
  destruct (fold_nmin_from_fin ns (to_Q (f n))) as (m & E & Hle & Hall & Hex).
  { intros n' Hn'. apply Hfin. right. exact Hn'. }
  exists m. split; [exact E|]. split.
  - intros n' [<-|Hn']; [exact Hle | apply Hall; exact Hn'].
  - destruct Hex as [Hex|(n' & Hn' & Hex)].
    + exists n. split; [left; reflexivity | exact Hex].
    + exists n'. split; [right; exact Hn' | exact Hex].
Qed.

Lemma fold_nmax_low (ns : list A) (init : num) :
  (forall n, In n ns -> low (f n)) ->
  low init ->
  low (fold_left (fun m n => nmax m (f n)) ns init) /\
  num_le init (fold_left (fun m n => nmax m (f n)) ns init) /\
  (forall n, In n ns -> num_le (f n) (fold_left (fun m n => nmax m (f n)) ns init)).
Proof.
  revert init. induction ns as [|n ns IH]; intros init Hlow Hinit; simpl.
  - split; [exact Hinit|]. split; [apply num_le_refl_low; exact Hinit | intros n []].
  - assert (Hn : low (f n)) by (apply Hlow; left; reflexivity).
    destruct (IH (nmax init (f n))) as (H1 & H2 & H3).
    { intros n' Hn'. apply Hlow. right. exact Hn'. }
    { apply nmax_low; assumption. }
    split; [exact H1|]. split.
    + eapply num_le_trans; [apply (nmax_upper_l init (f n)); assumption | exact H2].
    + intros n' [<-|Hn'].
      * eapply num_le_trans; [apply (nmax_upper_r init (f n)); assumption | exact H2].
      * apply H3. exact Hn'.
Qed.

End Folds.

(** ** The index by id *)

Section IndexBy.

Context {A : Type}.
Variable key : A -> prim.

Lemma index_by_snoc (ns : list A) (n : A) :
  index_by key (ns ++ [n]) = <[ key n := n ]> (index_by key ns).
Proof. unfold index_by. rewrite fold_left_app. reflexivity. Qed.

Lemma index_by_lookup_in (ns : list A) (i : prim) (n : A) :
  index_by key ns !! i = Some n -> In n ns /\ key n = i.
Proof.
  induction ns as [|x ns IH] using rev_ind.
  - unfold index_by. simpl. rewrite lookup_empty. discriminate.
  - rewrite index_by_snoc. destruct (decide (key x = i)) as [E|E].
    + rewrite E, lookup_insert_eq. intros [= <-].
      split; [apply in_or_app; right; left; reflexivity | exact E].
    + rewrite lookup_insert_ne by exact E. intros H. apply IH in H as [H1 H2].
      split; [apply in_or_app; left; exact H1 | exact H2].
Qed.

Lemma index_by_lookup_some (ns : list A) (n : A) :
  In n ns -> is_Some (index_by key ns !! key n).
Proof.
  induction ns as [|x ns IH] using rev_ind; [intros []|].
  intros H. rewrite index_by_snoc. destruct (decide (key x = key n)) as [E|E].
  - rewrite E, lookup_insert_eq. eauto.
  - rewrite lookup_insert_ne by exact E. apply IH.
    apply in_app_or in H as [H|[H|[]]]; [exact H | congruence].
Qed.

(** Under distinct keys the index returns the node itself. *)
Lemma index_by_lookup_unique (ns : list A) (n : A) :
  In n ns ->
  (forall n', In n' ns -> key n' = key n -> n' = n) ->
  index_by key ns !! key n = Some n.
Proof.
  intros Hin Huniq.
  destruct (index_by_lookup_some ns n Hin) as [n' Hn'].
  rewrite Hn'. f_equal. apply index_by_lookup_in in Hn' as [H1 H2].
  apply Huniq; assumption.
Qed.

End IndexBy.

Lemma NoDup_map_inj {A B : Type} (f : A -> B) (l : list A) (x y : A) :
  NoDup (map f l) -> In x l -> In y l -> f x = f y -> x = y.
Proof.
  induction l as [|a l IH]; simpl; [intros _ []|].
  intros Hnd Hx Hy E. apply NoDup_cons in Hnd as [Ha Hnd].
  destruct Hx as [<-|Hx], Hy as [<-|Hy].
  - reflexivity.
  - exfalso. apply Ha. apply list_elem_of_In, in_map_iff. exists y. auto.
  - exfalso. apply Ha. apply list_elem_of_In, in_map_iff. exists x. auto.
  - apply IH; assumption.
Qed.

(** ** The layout of the second variant *)

Lemma nmax_list_low (qs : list Q) : low (nmax_list (map Fin qs)).
Proof.
  unfold nmax_list.
  change (fold_left nmax (map Fin qs) NegInf)
    with (fold_left (fun m n => nmax m ((fun x : num => x) n)) (map Fin qs) NegInf).
  apply fold_nmax_low; [|apply low_NegInf].
  intros n Hn. apply in_map_iff in Hn as (q & <- & _). apply low_Fin.
Qed.

Lemma nadd_low_fin (a : num) (q : Q) : low a -> low (a + Fin q)%num.
Proof.
  intros H. apply low_cases in H as [-> | (x & ->)]; simpl;
    [apply low_NegInf | apply low_Fin].
Qed.

Lemma wf2_inv (n : V2.PositionedNode) :
  wf2 n ->
  exists x y h, V2.pn_x n = Fin x /\ V2.pn_y n = Fin y /\ V2.pn_boxH n = Fin h /\
                (V2.pn_boxW n = NegInf \/ exists w, V2.pn_boxW n = Fin w).
Proof.
  intros (Hx & Hy & Hh & Hw). apply low_cases in Hw. eauto 10.
Qed.

Lemma V2_scan_split (ns : list V2.PositionedNode) (a b c d : num) :
  fold_left V2.scan ns (a, b, c, d) =
    (fold_left (fun m n => nmin m (V2.pn_x n)) ns a,
     fold_left (fun m n => nmin m (V2.box_top n)) ns b,
     fold_left (fun m n => nmax m (V2.pn_x n + V2.pn_boxW n + Fin 40)%num) ns c,
     fold_left (fun m n => nmax m (V2.box_bottom n)) ns d).
Proof.
  revert a b c d. induction ns as [|n ns IH]; intros a b c d; [reflexivity|].
  simpl. rewrite IH. reflexivity.
Qed.


Section LayoutV2.

Variable measureText : string -> Q.
Variable d3_tree : Q -> Q -> TreeNode -> list nat -> Q * Q.
Variable nodeSpacing : NodeSpacing.
Variable padding : Q.

Local Abbreviation place := (V2.place measureText d3_tree nodeSpacing).
Local Abbreviation layout := (V2.layout measureText d3_tree nodeSpacing padding).

Lemma V2_place_wf (data : TreeNode) (X : gset prim) (h : HNode) : wf2 (place data X h).
Proof.
  repeat split. unfold V2.place. cbn [V2.pn_boxW].
  apply nadd_low_fin. rewrite <- (map_map measureText Fin). apply nmax_list_low.
Qed.

Lemma V2_place_id (data : TreeNode) (X : gset prim) (h : HNode) :
  V2.pn_id (place data X h) = id (hdata h).
Proof. reflexivity. Qed.

Lemma V2_shift_id (sx sy : num) (n : V2.PositionedNode) :
  V2.pn_id (V2.shift sx sy n) = V2.pn_id n.
Proof. reflexivity. Qed.

Lemma V2_in_shifted (data : TreeNode) (X : gset prim) (sx sy : num) (h : HNode) :
  In h (descendants data) ->
  In (V2.shift sx sy (place data X h))
     (map (V2.shift sx sy) (map (place data X) (descendants data))).
Proof. intros H. apply in_map, in_map. exact H. Qed.

Lemma V2_links_defined (data : TreeNode) (X : gset prim) (sx sy : num) :
  is_Some (mapM (V2.mkLink (V2.byId_of (map (V2.shift sx sy)
                                            (map (place data X) (descendants data)))))
                (hlinks data)).
Proof.
  apply mapM_is_Some_2. apply Forall_forall. intros l Hl.
  apply list_elem_of_In, hlinks_in_descendants in Hl as [Hs Ht].
  unfold compose, V2.mkLink.
  destruct (index_by_lookup_some V2.pn_id _ _ (V2_in_shifted data X sx sy _ Hs)) as [s Es].
  destruct (index_by_lookup_some V2.pn_id _ _ (V2_in_shifted data X sx sy _ Ht)) as [t Et].
  change (V2.byId_of ?ns) with (index_by V2.pn_id ns).
  change (V2.pn_id (V2.shift sx sy (place data X (fst l)))) with (id (hdata (fst l))) in Es.
  change (V2.pn_id (V2.shift sx sy (place data X (snd l)))) with (id (hdata (snd l))) in Et.
  rewrite Es, Et. eauto.
Qed.

(** The layout of a visible tree never throws, and has this shape. *)
Lemma V2_layout_shape (data : TreeNode) (X : gset prim) (minX minY maxX maxY : num) :
  V2.scan_all (map (place data X) (descendants data)) = (minX, minY, maxX, maxY) ->
  let shiftX := (Fin padding - minX)%num in
  let shiftY := (Fin padding - minY)%num in
  let nodes := map (V2.shift shiftX shiftY) (map (place data X) (descendants data)) in
  exists lks : list Link,
    mapM (V2.mkLink (V2.byId_of nodes)) (hlinks data) = Some lks /\
    layout (Some data) X =
      Some {| V2.nodes := nodes;
              V2.links := lks;
              V2.bounds := {| V2.maxX := (maxX + shiftX + Fin padding)%num;
                              V2.maxY := (maxY + shiftY + Fin padding)%num |} |}.
Proof.
  intros Hscan shiftX shiftY nodes.
  destruct (V2_links_defined data X shiftX shiftY) as [lks Hlks].
  exists lks. split; [exact Hlks|].
  unfold V2.layout. rewrite Hscan. cbv zeta.
  fold shiftX shiftY. fold nodes. unfold nodes. rewrite Hlks. reflexivity.
Qed.

Lemma V2_descendants_nonempty (data : TreeNode) (X : gset prim) :
  map (place data X) (descendants data) <> [].
Proof.
  pose proof (root_in_descendants data) as H.
  destruct (descendants data); [destruct H | discriminate].
Qed.

End LayoutV2.

(** ** The layout of the first variant *)

Lemma wf1_inv (n : V1.PositionedNode) :
  wf1 n ->
  exists x y h w, V1.pn_x n = Fin x /\ V1.pn_y n = Fin y /\
                  V1.pn_boxH n = Fin h /\ V1.pn_boxW n = Fin w.
Proof. intros (Hx & Hy & Hh & Hw). eauto 10. Qed.

Section LayoutV1.

Variable d3_tree : Q -> Q -> TreeNode -> list nat -> Q * Q.
Variable nodeSpacing : NodeSpacing.
Variable padding : Q.
Variable nodeRadius : Q.
Variable nodeLabelGap : Q.

Local Abbreviation place := (V1.place d3_tree nodeSpacing).
Local Abbreviation layout := (V1.layout d3_tree nodeSpacing padding nodeRadius nodeLabelGap).
Local Abbreviation scan := (V1.scan nodeRadius nodeLabelGap).
Local Abbreviation scan_all := (V1.scan_all nodeRadius nodeLabelGap).
Local Abbreviation mkLink := (V1.mkLink nodeRadius nodeLabelGap).
Local Abbreviation LABEL_X := (V1.LABEL_X nodeRadius nodeLabelGap).

Lemma V1_place_wf (data : TreeNode) (X : gset prim) (h : HNode) : wf1 (place data X h).
Proof. repeat split. Qed.

Lemma V1_scan_split (ns : list V1.PositionedNode) (a b c d : num) :
  fold_left scan ns (a, b, c, d) =
    (fold_left (fun m n => nmin m (V1.pn_x n)) ns a,
     fold_left (fun m n => nmax m (V1.pn_x n + Fin LABEL_X + V1.pn_boxW n)%num) ns b,
     fold_left (fun m n => nmin m (V1.box_top n)) ns c,
     fold_left (fun m n => nmax m (V1.box_bottom n)) ns d).
Proof.
  revert a b c d. induction ns as [|n ns IH]; intros a b c d; [reflexivity|].
  simpl. rewrite IH. reflexivity.
Qed.


Lemma V1_in_shifted (data : TreeNode) (X : gset prim) (sx sy : num) (h : HNode) :
  In h (descendants data) ->
  In (V1.shift sx sy (place data X h))
     (map (V1.shift sx sy) (map (place data X) (descendants data))).
Proof. intros H. apply in_map, in_map. exact H. Qed.

Lemma V1_links_defined (data : TreeNode) (X : gset prim) (sx sy : num) :
  is_Some (mapM (mkLink (V1.byId_of (map (V1.shift sx sy)
                                         (map (place data X) (descendants data)))))
                (hlinks data)).
Proof.
  apply mapM_is_Some_2. apply Forall_forall. intros l Hl.
  apply list_elem_of_In, hlinks_in_descendants in Hl as [Hs Ht].
  unfold compose, V1.mkLink.
  destruct (index_by_lookup_some V1.pn_id _ _ (V1_in_shifted data X sx sy _ Hs)) as [s Es].
  destruct (index_by_lookup_some V1.pn_id _ _ (V1_in_shifted data X sx sy _ Ht)) as [t Et].
  change (V1.byId_of ?ns) with (index_by V1.pn_id ns).
  change (V1.pn_id (V1.shift sx sy (place data X (fst l)))) with (id (hdata (fst l))) in Es.
  change (V1.pn_id (V1.shift sx sy (place data X (snd l)))) with (id (hdata (snd l))) in Et.
  rewrite Es, Et. eauto.
Qed.

Lemma V1_layout_shape (data : TreeNode) (X : gset prim) (minX maxX minY maxY : num) :
  scan_all (map (place data X) (descendants data)) = (minX, maxX, minY, maxY) ->
  let shiftX := (Fin padding - minX)%num in
  let shiftY := (Fin padding - minY)%num in
  let nodes := map (V1.shift shiftX shiftY) (map (place data X) (descendants data)) in
  exists lks : list Link,
    mapM (mkLink (V1.byId_of nodes)) (hlinks data) = Some lks /\
    layout (Some data) X =
      Some {| V1.nodes := nodes;
              V1.links := lks;
              V1.bounds := {| V1.minX := Fin padding;
                              V1.minY := Fin padding;
                              V1.maxX := (maxX + shiftX + Fin padding)%num;
                              V1.maxY := (maxY + shiftY + Fin padding)%num |} |}.
Proof.
  intros Hscan shiftX shiftY nodes.
  destruct (V1_links_defined data X shiftX shiftY) as [lks Hlks].
  exists lks. split; [exact Hlks|].
  unfold V1.layout. rewrite Hscan. cbv zeta.
  fold shiftX shiftY. fold nodes. unfold nodes. rewrite Hlks. reflexivity.
Qed.

Lemma V1_descendants_nonempty (data : TreeNode) (X : gset prim) :
  map (place data X) (descendants data) <> [].
Proof.
  pose proof (root_in_descendants data) as H.
  destruct (descendants data); [destruct H | discriminate].
Qed.

End LayoutV1.

(** ** Which nodes are laid out *)

Lemma visible_ids (t : TreeNode) (expanded : gset prim) :
  visible_ids_spec t expanded
    (map (fun h => id (hdata h)) (descendants (V2.buildVisibleTree t expanded))).
Proof.
  assert (Hiff : forall i,
            In i (map (fun h => id (hdata h)) (descendants (V2.buildVisibleTree t expanded)))
            <-> exists n, reachable expanded t n /\ id n = i).
  { intros i. rewrite descendants_ids. split.
    - intros (p & n' & Hn' & <-).
      destruct (visible_is_reachable _ _ _ _ Hn') as (n & Hreach & ->).
      exists n. split; [exact Hreach | symmetry; apply V2_build_id].
    - intros (n & Hreach & <-).
      destruct (reachable_is_visible _ _ _ Hreach) as [p Hp].
      exists p, (V2.buildVisibleTree n expanded). split; [exact Hp | apply V2_build_id]. }
  split; [exact Hiff|]. split.
  - intros i Hi. apply Hiff in Hi as (n & Hreach & <-).
    destruct (reachable_node_at _ _ _ Hreach) as [p Hp].
    eapply node_at_ids. exact Hp.
  - apply Hiff. exists t. split; [constructor | reflexivity].
Qed.

Lemma V1_layout_ids (d3_tree : Q -> Q -> TreeNode -> list nat -> Q * Q)
    (nodeSpacing : NodeSpacing) (padding nodeRadius nodeLabelGap : Q)
    (data : TreeNode) (X : gset prim) :
  exists L,
    V1.layout d3_tree nodeSpacing padding nodeRadius nodeLabelGap (Some data) X = Some L /\
    map V1.pn_id (V1.nodes L) = map (fun h => id (hdata h)) (descendants data).
Proof.
  destruct (V1.scan_all nodeRadius nodeLabelGap
              (map (V1.place d3_tree nodeSpacing data X) (descendants data)))
    as [[[minX maxX] minY] maxY] eqn:Hscan.
  destruct (V1_layout_shape d3_tree nodeSpacing padding nodeRadius nodeLabelGap
              data X _ _ _ _ Hscan) as (lks & _ & HL).
  eexists. split; [exact HL|]. cbn [V1.nodes]. rewrite !map_map. reflexivity.
Qed.

Lemma V2_layout_ids (measureText : string -> Q)
    (d3_tree : Q -> Q -> TreeNode -> list nat -> Q * Q)
    (nodeSpacing : NodeSpacing) (padding : Q) (data : TreeNode) (X : gset prim) :
  exists L,
    V2.layout measureText d3_tree nodeSpacing padding (Some data) X = Some L /\
    map V2.pn_id (V2.nodes L) = map (fun h => id (hdata h)) (descendants data).
Proof.
  destruct (V2.scan_all (map (V2.place measureText d3_tree nodeSpacing data X)
                             (descendants data)))
    as [[[minX minY] maxX] maxY] eqn:Hscan.
  destruct (V2_layout_shape measureText d3_tree nodeSpacing padding
              data X _ _ _ _ Hscan) as (lks & _ & HL).
  eexists. split; [exact HL|]. cbn [V2.nodes]. rewrite !map_map. reflexivity.
Qed.

(** C1. For a canonical tree and any expanded set, the layout pass returns
    a result, and the ids of its positioned nodes are exactly the ids of the
    nodes reachable from the root through expanded ancestors; they are ids
    of the canonical tree, and the id of the root is among them whatever
    the expanded set holds.  In the first variant the canonical tree is one
    [normalizeTree] returned; the second needs nothing of the tree. *)
Theorem layout_ids_are_the_reachable_ids
    (measureText : string -> Q)
    (d3_tree : Q -> Q -> TreeNode -> list nat -> Q * Q)
    (nodeSpacing : NodeSpacing) (padding nodeRadius nodeLabelGap : Q)
    (t : TreeNode) (expanded expandableIds : gset prim) :
  (forall input, V1.normalizeTree input = Some t ->
     exists L,
       V1.layout d3_tree nodeSpacing padding nodeRadius nodeLabelGap
                 (Some (V1.buildVisibleTree t expanded)) expandableIds = Some L /\
       visible_ids_spec t expanded (map V1.pn_id (V1.nodes L))) /\
  (exists L,
     V2.layout measureText d3_tree nodeSpacing padding
               (Some (V2.buildVisibleTree t expanded)) expandableIds = Some L /\
     visible_ids_spec t expanded (map V2.pn_id (V2.nodes L))).
Proof.
  split.
  - intros input Hnorm. apply V1_normalize_clean in Hnorm.
    rewrite (build_variants_agree t expanded Hnorm).
    destruct (V1_layout_ids d3_tree nodeSpacing padding nodeRadius nodeLabelGap
                (V2.buildVisibleTree t expanded) expandableIds) as (L & HL & Hids).
    exists L. split; [exact HL|]. rewrite Hids. apply visible_ids.
  - destruct (V2_layout_ids measureText d3_tree nodeSpacing padding
                (V2.buildVisibleTree t expanded) expandableIds) as (L & HL & Hids).
    exists L. split; [exact HL|]. rewrite Hids. apply visible_ids.
Qed.

(** ** The bounds *)


Lemma layout_ids_are_the_reachable_ids_witness :
  exists L,
    V1.layout Tidy.tidy spacing1 60 7 14
              (Some (V1.buildVisibleTree scenario_A_tree {[ PStr "r" ]}))
              {[ PStr "r" ]} = Some L /\
    visible_ids_spec scenario_A_tree {[ PStr "r" ]} (map V1.pn_id (V1.nodes L)).
Proof.
  apply (layout_ids_are_the_reachable_ids measure10 Tidy.tidy spacing1 60 7 14
           scenario_A_tree {[ PStr "r" ]} {[ PStr "r" ]}) with (input := scenario_A).
  reflexivity.
Defined.


(** ** Determinism *)

Lemma V1_place_ext (d1 d2 : Q -> Q -> TreeNode -> list nat -> Q * Q) (sp : NodeSpacing)
    (data : TreeNode) (X : gset prim) (h : HNode) :
  (forall dx dy t p, d1 dx dy t p = d2 dx dy t p) ->
  V1.place d1 sp data X h = V1.place d2 sp data X h.
Proof. intros Ed. unfold V1.place. rewrite Ed. reflexivity. Qed.

Section CanvasFacts.

Variable fresh_font : string.
Variable assign_font : string -> prim -> string.
Variable text_width : string -> string -> Q.
Variable d3_tree : Q -> Q -> TreeNode -> list nat -> Q * Q.
Variable nodeSpacing : NodeSpacing.
Variable padding : Q.

(** [FONT] is a font the canvas takes, whatever font it held before. *)
Hypothesis font_taken :
  forall cur cur', assign_font cur (PStr V2.FONT) = assign_font cur' (PStr V2.FONT).

Local Abbreviation measureText_in := (V2.measureText_in fresh_font assign_font text_width).
Local Abbreviation wrap_step_in := (V2.wrap_step_in fresh_font assign_font text_width).
Local Abbreviation wrapText_in := (V2.wrapText_in fresh_font assign_font text_width).
Local Abbreviation map_measureText := (V2.map_measureText fresh_font assign_font text_width).
Local Abbreviation place_in :=
  (V2.place_in fresh_font assign_font text_width d3_tree nodeSpacing).
Local Abbreviation map_place :=
  (V2.map_place fresh_font assign_font text_width d3_tree nodeSpacing).
Local Abbreviation layout_in :=
  (V2.layout_in fresh_font assign_font text_width d3_tree nodeSpacing padding).

(** The font [FONT] leaves in the context, and the canvas after a call of
    [measureText(text)] where there is a document. *)
Local Abbreviation font_set := (assign_font fresh_font (PStr V2.FONT)).
Local Abbreviation canvas_set :=
  {| V2.has_document := true; V2.canvas_font := Some font_set |}.

Lemma measureText_in_flag (text : string) (font : prim) (env : V2.Env) :
  V2.has_document (snd (measureText_in text font env)) = V2.has_document env.
Proof. unfold V2.measureText_in. destruct (V2.has_document env) eqn:E; simpl; [reflexivity | exact E]. Qed.

Lemma measureText_in_document (text : string) (env : V2.Env) :
  V2.has_document env = true ->
  measureText_in text (PStr V2.FONT) env = (text_width font_set text, canvas_set).
Proof.
  intros E. unfold V2.measureText_in. rewrite E. cbn [negb].
  destruct (V2.canvas_font env) as [f|]; [rewrite (font_taken f fresh_font)|]; reflexivity.
Qed.

Lemma measureText_in_no_document (text : string) (font : prim) (env : V2.Env) :
  V2.has_document env = false -> measureText_in text font env = (100%Q, env).
Proof. intros E. unfold V2.measureText_in. rewrite E. reflexivity. Qed.

Lemma wrap_fold_in_document (maxWidth : Q) (words : list string)
    (lines : list string) (line : string) (env : V2.Env) :
  V2.has_document env = true ->
  fold_left (wrap_step_in maxWidth) words (lines, line, env) =
    (fold_left (V2.wrap_step (text_width font_set) maxWidth) words (lines, line),
     match words with [] => env | _ => canvas_set end).
Proof.
  revert lines line env. induction words as [|w ws IH]; intros lines line env E; [reflexivity|].
  cbn [fold_left]. unfold V2.wrap_step_in at 2, V2.wrap_step at 2.
  rewrite (measureText_in_document _ env E).
  destruct (negb (Qle_bool _ maxWidth) && truthy (PStr line));
    rewrite IH by reflexivity; destruct ws; reflexivity.
Qed.

Lemma wrap_fold_in_no_document (maxWidth : Q) (words : list string)
    (lines : list string) (line : string) (env : V2.Env) :
  V2.has_document env = false ->
  fold_left (wrap_step_in maxWidth) words (lines, line, env) =
    (fold_left (V2.wrap_step V2.measureText_no_document maxWidth) words (lines, line), env).
Proof.
  intros E. revert lines line. induction words as [|w ws IH]; intros lines line; [reflexivity|].
  cbn [fold_left]. unfold V2.wrap_step_in at 2, V2.wrap_step at 2.
  rewrite (measureText_in_no_document _ _ env E).
  change (V2.measureText_no_document ?s) with 100%Q.
  destruct (negb (Qle_bool 100 maxWidth) && truthy (PStr line)); apply IH.
Qed.

Lemma wrapText_in_document (text : prim) (maxWidth : Q) (env : V2.Env) :
  V2.has_document env = true ->
  wrapText_in text maxWidth env = (V2.wrapText (text_width font_set) text maxWidth, canvas_set).
Proof.
  intros E. unfold V2.wrapText_in, V2.wrapText, V2.wrap_words.
  rewrite (wrap_fold_in_document _ _ _ _ env E).
  destruct (split_space_cons (String_of text)) as (w & ws & ->).
  destruct (fold_left _ (w :: ws) ([], "")) as [lines line]. reflexivity.
Qed.

Lemma wrapText_in_no_document (text : prim) (maxWidth : Q) (env : V2.Env) :
  V2.has_document env = false ->
  wrapText_in text maxWidth env =
    (V2.wrapText V2.measureText_no_document text maxWidth, env).
Proof.
  intros E. unfold V2.wrapText_in, V2.wrapText, V2.wrap_words.
  rewrite (wrap_fold_in_no_document _ _ _ _ env E).
  destruct (fold_left _ _ ([], "")) as [lines line]. reflexivity.
Qed.

Lemma map_measureText_flag (lines : list string) (index : nat) (env : V2.Env) :
  V2.has_document (snd (map_measureText lines index env)) = V2.has_document env.
Proof.
  revert index env. induction lines as [|l ls IH]; intros index env; [reflexivity|].
  cbn [V2.map_measureText].
  pose proof (measureText_in_flag l (PNum (Z.of_nat index)) env) as H.
  destruct (measureText_in l (PNum (Z.of_nat index)) env) as [w env1].
  specialize (IH (S index) env1).
  destruct (map_measureText ls (S index) env1) as [ws env2].
  cbn [snd] in *. congruence.
Qed.

Lemma map_measureText_no_document (lines : list string) (index : nat) (env : V2.Env) :
  V2.has_document env = false ->
  map_measureText lines index env = (map V2.measureText_no_document lines, env).
Proof.
  intros E. revert index. induction lines as [|l ls IH]; intros index; [reflexivity|].
  cbn [V2.map_measureText]. rewrite (measureText_in_no_document _ _ env E), IH. reflexivity.
Qed.

(** Where there is a document, a node comes out as it does on the canvas
    [measureText(text)] leaves: the canvas found makes no difference. *)
Lemma place_in_document (data : TreeNode) (X : gset prim) (n : HNode) (env : V2.Env) :
  V2.has_document env = true ->
  place_in data X n env = place_in data X n canvas_set.
Proof.
  intros E. unfold V2.place_in.
  rewrite (wrapText_in_document _ _ env E), (wrapText_in_document _ _ canvas_set eq_refl).
  reflexivity.
Qed.

(** Where there is none, it comes out as under the measure of 100, and
    the canvas is left alone. *)
Lemma place_in_no_document (data : TreeNode) (X : gset prim) (n : HNode) (env : V2.Env) :
  V2.has_document env = false ->
  place_in data X n env =
    (V2.place V2.measureText_no_document d3_tree nodeSpacing data X n, env).
Proof.
  intros E. unfold V2.place_in, V2.place.
  rewrite (wrapText_in_no_document _ _ env E), (map_measureText_no_document _ _ env E).
  rewrite map_map. reflexivity.
Qed.

Lemma place_in_flag (data : TreeNode) (X : gset prim) (n : HNode) (env : V2.Env) :
  V2.has_document (snd (place_in data X n env)) = V2.has_document env.
Proof.
  destruct (V2.has_document env) eqn:E.
  - unfold V2.place_in. rewrite (wrapText_in_document _ _ env E).
    pose proof (map_measureText_flag
                  (V2.wrapText (text_width font_set) (label (hdata n)) V2.MAX_TEXT_WIDTH)
                  0 canvas_set) as H.
    destruct (map_measureText _ 0 canvas_set) as [ws env2]. exact H.
  - rewrite (place_in_no_document _ _ _ env E). exact E.
Qed.

Lemma map_place_flag (data : TreeNode) (X : gset prim) (dn : list HNode) (env : V2.Env) :
  V2.has_document (snd (map_place data X dn env)) = V2.has_document env.
Proof.
  revert env. induction dn as [|n rest IH]; intros env; [reflexivity|].
  cbn [V2.map_place].
  pose proof (place_in_flag data X n env) as H.
  destruct (place_in data X n env) as [node env1].
  specialize (IH env1). destruct (map_place data X rest env1) as [nodes env2].
  cbn [snd] in *. congruence.
Qed.

Lemma map_place_no_document (data : TreeNode) (X : gset prim) (dn : list HNode)
    (env : V2.Env) :
  V2.has_document env = false ->
  map_place data X dn env =
    (map (V2.place V2.measureText_no_document d3_tree nodeSpacing data X) dn, env).
Proof.
  intros E. induction dn as [|n rest IH]; [reflexivity|].
  cbn [V2.map_place]. rewrite (place_in_no_document _ _ _ env E), IH. reflexivity.
Qed.

Lemma map_place_same_flag (data : TreeNode) (X : gset prim) (dn : list HNode)
    (env env' : V2.Env) :
  V2.has_document env = V2.has_document env' ->
  fst (map_place data X dn env) = fst (map_place data X dn env').
Proof.
  intros E. destruct (V2.has_document env) eqn:E1.
  - destruct dn as [|n rest]; [reflexivity|]. cbn [V2.map_place].
    rewrite (place_in_document data X n env E1), (place_in_document data X n env' (eq_sym E)).
    reflexivity.
  - rewrite (map_place_no_document _ _ _ env E1), (map_place_no_document _ _ _ env' (eq_sym E)).
    reflexivity.
Qed.

Lemma layout_in_result (visibleData : option TreeNode) (X : gset prim) (env : V2.Env) :
  fst (layout_in visibleData X env) =
    match visibleData with
    | None => Some {| V2.nodes := []; V2.links := [];
                      V2.bounds := {| V2.maxX := Fin 1200; V2.maxY := Fin 800 |} |}
    | Some data => V2.layout_from padding data (fst (map_place data X (descendants data) env))
    end /\
  V2.has_document (snd (layout_in visibleData X env)) = V2.has_document env.
Proof.
  destruct visibleData as [data|]; [|split; reflexivity].
  unfold V2.layout_in.
  pose proof (map_place_flag data X (descendants data) env) as H.
  destruct (map_place data X (descendants data) env) as [nodes env1].
  split; [reflexivity | exact H].
Qed.

(** The result does not depend on the canvas the pass finds. *)
Lemma layout_in_same_flag (visibleData : option TreeNode) (X : gset prim)
    (env env' : V2.Env) :
  V2.has_document env = V2.has_document env' ->
  fst (layout_in visibleData X env) = fst (layout_in visibleData X env').
Proof.
  intros E.
  rewrite (proj1 (layout_in_result visibleData X env)),
          (proj1 (layout_in_result visibleData X env')).
  destruct visibleData as [data|]; [|reflexivity].
  rewrite (map_place_same_flag data X _ env env' E). reflexivity.
Qed.

(** *** Against the layout under a measure *)

(** A number is no font: the canvas keeps the font it has. *)
Hypothesis number_ignored :
  forall (cur : string) (k : Z), assign_font cur (PNum k) = cur.

Lemma map_measureText_document (lines : list string) (index : nat) :
  map_measureText lines index canvas_set = (map (text_width font_set) lines, canvas_set).
Proof.
  revert index. induction lines as [|l ls IH]; intros index; [reflexivity|].
  cbn [V2.map_measureText]. unfold V2.measureText_in at 1.
  cbn [V2.has_document V2.canvas_font negb]. rewrite number_ignored, IH. reflexivity.
Qed.

Lemma place_in_measured (data : TreeNode) (X : gset prim) (n : HNode) (env : V2.Env) :
  V2.has_document env = true ->
  place_in data X n env =
    (V2.place (text_width font_set) d3_tree nodeSpacing data X n, canvas_set).
Proof.
  intros E. unfold V2.place_in, V2.place.
  rewrite (wrapText_in_document _ _ env E), map_measureText_document, map_map.
  reflexivity.
Qed.

Lemma map_place_measured (data : TreeNode) (X : gset prim) (dn : list HNode)
    (env : V2.Env) :
  V2.has_document env = true ->
  fst (map_place data X dn env) =
    map (V2.place (text_width font_set) d3_tree nodeSpacing data X) dn.
Proof.
  revert env. induction dn as [|n rest IH]; intros env E; [reflexivity|].
  cbn [V2.map_place]. rewrite (place_in_measured data X n env E).
  specialize (IH canvas_set eq_refl).
  destruct (map_place data X rest canvas_set) as [nodes env2].
  cbn [fst] in *. rewrite IH. reflexivity.
Qed.

Lemma layout_in_measured (visibleData : option TreeNode) (X : gset prim) (env : V2.Env) :
  fst (layout_in visibleData X env) =
    V2.layout (if V2.has_document env then text_width font_set
               else V2.measureText_no_document)
              d3_tree nodeSpacing padding visibleData X.
Proof.
  rewrite (proj1 (layout_in_result visibleData X env)).
  destruct visibleData as [data|]; [|reflexivity].
  destruct (V2.has_document env) eqn:E.
  - rewrite (map_place_measured data X _ env E). reflexivity.
  - rewrite (map_place_no_document data X _ env E). reflexivity.
Qed.

End CanvasFacts.

Lemma layout_in_d3_ext (fresh_font : string) (assign_font : string -> prim -> string)
    (text_width : string -> string -> Q)
    (d1 d2 : Q -> Q -> TreeNode -> list nat -> Q * Q)
    (sp : NodeSpacing) (padding : Q) (visibleData : option TreeNode) (X : gset prim)
    (env : V2.Env) :
  (forall dx dy t p, d1 dx dy t p = d2 dx dy t p) ->
  V2.layout_in fresh_font assign_font text_width d1 sp padding visibleData X env =
  V2.layout_in fresh_font assign_font text_width d2 sp padding visibleData X env.
Proof.
  intros Ed. destruct visibleData as [data|]; [|reflexivity].
  unfold V2.layout_in.
  assert (E : forall dn e,
             V2.map_place fresh_font assign_font text_width d1 sp data X dn e =
             V2.map_place fresh_font assign_font text_width d2 sp data X dn e).
  { induction dn as [|n rest IH]; intros e; [reflexivity|].
    cbn [V2.map_place]. unfold V2.place_in. rewrite Ed.
    destruct (V2.wrapText_in _ _ _ _ _ e) as [lines e1].
    destruct (V2.map_measureText _ _ _ lines 0 e1) as [ws e2].
    rewrite IH. reflexivity. }
  rewrite E. reflexivity.
Qed.

(** The canvas found does matter to a single measurement: under a font
    that is a number the width is that of the font the canvas held. *)
Example measureText_in_reads_the_canvas :
  fst (V2.measureText_in "10px sans-serif" sample_assign_font sample_text_width
         "ab" (PNum 0) {| V2.has_document := true; V2.canvas_font := None |}) = 30%Q /\
  fst (V2.measureText_in "10px sans-serif" sample_assign_font sample_text_width
         "ab" (PNum 0)
         {| V2.has_document := true; V2.canvas_font := Some "italic 40px serif" |}) = 34%Q.
Proof. split; reflexivity. Qed.

(** C10. Two layout passes over the same visible tree, the same
    expandable ids and the same configuration return the same result:
    the same nodes with the same positions and box sizes, the same edges,
    the same bounds.  The second variant measures text on a canvas it
    keeps between the passes and whose font it assigns; provided the
    canvas takes [FONT] as a font, the result does not depend on the
    canvas a pass finds (none yet, or one left with any font), so a pass
    run on the canvas the previous pass left returns what that pass
    returned.  The first variant measures nothing and reads its arguments
    only.  The widths the canvas reports for a font and a text, and the
    coordinates of the tidy tree, are those of the platform and of
    d3-hierarchy. *)
Theorem layout_is_deterministic
    (fresh_font : string) (assign_font : string -> prim -> string)
    (text_width : string -> string -> Q)
    (d1 d2 : Q -> Q -> TreeNode -> list nat -> Q * Q)
    (nodeSpacing : NodeSpacing) (padding nodeRadius nodeLabelGap : Q)
    (visibleData : option TreeNode) (X1 X2 : gset prim) :
  (forall cur cur', assign_font cur (PStr V2.FONT) = assign_font cur' (PStr V2.FONT)) ->
  (forall dx dy t p, d1 dx dy t p = d2 dx dy t p) ->
  (forall i, i ∈ X1 <-> i ∈ X2) ->
  (forall env env',
     V2.has_document env = V2.has_document env' ->
     fst (V2.layout_in fresh_font assign_font text_width d1 nodeSpacing padding
                       visibleData X1 env) =
     fst (V2.layout_in fresh_font assign_font text_width d2 nodeSpacing padding
                       visibleData X2 env')) /\
  (forall env,
     let first := V2.layout_in fresh_font assign_font text_width d1 nodeSpacing padding
                               visibleData X1 env in
     fst (V2.layout_in fresh_font assign_font text_width d2 nodeSpacing padding
                       visibleData X2 (snd first)) = fst first) /\
  V1.layout d1 nodeSpacing padding nodeRadius nodeLabelGap visibleData X1 =
  V1.layout d2 nodeSpacing padding nodeRadius nodeLabelGap visibleData X2.
Proof.
  intros Hfont Ed EX.
  assert (X1 = X2) as <- by (apply set_eq; exact EX).
  assert (Hsame : forall env env',
            V2.has_document env = V2.has_document env' ->
            fst (V2.layout_in fresh_font assign_font text_width d1 nodeSpacing padding
                              visibleData X1 env) =
            fst (V2.layout_in fresh_font assign_font text_width d2 nodeSpacing padding
                              visibleData X1 env')).
  { intros env env' E.
    rewrite <- (layout_in_d3_ext fresh_font assign_font text_width d1 d2 _ _ _ _ env' Ed).
    apply layout_in_same_flag; assumption. }
  split; [exact Hsame|]. split.
  - intros env first. symmetry. apply Hsame. symmetry.
    exact (proj2 (layout_in_result fresh_font assign_font text_width d1 nodeSpacing padding
                    Hfont visibleData X1 env)).
  - destruct visibleData as [data|]; [|reflexivity].
    unfold V1.layout.
    rewrite (map_ext (V1.place d1 nodeSpacing data X1) (V1.place d2 nodeSpacing data X1));
      [reflexivity|].
    intros h. apply V1_place_ext. exact Ed.
Qed.

Lemma layout_is_deterministic_witness :
  fst (V2.layout_in "10px sans-serif" sample_assign_font sample_text_width Tidy.tidy
                    spacing2 80 (Some tall_tree) {[ PStr "r" ]}
                    {| V2.has_document := true; V2.canvas_font := None |}) =
  fst (V2.layout_in "10px sans-serif" sample_assign_font sample_text_width Tidy.tidy
                    spacing2 80 (Some tall_tree) {[ PStr "r" ]}
                    {| V2.has_document := true; V2.canvas_font := Some "italic 40px serif" |}).
Proof.
  refine (proj1 (layout_is_deterministic "10px sans-serif" sample_assign_font
                   sample_text_width Tidy.tidy Tidy.tidy spacing2 80 7 14 (Some tall_tree)
                   {[ PStr "r" ]} {[ PStr "r" ]} _ _ _)
                {| V2.has_document := true; V2.canvas_font := None |}
                {| V2.has_document := true; V2.canvas_font := Some "italic 40px serif" |}
                eq_refl).
  - intros cur cur'. reflexivity.
  - intros dx dy t p. reflexivity.
  - intros i. reflexivity.
Defined.

(** ** The edges *)

Lemma Forall2_impl_in {A B : Type} (P R : A -> B -> Prop) (l : list A) (k : list B) :
  Forall2 P l k ->
  (forall x y, In x l -> P x y -> R x y) ->
  Forall2 R l k.
Proof.
  induction 1 as [|x y l k Hxy _ IH]; intros Himp; constructor.
  - apply Himp; [left; reflexivity | exact Hxy].
  - apply IH. intros x' y' Hx'. apply Himp. right. exact Hx'.
Qed.

Lemma V1_scan_mins (nodeRadius nodeLabelGap : Q) (ns : list V1.PositionedNode)
    (minX maxX minY maxY : num) :
  ns <> [] ->
  (forall n, In n ns -> wf1 n) ->
  V1.scan_all nodeRadius nodeLabelGap ns = (minX, maxX, minY, maxY) ->
  exists mx my, minX = Fin mx /\ minY = Fin my.
Proof.
  intros Hne Hwf Hscan. unfold V1.scan_all in Hscan.
  rewrite V1_scan_split in Hscan. injection Hscan as EminX _ EminY _.
  destruct (fold_nmin_from_inf V1.pn_x ns Hne) as (mx & Emx & _).
  { intros n Hn. apply (Hwf n Hn). }
  destruct (fold_nmin_from_inf V1.box_top ns Hne) as (my & Emy & _).
  { intros n Hn. destruct (wf1_inv n (Hwf n Hn)) as (x & y & h & w & Ex & Ey & Eh & Ew).
    unfold V1.box_top, fin. rewrite Ey, Eh. reflexivity. }
  exists mx, my. split; congruence.
Qed.

Lemma V2_scan_mins (ns : list V2.PositionedNode) (minX minY maxX maxY : num) :
  ns <> [] ->
  (forall n, In n ns -> wf2 n) ->
  V2.scan_all ns = (minX, minY, maxX, maxY) ->
  exists mx my, minX = Fin mx /\ minY = Fin my.
Proof.
  intros Hne Hwf Hscan. unfold V2.scan_all in Hscan.
  rewrite V2_scan_split in Hscan. injection Hscan as EminX EminY _ _.
  destruct (fold_nmin_from_inf V2.pn_x ns Hne) as (mx & Emx & _).
  { intros n Hn. apply (Hwf n Hn). }
  destruct (fold_nmin_from_inf V2.box_top ns Hne) as (my & Emy & _).
  { intros n Hn. destruct (wf2_inv n (Hwf n Hn)) as (x & y & h & Ex & Ey & Eh & _).
    unfold V2.box_top, fin. rewrite Ey, Eh. reflexivity. }
  exists mx, my. split; congruence.
Qed.

Lemma V1_byId_lookup (d3_tree : Q -> Q -> TreeNode -> list nat -> Q * Q)
    (sp : NodeSpacing) (data : TreeNode) (X : gset prim) (sx sy : num) (h : HNode) :
  distinct_ids data ->
  In h (descendants data) ->
  V1.byId_of (map (V1.shift sx sy) (map (V1.place d3_tree sp data X) (descendants data)))
    !! id (hdata h) = Some (V1.shift sx sy (V1.place d3_tree sp data X h)).
Proof.
  intros Hnd Hh.
  change (V1.byId_of ?ns) with (index_by V1.pn_id ns).
  apply (index_by_lookup_unique V1.pn_id _ (V1.shift sx sy (V1.place d3_tree sp data X h))).
  - apply in_map, in_map. exact Hh.
  - intros n' Hn' E. apply in_map_iff in Hn' as (n0 & <- & Hn0).
    apply in_map_iff in Hn0 as (h' & <- & Hh').
    rewrite (NoDup_map_inj (fun h => id (hdata h)) _ h' h Hnd Hh' Hh E). reflexivity.
Qed.

Lemma V2_byId_lookup (measureText : string -> Q)
    (d3_tree : Q -> Q -> TreeNode -> list nat -> Q * Q)
    (sp : NodeSpacing) (data : TreeNode) (X : gset prim) (sx sy : num) (h : HNode) :
  distinct_ids data ->
  In h (descendants data) ->
  V2.byId_of (map (V2.shift sx sy)
                  (map (V2.place measureText d3_tree sp data X) (descendants data)))
    !! id (hdata h) = Some (V2.shift sx sy (V2.place measureText d3_tree sp data X h)).
Proof.
  intros Hnd Hh.
  change (V2.byId_of ?ns) with (index_by V2.pn_id ns).
  apply (index_by_lookup_unique V2.pn_id _
           (V2.shift sx sy (V2.place measureText d3_tree sp data X h))).
  - apply in_map, in_map. exact Hh.
  - intros n' Hn' E. apply in_map_iff in Hn' as (n0 & <- & Hn0).
    apply in_map_iff in Hn0 as (h' & <- & Hh').
    rewrite (NoDup_map_inj (fun h => id (hdata h)) _ h' h Hnd Hh' Hh E). reflexivity.
Qed.

Lemma V1_edges (d3_tree : Q -> Q -> TreeNode -> list nat -> Q * Q)
    (sp : NodeSpacing) (padding nodeRadius nodeLabelGap : Q)
    (data : TreeNode) (X : gset prim) :
  distinct_ids data ->
  exists L,
    V1.layout d3_tree sp padding nodeRadius nodeLabelGap (Some data) X = Some L /\
    Forall2 (fun lk l =>
               exists s t, In s (V1.nodes L) /\ In t (V1.nodes L) /\
                           V1.pn_id s = id (hdata (fst lk)) /\
                           V1.pn_id t = id (hdata (snd lk)) /\
                           attached1 nodeRadius nodeLabelGap s t l)
            (hlinks data) (V1.links L).
Proof.
  intros Hnd.
  destruct (V1.scan_all nodeRadius nodeLabelGap
              (map (V1.place d3_tree sp data X) (descendants data)))
    as [[[minX maxX] minY] maxY] eqn:Hscan.
  destruct (V1_layout_shape d3_tree sp padding nodeRadius nodeLabelGap
              data X _ _ _ _ Hscan) as (lks & Hlks & HL).
  destruct (V1_scan_mins nodeRadius nodeLabelGap _ _ _ _ _
              (V1_descendants_nonempty d3_tree sp data X)
              (fun n Hn => ltac:(apply in_map_iff in Hn as (h & <- & _);
                                 apply V1_place_wf))
              Hscan) as (mx & my & -> & ->).
  eexists. split; [exact HL|]. cbn [V1.nodes V1.links].
  apply mapM_Some_1 in Hlks.
  eapply Forall2_impl_in; [exact Hlks|].
  intros [h c] l Hin Hmk. apply hlinks_in_descendants in Hin as [Hh Hc].
  cbn [fst snd] in *. unfold V1.mkLink in Hmk. cbn [fst snd] in Hmk.
  rewrite (V1_byId_lookup d3_tree sp data X _ _ h Hnd Hh) in Hmk.
  rewrite (V1_byId_lookup d3_tree sp data X _ _ c Hnd Hc) in Hmk.
  injection Hmk as <-.
  eexists _, _. split; [apply in_map, in_map; exact Hh|].
  split; [apply in_map, in_map; exact Hc|].
  split; [reflexivity|]. split; [reflexivity|].
  unfold attached1, V1.box_left, V1.box_right, V1.box_top, V1.box_bottom, V1.LABEL_X.
  simpl. repeat split; first [lra | field].
Qed.

Lemma V2_edges (measureText : string -> Q)
    (d3_tree : Q -> Q -> TreeNode -> list nat -> Q * Q)
    (sp : NodeSpacing) (padding : Q) (data : TreeNode) (X : gset prim) :
  distinct_ids data ->
  exists L,
    V2.layout measureText d3_tree sp padding (Some data) X = Some L /\
    Forall2 (fun lk l =>
               exists s t, In s (V2.nodes L) /\ In t (V2.nodes L) /\
                           V2.pn_id s = id (hdata (fst lk)) /\
                           V2.pn_id t = id (hdata (snd lk)) /\
                           attached2 s t l)
            (hlinks data) (V2.links L).
Proof.
  intros Hnd.
  destruct (V2.scan_all (map (V2.place measureText d3_tree sp data X) (descendants data)))
    as [[[minX minY] maxX] maxY] eqn:Hscan.
  destruct (V2_layout_shape measureText d3_tree sp padding data X _ _ _ _ Hscan)
    as (lks & Hlks & HL).
  destruct (V2_scan_mins _ _ _ _ _
              (V2_descendants_nonempty measureText d3_tree sp data X)
              (fun n Hn => ltac:(apply in_map_iff in Hn as (h & <- & _);
                                 apply V2_place_wf))
              Hscan) as (mx & my & -> & ->).
  eexists. split; [exact HL|]. cbn [V2.nodes V2.links].
  apply mapM_Some_1 in Hlks.
  eapply Forall2_impl_in; [exact Hlks|].
  intros [h c] l Hin Hmk. apply hlinks_in_descendants in Hin as [Hh Hc].
  cbn [fst snd] in *. unfold V2.mkLink in Hmk. cbn [fst snd] in Hmk.
  rewrite (V2_byId_lookup measureText d3_tree sp data X _ _ h Hnd Hh) in Hmk.
  rewrite (V2_byId_lookup measureText d3_tree sp data X _ _ c Hnd Hc) in Hmk.
  injection Hmk as <-.
  eexists _, _. split; [apply in_map, in_map; exact Hh|].
  split; [apply in_map, in_map; exact Hc|].
  split; [reflexivity|]. split; [reflexivity|].
  unfold attached2, V2.box_left, V2.box_right, V2.box_top, V2.box_bottom,
    V2.CONNECTOR_RADIUS, V2.CONNECTOR_OVERLAP.
  simpl. repeat split; first [reflexivity | lra | field].
Qed.

(** C4, as the code has it. When the ids of the visible nodes are pairwise
    distinct, every edge of the first variant runs from the middle of the
    trailing edge of the parent's box to the middle of the leading edge of
    the child's box, each moved by the connector radius; every edge of the
    second variant runs from the anchor of the parent, the connector radius
    before the leading edge of its box, to the middle of the leading edge
    of the child's box. *)
Theorem edges_attach_to_the_boxes
    (measureText : string -> Q)
    (d3_tree : Q -> Q -> TreeNode -> list nat -> Q * Q)
    (nodeSpacing : NodeSpacing) (padding nodeRadius nodeLabelGap : Q)
    (data : TreeNode) (expandableIds : gset prim) :
  distinct_ids data ->
  (exists L,
     V1.layout d3_tree nodeSpacing padding nodeRadius nodeLabelGap
               (Some data) expandableIds = Some L /\
     Forall2 (fun lk l =>
                exists s t, In s (V1.nodes L) /\ In t (V1.nodes L) /\
                            V1.pn_id s = id (hdata (fst lk)) /\
                            V1.pn_id t = id (hdata (snd lk)) /\
                            attached1 nodeRadius nodeLabelGap s t l)
             (hlinks data) (V1.links L)) /\
  (exists L,
     V2.layout measureText d3_tree nodeSpacing padding (Some data) expandableIds = Some L /\
     Forall2 (fun lk l =>
                exists s t, In s (V2.nodes L) /\ In t (V2.nodes L) /\
                            V2.pn_id s = id (hdata (fst lk)) /\
                            V2.pn_id t = id (hdata (snd lk)) /\
                            attached2 s t l)
             (hlinks data) (V2.links L)).
Proof.
  intros Hnd. split.
  - apply V1_edges. exact Hnd.
  - apply V2_edges. exact Hnd.
Qed.

Lemma scenario_A_distinct_ids : distinct_ids scenario_A_tree.
Proof.
  unfold distinct_ids.
  apply (bool_decide_unpack (NoDup (map (fun h => id (hdata h)) (descendants scenario_A_tree)))).
  vm_compute. exact I.
Qed.

Lemma edges_attach_to_the_boxes_witness :
  exists L,
    V1.layout Tidy.tidy spacing1 60 7 14 (Some scenario_A_tree) {[ PStr "r" ]} = Some L /\
    Forall2 (fun lk l =>
               exists s t, In s (V1.nodes L) /\ In t (V1.nodes L) /\
                           V1.pn_id s = id (hdata (fst lk)) /\
                           V1.pn_id t = id (hdata (snd lk)) /\
                           attached1 7 14 s t l)
            (hlinks scenario_A_tree) (V1.links L).
Proof.
  apply (edges_attach_to_the_boxes measure10 Tidy.tidy spacing1 60 7 14
           scenario_A_tree {[ PStr "r" ]}).
  apply scenario_A_distinct_ids.
Defined.

(** C4 as stated fails in the second variant: on the tree of scenario A
    with the root expanded, the edge to the first child starts at the
    anchor of the root, abscissa 80, while the trailing edge of the root's
    box is at 173. *)
Lemma edge_source_is_the_anchor :
  exists L l s,
    V2.layout measure10 Tidy.tidy spacing2 80 (Some scenario_A_tree) {[ PStr "r" ]} = Some L /\
    V2.links L !! 0%nat = Some l /\
    V2.nodes L !! 0%nat = Some s /\
    V2.pn_id s = PStr "r" /\
    l_id l = "r-a" /\
    px (source l) = Fin 80 /\
    V2.box_right s = Fin 173 /\
    ~ num_eq (px (source l)) (V2.box_right s) /\
    ~ num_eq (px (source l)) (V2.box_right s + Fin V2.CONNECTOR_RADIUS)%num /\
    ~ num_eq (px (source l)) (V2.box_right s - Fin V2.CONNECTOR_RADIUS)%num.
Proof.
  eexists _, _, _. split; [vm_compute; reflexivity|].
  split; [reflexivity|]. split; [reflexivity|].
  split; [reflexivity|]. split; [reflexivity|].
  split; [reflexivity|]. split; [reflexivity|].
  repeat split; intros H; vm_compute in H; discriminate H.
Qed.

(** ** The tidy-tree positioning *)

Lemma inject_nat_add (a b : nat) :
  (inject_Z (Z.of_nat (a + b)) == inject_Z (Z.of_nat a) + inject_Z (Z.of_nat b))%Q.
Proof. rewrite Nat2Z.inj_add, inject_Z_plus. reflexivity. Qed.

Lemma inject_nat_le (a b : nat) :
  (a <= b)%nat -> (inject_Z (Z.of_nat a) <= inject_Z (Z.of_nat b))%Q.
Proof. intros H. rewrite <- Zle_Qle. lia. Qed.

Lemma inject_nat_nonneg (a : nat) : (0 <= inject_Z (Z.of_nat a))%Q.
Proof. apply (inject_nat_le 0 a). lia. Qed.

Lemma extent_pos (t : TreeNode) : (1 <= Tidy.extent t)%nat.
Proof. destruct t as [i l cs]. simpl. lia. Qed.

Lemma median_bounds (lo hi : Q) (ps : list Q) :
  ps <> [] ->
  Forall (fun p => (lo <= p <= hi)%Q) ps ->
  (lo <= Tidy.median ps <= hi)%Q.
Proof.
  intros Hne Hall.
  assert (Hlen : (0 < length ps)%nat) by (destruct ps; [congruence | simpl; lia]).
  assert (Hnth : forall k, (k < length ps)%nat -> (lo <= nth k ps 0 <= hi)%Q).
  { intros k Hk. rewrite List.Forall_forall in Hall. apply Hall. apply nth_In. exact Hk. }
  assert (Hhalf : (Nat.div2 (length ps) < length ps)%nat)
    by (apply Nat.lt_div2; exact Hlen).
  unfold Tidy.median. destruct (Nat.even (length ps)).
  - pose proof (Hnth (Nat.div2 (length ps) - 1)%nat ltac:(lia)) as H1.
    pose proof (Hnth (Nat.div2 (length ps)) Hhalf) as H2.
    revert H1 H2.
    generalize (nth (Nat.div2 (length ps) - 1) ps 0%Q) as u.
    generalize (nth (Nat.div2 (length ps)) ps 0%Q) as v.
    intros v u [H1 H1'] [H2 H2']. split.
    + apply Qle_shift_div_l; lra.
    + apply Qle_shift_div_r; lra.
  - apply Hnth. exact Hhalf.
Qed.

Lemma positions_bounds (cs : list TreeNode) :
  Forall (fun c => forall lo,
            (lo <= Tidy.order c lo <= lo + inject_Z (Z.of_nat (Tidy.extent c)) - 1)%Q) cs ->
  forall lo,
    Forall (fun p =>
              (lo <= p <= lo + inject_Z (Z.of_nat (list_sum (map Tidy.extent cs))) - 1)%Q)
           (Tidy.positions Tidy.order cs lo).
Proof.
  induction 1 as [|c rest Hc _ IH]; intros lo; [constructor|].
  cbn [Tidy.positions map list_sum].
  pose proof (inject_nat_add (Tidy.extent c) (list_sum (map Tidy.extent rest))) as Hadd.
  pose proof (inject_nat_nonneg (list_sum (map Tidy.extent rest))) as Hrest.
  pose proof (inject_nat_le 1 (Tidy.extent c) (extent_pos c)) as Hone.
  change (inject_Z (Z.of_nat 1)) with 1%Q in Hone.
  constructor.
  - specialize (Hc lo). rewrite Hadd. lra.
  - eapply Forall_impl; [apply (IH (lo + inject_Z (Z.of_nat (Tidy.extent c)))%Q)|].
    intros p Hp. cbv beta in Hp. rewrite Hadd. lra.
Qed.

Lemma order_bounds (t : TreeNode) (lo : Q) :
  (lo <= Tidy.order t lo <= lo + inject_Z (Z.of_nat (Tidy.extent t)) - 1)%Q.
Proof.
  revert lo. induction t as [i l cs IH] using TreeNode_ind'. intros lo.
  destruct cs as [|c rest].
  - simpl. change (inject_Z (Z.of_nat 1)) with 1%Q. lra.
  - change (Tidy.order (Node i l (c :: rest)) lo)
      with (Tidy.median (Tidy.positions Tidy.order (c :: rest) lo)).
    change (Tidy.extent (Node i l (c :: rest)))
      with (Nat.max 1 (list_sum (map Tidy.extent (c :: rest)))).
    pose proof (inject_nat_le (list_sum (map Tidy.extent (c :: rest)))
                  (Nat.max 1 (list_sum (map Tidy.extent (c :: rest)))) ltac:(lia)) as Hmax.
    destruct (median_bounds lo
                (lo + inject_Z (Z.of_nat (list_sum (map Tidy.extent (c :: rest)))) - 1)
                (Tidy.positions Tidy.order (c :: rest) lo)) as [H1 H2].
    + discriminate.
    + apply positions_bounds. exact IH.
    + split; lra.
Qed.

Lemma sum_take_mono (cs : list TreeNode) (i j : nat) (ci : TreeNode) :
  (i < j)%nat ->
  cs !! i = Some ci ->
  (list_sum (map Tidy.extent (take i cs)) + Tidy.extent ci <=
   list_sum (map Tidy.extent (take j cs)))%nat.
Proof.
  revert i j. induction cs as [|c rest IH]; intros i j Hij Hi; [discriminate|].
  destruct j as [|j]; [lia|]. destruct i as [|i]; simpl in *.
  - injection Hi as ->. lia.
  - specialize (IH i j ltac:(lia) Hi). lia.
Qed.

Lemma order_child_gap (cs : list TreeNode) (lo : Q) (i j : nat) (ci cj : TreeNode) :
  (i < j)%nat ->
  cs !! i = Some ci ->
  cs !! j = Some cj ->
  (Tidy.order ci (Tidy.slot cs lo i) + 1 <= Tidy.order cj (Tidy.slot cs lo j))%Q.
Proof.
  intros Hij Hi Hj.
  pose proof (order_bounds ci (Tidy.slot cs lo i)) as [_ Hup].
  pose proof (order_bounds cj (Tidy.slot cs lo j)) as [Hlow _].
  pose proof (inject_nat_le _ _ (sum_take_mono cs i j ci Hij Hi)) as Hsum.
  rewrite inject_nat_add in Hsum.
  unfold Tidy.slot in *. lra.
Qed.

Lemma order_at_gap (p : list nat) (t : TreeNode) (lo : Q) (i j : nat) :
  (i < j)%nat ->
  is_Some (node_at t (p ++ [j])) ->
  (Tidy.order_at t lo (p ++ [i]) + 1 <= Tidy.order_at t lo (p ++ [j]))%Q.
Proof.
  revert t lo. induction p as [|k p IH]; intros t lo Hij [n Hn]; simpl in *.
  - destruct (children t !! j) as [cj|] eqn:Hj; [|discriminate].
    destruct (children t !! i) as [ci|] eqn:Hi.
    + eapply order_child_gap; eassumption.
    + apply lookup_ge_None in Hi. apply lookup_lt_Some in Hj. lia.
  - destruct (children t !! k) as [c|] eqn:Hk; [|discriminate].
    apply IH; [exact Hij | eauto].
Qed.

(** The modelled routine keeps siblings a node size apart. *)
Lemma tidy_sibling_gap : sibling_gap Tidy.tidy.
Proof.
  intros dx dy data p i j Hdx Hij Hsome. unfold Tidy.tidy. cbn [fst].
  pose proof (order_at_gap p data 0 i j Hij Hsome) as Hgap.
  nra.
Qed.

(** ** Sibling boxes *)

Lemma half_nonneg (h : Q) : (0 <= h)%Q -> (0 <= h / 2)%Q.
Proof. intros H. apply Qle_shift_div_l; lra. Qed.

Lemma V2_place_boxH (measureText : string -> Q)
    (d3_tree : Q -> Q -> TreeNode -> list nat -> Q * Q) (sp : NodeSpacing)
    (data : TreeNode) (X : gset prim) (h : HNode) :
  exists hq, V2.pn_boxH (V2.place measureText d3_tree sp data X h) = Fin hq /\ (0 <= hq)%Q.
Proof.
  eexists. split; [reflexivity|].
  pose proof (inject_nat_nonneg
                (length (V2.wrapText measureText (label (hdata h)) V2.MAX_TEXT_WIDTH))) as H.
  unfold V2.LINE_HEIGHT, V2.PADDING_Y. nra.
Qed.

Lemma siblings_gap_cases (d3_tree : Q -> Q -> TreeNode -> list nat -> Q * Q)
    (dx dy : Q) (data : TreeNode) (ha hb : HNode) :
  sibling_gap d3_tree ->
  (0 <= dx)%Q ->
  In ha (descendants data) -> In hb (descendants data) -> siblings ha hb ->
  (fst (d3_tree dx dy data (hpath ha)) + dx <= fst (d3_tree dx dy data (hpath hb)))%Q \/
  (fst (d3_tree dx dy data (hpath hb)) + dx <= fst (d3_tree dx dy data (hpath ha)))%Q.
Proof.
  intros Hgap Hdx Ha Hb (p & i & j & Hij & Epa & Epb).
  apply descendants_spec in Ha as [_ Hna]. apply descendants_spec in Hb as [_ Hnb].
  rewrite Epa in *. rewrite Epb in *.
  destruct (Nat.lt_total i j) as [Hlt|[Heq|Hgt]]; [|congruence|].
  - left. apply Hgap; [exact Hdx | exact Hlt | eauto].
  - right. apply Hgap; [exact Hdx | exact Hgt | eauto].
Qed.

(** C3, as the code has it. The tidy tree keeps the anchors of two
    siblings at least [nodeSpacing.y] apart, whatever their boxes hold, so
    the vertical spans of two distinct siblings are disjoint when half the
    sum of their box heights is below [nodeSpacing.y]: in the first
    variant, where every box is 44 high, when [nodeSpacing.y] is above 44;
    in the second, where the height grows with the wrapped lines, when the
    two half heights together stay below [nodeSpacing.y]. *)
Theorem sibling_boxes_are_apart
    (measureText : string -> Q)
    (d3_tree : Q -> Q -> TreeNode -> list nat -> Q * Q)
    (nodeSpacing : NodeSpacing) (padding nodeRadius nodeLabelGap : Q)
    (data : TreeNode) (expandableIds : gset prim) :
  sibling_gap d3_tree ->
  (exists L sx sy,
     V1.layout d3_tree nodeSpacing padding nodeRadius nodeLabelGap
               (Some data) expandableIds = Some L /\
     V1.nodes L =
       map (fun h => V1.shift sx sy (V1.place d3_tree nodeSpacing data expandableIds h))
           (descendants data) /\
     forall ha hb,
       In ha (descendants data) -> In hb (descendants data) -> siblings ha hb ->
       (44 < spacing_y nodeSpacing)%Q ->
       let a := V1.shift sx sy (V1.place d3_tree nodeSpacing data expandableIds ha) in
       let b := V1.shift sx sy (V1.place d3_tree nodeSpacing data expandableIds hb) in
       spans_disjoint (V1.box_top a) (V1.box_bottom a) (V1.box_top b) (V1.box_bottom b)) /\
  (exists L sx sy,
     V2.layout measureText d3_tree nodeSpacing padding (Some data) expandableIds = Some L /\
     V2.nodes L =
       map (fun h => V2.shift sx sy
                       (V2.place measureText d3_tree nodeSpacing data expandableIds h))
           (descendants data) /\
     forall ha hb,
       In ha (descendants data) -> In hb (descendants data) -> siblings ha hb ->
       let a := V2.shift sx sy
                  (V2.place measureText d3_tree nodeSpacing data expandableIds ha) in
       let b := V2.shift sx sy
                  (V2.place measureText d3_tree nodeSpacing data expandableIds hb) in
       num_lt (nhalf (V2.pn_boxH a) + nhalf (V2.pn_boxH b))%num
              (Fin (spacing_y nodeSpacing)) ->
       spans_disjoint (V2.box_top a) (V2.box_bottom a) (V2.box_top b) (V2.box_bottom b)).
Proof.
  intros Hgap. split.
  - destruct (V1.scan_all nodeRadius nodeLabelGap
                (map (V1.place d3_tree nodeSpacing data expandableIds) (descendants data)))
      as [[[minX maxX] minY] maxY] eqn:Hscan.
    destruct (V1_layout_shape d3_tree nodeSpacing padding nodeRadius nodeLabelGap
                data expandableIds _ _ _ _ Hscan) as (lks & _ & HL).
    destruct (V1_scan_mins nodeRadius nodeLabelGap _ _ _ _ _
                (V1_descendants_nonempty d3_tree nodeSpacing data expandableIds)
                (fun n Hn => ltac:(apply in_map_iff in Hn as (h & <- & _);
                                   apply V1_place_wf))
                Hscan) as (mx & my & -> & ->).
    eexists _, (Fin padding - Fin mx)%num, (Fin padding - Fin my)%num.
    split; [exact HL|]. split; [cbn [V1.nodes]; apply map_map|].
    intros ha hb Ha Hb Hsib Hwide a b.
    assert (Hdx : (0 <= spacing_y nodeSpacing)%Q) by lra.
    assert (Hhalf : ((34 + 10) / 2 == 22)%Q) by reflexivity.
    unfold spans_disjoint. subst a b.
    unfold V1.box_top, V1.box_bottom. simpl.
    destruct (siblings_gap_cases d3_tree (spacing_y nodeSpacing) (spacing_x nodeSpacing)
                data ha hb Hgap Hdx Ha Hb Hsib) as [H|H]; [left | right]; lra.
  - destruct (V2.scan_all (map (V2.place measureText d3_tree nodeSpacing data expandableIds)
                               (descendants data)))
      as [[[minX minY] maxX] maxY] eqn:Hscan.
    destruct (V2_layout_shape measureText d3_tree nodeSpacing padding
                data expandableIds _ _ _ _ Hscan) as (lks & _ & HL).
    destruct (V2_scan_mins _ _ _ _ _
                (V2_descendants_nonempty measureText d3_tree nodeSpacing data expandableIds)
                (fun n Hn => ltac:(apply in_map_iff in Hn as (h & <- & _);
                                   apply V2_place_wf))
                Hscan) as (mx & my & -> & ->).
    eexists _, (Fin padding - Fin mx)%num, (Fin padding - Fin my)%num.
    split; [exact HL|]. split; [cbn [V2.nodes]; apply map_map|].
    intros ha hb Ha Hb Hsib a b. subst a b.
    destruct (V2_place_boxH measureText d3_tree nodeSpacing data expandableIds ha)
      as (hA & EA & HA).
    destruct (V2_place_boxH measureText d3_tree nodeSpacing data expandableIds hb)
      as (hB & EB & HB).
    unfold spans_disjoint, V2.box_top, V2.box_bottom.
    cbn [V2.shift V2.pn_y V2.pn_boxH]. rewrite EA, EB.
    cbn [V2.place V2.pn_y]. simpl. intros Hlt.
    pose proof (half_nonneg hA HA) as HA2. pose proof (half_nonneg hB HB) as HB2.
    assert (Hdx : (0 <= spacing_y nodeSpacing)%Q) by lra.
    destruct (siblings_gap_cases d3_tree (spacing_y nodeSpacing) (spacing_x nodeSpacing)
                data ha hb Hgap Hdx Ha Hb Hsib) as [H|H]; [left | right]; lra.
Qed.

Lemma sibling_boxes_are_apart_witness :
  exists L sx sy,
    V1.layout Tidy.tidy spacing1 60 7 14 (Some scenario_A_tree) {[ PStr "r" ]} = Some L /\
    V1.nodes L =
      map (fun h => V1.shift sx sy (V1.place Tidy.tidy spacing1 scenario_A_tree
                                             {[ PStr "r" ]} h))
          (descendants scenario_A_tree) /\
    forall ha hb,
      In ha (descendants scenario_A_tree) -> In hb (descendants scenario_A_tree) ->
      siblings ha hb ->
      (44 < spacing_y spacing1)%Q ->
      let a := V1.shift sx sy (V1.place Tidy.tidy spacing1 scenario_A_tree {[ PStr "r" ]} ha) in
      let b := V1.shift sx sy (V1.place Tidy.tidy spacing1 scenario_A_tree {[ PStr "r" ]} hb) in
      spans_disjoint (V1.box_top a) (V1.box_bottom a) (V1.box_top b) (V1.box_bottom b).
Proof.
  apply (sibling_boxes_are_apart measure10 Tidy.tidy spacing1 60 7 14
           scenario_A_tree {[ PStr "r" ]}).
  apply tidy_sibling_gap.
Defined.

(** C3 as stated fails.  In the second variant with its default spacing,
    two sibling labels of six lines give boxes 156 high on anchors 140
    apart, and their spans overlap.  In the first variant a sibling spacing
    of 40 puts the boxes of 44 on anchors 40 apart. *)
Lemma sibling_boxes_can_overlap :
  (exists L r a b,
     V2.layout measure10 Tidy.tidy spacing2 80
               (Some (V2.buildVisibleTree tall_tree {[ PStr "r" ]})) {[ PStr "r" ]} = Some L /\
     V2.nodes L = [r; a; b] /\
     V2.pn_id a = PStr "a" /\ V2.pn_id b = PStr "b" /\
     V2.pn_depth a = 1%nat /\ V2.pn_depth b = 1%nat /\
     length (V2.pn_lines a) = 6%nat /\
     num_eq (V2.pn_boxH a) (Fin 156) /\
     num_lt (V2.box_top b) (V2.box_bottom a) /\
     num_lt (V2.box_top a) (V2.box_bottom b) /\
     ~ spans_disjoint (V2.box_top a) (V2.box_bottom a) (V2.box_top b) (V2.box_bottom b)) /\
  (exists L r a b,
     V1.layout Tidy.tidy {| spacing_x := 360; spacing_y := 40 |} 60 7 14
               (Some (V1.buildVisibleTree scenario_A_tree {[ PStr "r" ]}))
               {[ PStr "r" ]} = Some L /\
     V1.nodes L = [r; a; b] /\
     V1.pn_id a = PStr "a" /\ V1.pn_id b = PStr "b" /\
     V1.pn_depth a = 1%nat /\ V1.pn_depth b = 1%nat /\
     num_lt (V1.box_top b) (V1.box_bottom a) /\
     num_lt (V1.box_top a) (V1.box_bottom b) /\
     ~ spans_disjoint (V1.box_top a) (V1.box_bottom a) (V1.box_top b) (V1.box_bottom b)).
Proof.
  split.
  - eexists _, _, _, _. split; [vm_compute; reflexivity|].
    split; [reflexivity|].
    repeat (split; [vm_compute; reflexivity|]).
    intros [H|H]; vm_compute in H; discriminate H.
  - eexists _, _, _, _. split; [vm_compute; reflexivity|].
    split; [reflexivity|].
    repeat (split; [vm_compute; reflexivity|]).
    intros [H|H]; vm_compute in H; discriminate H.
Qed.

(** ** Scenarios of the specification *)

(** Scenario A: three nodes, the children labelled by their ids. *)
Example scenario_A_normalized :
  V1.normalizeTree scenario_A = Some scenario_A_tree /\
  V2.normalizeTree scenario_A = Some scenario_A_tree /\
  V2.collectExpandableIds scenario_A_tree ∅ = {[ PStr "r" ]}.
Proof.
  split; [reflexivity|]. split; [reflexivity|].
  apply set_eq. intros i. cbn. set_solver.
Qed.

(** Scenario B: toggling the root shows its two children. *)
Example scenario_B_toggle :
  V2.buildVisibleTree scenario_A_tree ∅ = Node (PStr "r") (PStr "Root") [] /\
  V2.buildVisibleTree scenario_A_tree (V2.toggle {[ PStr "r" ]} (PStr "r") ∅) =
    scenario_A_tree.
Proof. split; vm_compute; reflexivity. Qed.

(** Scenario D: a single node gives one positioned node and no edge. *)
Example scenario_D_single_node :
  exists L,
    V2.layout measure10 Tidy.tidy spacing2 80
              (Some (Node (PStr "r") (PStr "Root") [])) ∅ = Some L /\
    length (V2.nodes L) = 1%nat /\ V2.links L = [].
Proof. eexists. split; [vm_compute; reflexivity|]. split; reflexivity. Qed.

(** The empty label has no line, so [Math.max()] of no width makes its box
    [-Infinity] wide. *)
Example empty_label_box_width :
  exists L n,
    V2.layout measure10 Tidy.tidy spacing2 80 (Some (Node (PStr "r") (PStr "") [])) ∅ = Some L /\
    V2.nodes L = [n] /\ V2.pn_lines n = [] /\ V2.pn_boxW n = NegInf.
Proof. eexists _, _. split; [vm_compute; reflexivity|]. repeat split. Qed.

(* ===================================================================== *)
(** * Further properties of the code *)
(* ===================================================================== *)

(** ** The expandable ids *)

Lemma collect_variants_agree (t : TreeNode) (set : gset prim) :
  V1.collectExpandableIds t set = V2.collectExpandableIds t set.
Proof.
  revert set. induction t as [i l cs IH] using TreeNode_ind'. intros set. simpl.
  generalize (if negb (length cs =? 0)%nat then {[i]} ∪ set else set). clear set.
  induction IH as [|c cs Hc _ IHcs]; intros set; [reflexivity|].
  simpl. rewrite Hc. apply IHcs.
Qed.

Lemma subtrees_self (t : TreeNode) : In t (subtrees t).
Proof. destruct t. left. reflexivity. Qed.

Lemma subtrees_child (t c n : TreeNode) :
  In c (children t) -> In n (subtrees c) -> In n (subtrees t).
Proof.
  destruct t as [i l cs]. simpl. intros Hc Hn. right. apply in_flat_map. eauto.
Qed.

Lemma subtrees_inv (t n : TreeNode) :
  In n (subtrees t) -> n = t \/ exists c, In c (children t) /\ In n (subtrees c).
Proof.
  destruct t as [i l cs]. simpl. intros [<-|H]; [left; reflexivity|].
  right. apply in_flat_map in H. exact H.
Qed.

Lemma collect_fold (i : prim) (cs : list TreeNode) (set : gset prim) :
  Forall (fun c => forall set,
            i ∈ V2.collectExpandableIds c set <-> i ∈ set \/ parent_with_id c i) cs ->
  i ∈ fold_left (fun set c => V2.collectExpandableIds c set) cs set <->
  i ∈ set \/ exists c, In c cs /\ parent_with_id c i.
Proof.
  intros Hall. revert set. induction Hall as [|c cs Hc _ IH]; intros set; simpl.
  - split; [auto | intros [H|(c & [] & _)]; exact H].
  - rewrite IH, Hc. split.
    + intros [[H|H]|(c' & Hc' & H)]; eauto 6.
    + intros [H|(c' & [<-|Hc'] & H)]; eauto 6.
Qed.

Lemma collect_spec (t : TreeNode) (set : gset prim) (i : prim) :
  i ∈ V2.collectExpandableIds t set <-> i ∈ set \/ parent_with_id t i.
Proof.
  revert set. induction t as [j l cs IH] using TreeNode_ind'. intros set.
  cbn [V2.collectExpandableIds]. rewrite (collect_fold i cs _ IH).
  unfold parent_with_id. split.
  - intros [H|(c & Hc & n & Hn & Hk & Hi)].
    + destruct cs as [|c cs]; simpl in H; [left; exact H|].
      apply elem_of_union in H as [H|H]; [|left; exact H].
      apply elem_of_singleton in H. right.
      exists (Node j l (c :: cs)). split; [left; reflexivity|].
      split; [discriminate | symmetry; exact H].
    + right. exists n. split; [|auto].
      eapply subtrees_child; [exact Hc | exact Hn].
  - intros [H|(n & Hn & Hk & Hi)].
    + left. destruct (negb (length cs =? 0)%nat); [set_solver | exact H].
    + apply subtrees_inv in Hn as [->|(c & Hc & Hn)].
      * left. simpl in Hk, Hi. destruct cs as [|c cs]; [congruence|]. simpl. set_solver.
      * right. exists c. split; [exact Hc|]. exists n. auto.
Qed.

(** X1. [collectExpandableIds] adds to the set exactly the ids of the nodes
    that have at least one child, and removes nothing, in both variants. *)
Theorem expandable_ids_are_the_parents (t : TreeNode) (set : gset prim) (i : prim) :
  (i ∈ V1.collectExpandableIds t set <-> i ∈ set \/ parent_with_id t i) /\
  (i ∈ V2.collectExpandableIds t set <-> i ∈ set \/ parent_with_id t i).
Proof.
  rewrite collect_variants_agree. split; apply collect_spec.
Qed.

(** ** The expanded state *)

Lemma toggle_twice (X : gset prim) (i : prim) (prev : gset prim) :
  V2.toggle X i (V2.toggle X i prev) = prev.
Proof.
  unfold V2.toggle. destruct (bool_decide (i ∈ X)); simpl; [|reflexivity].
  destruct (bool_decide (i ∈ prev)) eqn:E.
  - apply bool_decide_eq_true_1 in E.
    rewrite bool_decide_eq_false_2 by set_solver.
    apply set_eq. intros x. destruct (decide (x = i)); set_solver.
  - apply bool_decide_eq_false_1 in E.
    rewrite bool_decide_eq_true_2 by set_solver.
    apply set_eq. intros x. destruct (decide (x = i)); set_solver.
Qed.

(** X2. Toggling the same id twice restores the expanded set, in both
    variants; in the first the two [onNodeExpand] calls of an expandable id
    report opposite states, the first of them the state entered. *)
Theorem toggle_twice_restores (expandableIds : gset prim) (i : prim) (prev : gset prim) :
  V2.toggle expandableIds i (V2.toggle expandableIds i prev) = prev /\
  fst (V1.toggle expandableIds i (fst (V1.toggle expandableIds i prev))) = prev /\
  (i ∈ expandableIds ->
   snd (V1.toggle expandableIds i prev) = [(i, negb (bool_decide (i ∈ prev)))] /\
   snd (V1.toggle expandableIds i (fst (V1.toggle expandableIds i prev))) =
     [(i, bool_decide (i ∈ prev))]).
Proof.
  split; [apply toggle_twice|]. split.
  - rewrite !toggle_variants_agree. apply toggle_twice.
  - intros Hi. unfold V1.toggle. rewrite (bool_decide_eq_true_2 _ Hi). simpl.
    split; [reflexivity|].
    destruct (bool_decide (i ∈ prev)) eqn:E; simpl.
    + rewrite bool_decide_eq_false_2 by set_solver. reflexivity.
    + rewrite bool_decide_eq_true_2 by set_solver. reflexivity.
Qed.

Lemma toggle_keeps_subset (X : gset prim) (i : prim) (prev : gset prim) :
  prev ⊆ X -> V2.toggle X i prev ⊆ X.
Proof.
  intros Hsub. unfold V2.toggle. destruct (bool_decide (i ∈ X)) eqn:E; simpl; [|exact Hsub].
  apply bool_decide_eq_true_1 in E.
  destruct (bool_decide (i ∈ prev)); set_solver.
Qed.

Lemma after_toggles_subset (X : gset prim) (clicks : list prim) (init : gset prim) :
  init ⊆ X -> fold_left (fun prev i => V2.toggle X i prev) clicks init ⊆ X.
Proof.
  revert init. induction clicks as [|i clicks IH]; intros init Hsub; [exact Hsub|].
  simpl. apply IH. apply toggle_keeps_subset. exact Hsub.
Qed.

(** X3. From the initial empty set, whatever ids [toggle] is called with,
    the expanded set holds expandable ids only: each of them is the id of
    a node of the canonical tree that has a child. *)
Theorem expanded_ids_are_expandable (t : TreeNode) (clicks : list prim) (i : prim) :
  i ∈ after_toggles (V2.collectExpandableIds t ∅) clicks ->
  i ∈ V1.collectExpandableIds t ∅ /\ i ∈ V2.collectExpandableIds t ∅ /\
  parent_with_id t i.
Proof.
  intros Hi.
  assert (H : i ∈ V2.collectExpandableIds t ∅).
  { revert Hi. apply after_toggles_subset. set_solver. }
  rewrite collect_variants_agree. split; [exact H|]. split; [exact H|].
  apply collect_spec in H as [H|H]; [set_solver | exact H].
Qed.

Lemma expanded_ids_are_expandable_witness :
  parent_with_id scenario_A_tree (PStr "r").
Proof.
  apply (expanded_ids_are_expandable scenario_A_tree [PStr "a"; PStr "r"] (PStr "r")).
  vm_compute. reflexivity.
Defined.

(** ** The normalizer, further *)

Lemma walk_root (reject : jsval -> bool) (keep : option TreeNode -> option TreeNode)
    (node : jsval) (a : nat) :
  reject node = false ->
  exists t a',
    walk_gen reject keep node a = (Some t, a') /\
    id t = (if nullish (prop_id node) then PStr (auto_id a) else prop_id node) /\
    label t = coalesce (prop_label node)
                       (coalesce (prop_name node) (PStr (String_of (id t)))).
Proof.
  intros Hr. rewrite walk_gen_eq, Hr.
  destruct (nullish (prop_id node)).
  - destruct (match node with RObject _ _ _ (Some cs) => _ | _ => _ end) as [m a2].
    eexists _, _. split; [reflexivity|]. split; reflexivity.
  - destruct (match node with RObject _ _ _ (Some cs) => _ | _ => _ end) as [m a2].
    eexists _, _. split; [reflexivity|]. split; reflexivity.
Qed.

Lemma reject1_object_like (node : jsval) : reject1 node = negb (object_like node).
Proof. destruct node as [[| |b|n|s]| |i l n cs]; try reflexivity; unfold reject1; simpl;
  rewrite ?orb_true_r; reflexivity. Qed.

Lemma normalize_of_object (input : jsval) :
  object_like input = true ->
  exists t1 t2,
    V1.normalizeTree input = Some t1 /\ V2.normalizeTree input = Some t2 /\
    id t1 = (if nullish (prop_id input) then PStr "auto_0" else prop_id input) /\
    id t2 = id t1 /\
    label t1 = coalesce (prop_label input)
                        (coalesce (prop_name input) (PStr (String_of (id t1)))) /\
    label t2 = label t1.
Proof.
  intros H.
  assert (R1 : reject1 input = false) by (rewrite reject1_object_like, H; reflexivity).
  assert (R2 : reject2 input = false) by (destruct input; [discriminate | reflexivity..]).
  destruct (walk_root reject1 V1.keep input 0 R1) as (t1 & a1 & E1 & Hi1 & Hl1).
  destruct (walk_root reject2 V2.keep input 0 R2) as (t2 & a2 & E2 & Hi2 & Hl2).
  exists t1, t2. unfold V1.normalizeTree, V2.normalizeTree.
  rewrite V1_walk_gen, V2_walk_gen, E1, E2.
  change (negb (raw_truthy input) || negb (typeof_object input)) with (reject1 input).
  rewrite R1. cbn [fst].
  split; [reflexivity|]. split; [reflexivity|]. split; [exact Hi1|].
  split; [congruence|]. split; [exact Hl1|]. rewrite Hl1, Hl2, Hi1, Hi2. reflexivity.
Qed.

Lemma normalize_of_scalar (input : jsval) :
  object_like input = false ->
  V1.normalizeTree input = None /\ V2.normalizeTree input = None.
Proof.
  intros H. unfold V1.normalizeTree, V2.normalizeTree.
  change (negb (raw_truthy input) || negb (typeof_object input)) with (reject1 input).
  rewrite reject1_object_like, H. split; reflexivity.
Qed.

(** X4. [normalizeTree] returns [null] exactly for the inputs that are
    neither an object nor an array, in both variants.  For the others the
    root keeps the id the input supplies, or gets [auto_0] when that id is
    null or undefined, and its label is the first of [label], [name] and
    [String(id)] that is set. *)
Theorem normalize_rejects_only_non_objects (input : jsval) :
  (V1.normalizeTree input = None <-> object_like input = false) /\
  (V2.normalizeTree input = None <-> object_like input = false) /\
  (object_like input = true ->
   exists t1 t2,
     V1.normalizeTree input = Some t1 /\ V2.normalizeTree input = Some t2 /\
     id t1 = (if nullish (prop_id input) then PStr "auto_0" else prop_id input) /\
     id t2 = id t1 /\
     label t1 = coalesce (prop_label input)
                         (coalesce (prop_name input) (PStr (String_of (id t1)))) /\
     label t2 = label t1).
Proof.
  pose proof (normalize_of_object input) as Hobj.
  pose proof (normalize_of_scalar input) as Hnot.
  split; [|split; [|exact Hobj]].
  - split; [|intros H; apply Hnot; exact H].
    intros E. destruct (object_like input) eqn:H; [|reflexivity].
    destruct (Hobj eq_refl) as (t1 & t2 & E1 & _). congruence.
  - split; [|intros H; apply Hnot; exact H].
    intros E. destruct (object_like input) eqn:H; [|reflexivity].
    destruct (Hobj eq_refl) as (t1 & t2 & _ & E2 & _). congruence.
Qed.

Lemma coalesce_set (a b : prim) : nullish b = false -> nullish (coalesce a b) = false.
Proof. intros H. unfold coalesce. destruct (nullish a) eqn:E; [exact H | exact E]. Qed.

Section WalkSet.

Variable reject : jsval -> bool.
Variable keep : option TreeNode -> option TreeNode.
Hypothesis keep_sub : forall c n, keep c = Some n -> c = Some n.

Lemma walk_all_set_node (node : jsval) :
  Forall (fun c => forall a t a', walk_gen reject keep c a = (Some t, a') -> all_set t = true)
         (entries node) ->
  forall a t a', walk_gen reject keep node a = (Some t, a') -> all_set t = true.
Proof.
  intros Hcs a t a' E. rewrite walk_entries in E.
  destruct (reject node); [discriminate|].
  assert (Hgoal : forall a1 mapped a2 i l,
             nullish i = false -> nullish l = false ->
             map_state (walk_gen reject keep) (entries node) a1 = (mapped, a2) ->
             all_set (Node i l (omap keep mapped)) = true).
  { intros a1 mapped a2 i l Hi Hl Em. simpl. rewrite Hi, Hl. simpl.
    apply forallb_forall. intros n Hn.
    apply list_elem_of_In, list_elem_of_omap in Hn as (r & Hr & Hk).
    apply keep_sub in Hk. subst r. apply list_elem_of_In in Hr.
    destruct (map_state_results _ _ _ _ _ _ Em Hr) as (c & b1 & b2 & Hc & Ec).
    rewrite Forall_forall in Hcs. apply (Hcs c (proj2 (list_elem_of_In _ _) Hc) _ _ _ Ec). }
  destruct (nullish (prop_id node)) eqn:Hid.
  - destruct (map_state _ _ (S a)) as [mapped a2] eqn:Em.
    injection E as <- _. eapply Hgoal; [reflexivity | | exact Em].
    apply coalesce_set, coalesce_set. reflexivity.
  - destruct (map_state _ _ a) as [mapped a2] eqn:Em.
    injection E as <- _. eapply Hgoal; [exact Hid | | exact Em].
    apply coalesce_set, coalesce_set. reflexivity.
Qed.

Lemma walk_all_set (node : jsval) (a a' : nat) (t : TreeNode) :
  walk_gen reject keep node a = (Some t, a') -> all_set t = true.
Proof.
  revert a t a'. induction node as [v| |i l n|i l n cs IH] using jsval_ind';
    apply walk_all_set_node; simpl; try constructor.
  exact IH.
Qed.

End WalkSet.

(** X5. In the tree [normalizeTree] returns, every node has an id and a
    label that are neither null nor undefined, in both variants. *)
Theorem normalized_ids_and_labels_are_set (input : jsval) (t : TreeNode) :
  V1.normalizeTree input = Some t \/ V2.normalizeTree input = Some t ->
  all_set t = true.
Proof.
  intros [H|H].
  - apply V1_normalize_walk in H as [a' H]. rewrite V1_walk_gen in H.
    eapply (walk_all_set reject1 V1.keep V1_keep_sub). exact H.
  - apply V2_normalize_walk in H as [a' H]. rewrite V2_walk_gen in H.
    eapply (walk_all_set reject2 V2.keep V2_keep_sub). exact H.
Qed.

Lemma normalized_ids_and_labels_are_set_witness : all_set colliding_tree = true.
Proof.
  apply (normalized_ids_and_labels_are_set colliding_input colliding_tree).
  left. reflexivity.
Defined.

(** *** The counter *)

Section WalkCounter.

Variable reject : jsval -> bool.
Variable keep : option TreeNode -> option TreeNode.
Hypothesis keep_sub : forall c n, keep c = Some n -> c = Some n.
Hypothesis keep_truthy : forall n, truthy (id n) = true -> keep (Some n) = Some n.

Local Abbreviation counted := (counted reject keep).

Lemma keep_None : keep None = None.
Proof. destruct (keep None) as [n|] eqn:E; [|reflexivity]. apply keep_sub in E. discriminate. Qed.

Lemma autos_app (a b c : nat) :
  (a <= b)%nat -> (b <= c)%nat -> autos a b ++ autos b c = autos a c.
Proof.
  intros H1 H2. unfold autos. rewrite <- List.map_app. f_equal.
  replace (c - a)%nat with ((b - a) + (c - b))%nat by lia.
  rewrite seq_app. do 2 f_equal. lia.
Qed.

Lemma counted_list (cs : list jsval) :
  Forall counted cs ->
  flat_map supplied_ids cs = [] ->
  forall a mapped a', map_state (walk_gen reject keep) cs a = (mapped, a') ->
    (a <= a')%nat /\ flat_map tree_ids (omap keep mapped) = autos a a'.
Proof.
  induction 1 as [|c rest Hc _ IH]; intros Hnil a mapped a' E; simpl in E.
  - injection E as <- <-. split; [lia|]. unfold autos. rewrite Nat.sub_diag. reflexivity.
  - simpl in Hnil. apply app_eq_nil in Hnil as [Hnil1 Hnil2].
    destruct (walk_gen reject keep c a) as [r a1] eqn:Ec.
    destruct (map_state (walk_gen reject keep) rest a1) as [rs a2] eqn:Er.
    injection E as <- <-.
    destruct (Hc Hnil1 _ _ _ Ec) as [Hle1 Hr].
    destruct (IH Hnil2 _ _ _ Er) as [Hle2 Hrs].
    split; [lia|]. cbn [omap list_omap].
    destruct r as [t|].
    + destruct Hr as [Hids Hid]. rewrite keep_truthy by (rewrite Hid; reflexivity).
      cbn [flat_map]. rewrite Hids, Hrs. apply autos_app; assumption.
    + subst a1. rewrite keep_None. exact Hrs.
Qed.

Lemma counted_node (node : jsval) : Forall counted (entries node) -> counted node.
Proof.
  intros Hcs Hnil a r a' E. rewrite supplied_ids_eq in Hnil.
  apply app_eq_nil in Hnil as [Hid Hnil].
  rewrite walk_entries in E. destruct (reject node).
  { injection E as <- <-. split; [lia | reflexivity]. }
  destruct (nullish (prop_id node)); [|discriminate].
  destruct (map_state (walk_gen reject keep) (entries node) (S a)) as [mapped a2] eqn:Em.
  injection E as <- <-.
  destruct (counted_list _ Hcs Hnil _ _ _ Em) as [Hle Hids].
  split; [lia|]. split; [|reflexivity].
  cbn [tree_ids]. rewrite Hids. unfold autos.
  replace (a2 - a)%nat with (S (a2 - S a)) by lia. reflexivity.
Qed.

Lemma counted_all (node : jsval) : counted node.
Proof.
  induction node as [v| |i l n|i l n cs IH] using jsval_ind';
    apply counted_node; simpl; try constructor.
  exact IH.
Qed.

End WalkCounter.

Lemma V1_keep_truthy (n : TreeNode) : truthy (id n) = true -> V1.keep (Some n) = Some n.
Proof. intros H. simpl. rewrite H. reflexivity. Qed.

Lemma V2_keep_truthy (n : TreeNode) : truthy (id n) = true -> V2.keep (Some n) = Some n.
Proof. reflexivity. Qed.

(** X6. When the input supplies no id at all, the ids of the normalized
    tree are [auto_0], [auto_1], ... in document order: parents before
    children, siblings in input order, without a gap. *)
Theorem auto_ids_count_in_document_order (input : jsval) (t : TreeNode) :
  supplied_ids input = [] ->
  V1.normalizeTree input = Some t \/ V2.normalizeTree input = Some t ->
  tree_ids t = map (fun k => PStr (auto_id k)) (seq 0 (length (tree_ids t))).
Proof.
  intros Hnil H.
  assert (E : exists a', tree_ids t = autos 0 a').
  { destruct H as [H|H].
    - apply V1_normalize_walk in H as [a' H]. rewrite V1_walk_gen in H.
      destruct (counted_all reject1 V1.keep V1_keep_sub V1_keep_truthy input Hnil _ _ _ H)
        as [_ [Hids _]]. eauto.
    - apply V2_normalize_walk in H as [a' H]. rewrite V2_walk_gen in H.
      destruct (counted_all reject2 V2.keep V2_keep_sub V2_keep_truthy input Hnil _ _ _ H)
        as [_ [Hids _]]. eauto. }
  destruct E as [a' E]. rewrite E at 2. unfold autos in *.
  rewrite length_map, length_seq. exact E.
Qed.

Lemma auto_ids_count_in_document_order_witness :
  tree_ids (Node (PStr "auto_0") (PStr "Root")
                 [Node (PStr "auto_1") (PStr "x") [Node (PStr "auto_2") (PStr "auto_2") []];
                  Node (PStr "auto_3") (PStr "y") []]) =
  map (fun k => PStr (auto_id k)) (seq 0 4).
Proof.
  apply (auto_ids_count_in_document_order
           (RObject PUndefined (PStr "Root") PUndefined
              (Some [RObject PNull PUndefined (PStr "x")
                             (Some [RObject PUndefined PUndefined PUndefined None]);
                     RPrim (PNum 0);
                     RObject PUndefined (PStr "y") PUndefined None]))).
  - reflexivity.
  - right. reflexivity.
Defined.

(** *** Normalizing twice *)

Lemma all_set_inv (i l : prim) (cs : list TreeNode) :
  all_set (Node i l cs) = true ->
  nullish i = false /\ nullish l = false /\ Forall (fun c => all_set c = true) cs.
Proof.
  simpl. intros H. apply andb_prop in H as [H Hcs]. apply andb_prop in H as [Hi Hl].
  apply negb_true_iff in Hi, Hl. split; [exact Hi|]. split; [exact Hl|].
  apply Forall_forall. intros c Hc. apply list_elem_of_In in Hc.
  rewrite forallb_forall in Hcs. apply Hcs. exact Hc.
Qed.

Lemma map_state_cons {A B : Type} (f : A -> nat -> B * nat) (c : A) (rest : list A)
    (a : nat) :
  map_state f (c :: rest) a =
    let '(r, a1) := f c a in
    let '(rs, a2) := map_state f rest a1 in
    (r :: rs, a2).
Proof. reflexivity. Qed.

Lemma omap_cons {A B : Type} (f : A -> option B) (x : A) (l : list A) :
  omap f (x :: l) =
    match f x with
    | Some y => y :: omap f l
    | None => omap f l
    end.
Proof. reflexivity. Qed.

Lemma walk_to_input (reject : jsval -> bool) (keep : option TreeNode -> option TreeNode)
    (ok : TreeNode -> bool) :
  (forall t, reject (to_input t) = false) ->
  (forall c, ok c = true -> keep (Some c) = Some c) ->
  forall t,
    all_set t = true ->
    (forall n c, In n (subtrees t) -> In c (children n) -> ok c = true) ->
    forall a, walk_gen reject keep (to_input t) a = (Some t, a).
Proof.
  intros Hrej Hkeep. induction t as [i l cs IH] using TreeNode_ind'.
  intros Hset Hok a. apply all_set_inv in Hset as (Hi & Hl & Hcs).
  rewrite walk_gen_eq. rewrite Hrej.
  change (to_input (Node i l cs)) with (RObject i l PUndefined (Some (map to_input cs))).
  cbn [prop_id prop_label prop_name]. rewrite Hi.
  assert (Hl' : coalesce l (coalesce PUndefined (PStr (String_of i))) = l).
  { unfold coalesce at 1. rewrite Hl. reflexivity. }
  assert (Hmap : map_state (walk_gen reject keep) (map to_input cs) a =
                 (map Some cs, a) /\ omap keep (map Some cs) = cs).
  { assert (Hsub : forall c, In c cs -> ok c = true /\
                      forall n c', In n (subtrees c) -> In c' (children n) -> ok c' = true).
    { intros c Hc. split.
      - apply (Hok (Node i l cs) c); [left; reflexivity | exact Hc].
      - intros n c' Hn Hc'. apply (Hok n c'); [|exact Hc'].
        apply (subtrees_child (Node i l cs) c n); assumption. }
    clear Hok. induction cs as [|c cs IHcs]; [split; reflexivity|].
    apply Forall_cons in IH as [IHc IH]. apply Forall_cons in Hcs as [Hc Hcs].
    destruct (Hsub c (or_introl eq_refl)) as [Hokc Hokc'].
    destruct (IHcs IH Hcs) as [E1 E2].
    { intros c' Hc'. apply Hsub. right. exact Hc'. }
    split.
    - cbn [map]. rewrite map_state_cons, (IHc Hc Hokc' a), E1. reflexivity.
    - cbn [map]. rewrite omap_cons, (Hkeep c Hokc), E2. reflexivity. }
  destruct Hmap as [E1 E2]. rewrite E1. cbv zeta. rewrite Hl', E2. reflexivity.
Qed.

Lemma clean_subtrees (t : TreeNode) :
  clean t = true ->
  forall n c, In n (subtrees t) -> In c (children n) -> truthy (id c) = true.
Proof.
  induction t as [i l cs IH] using TreeNode_ind'. intros Hclean n c Hn Hc.
  simpl in Hclean. rewrite forallb_forall in Hclean.
  apply subtrees_inv in Hn as [->|(c0 & Hc0 & Hn)].
  - simpl in Hc. apply Hclean in Hc. apply andb_prop in Hc as [Hc _]. exact Hc.
  - simpl in Hc0. rewrite Forall_forall in IH.
    apply (IH c0 (proj2 (list_elem_of_In _ _) Hc0)) with (n := n); [|exact Hn | exact Hc].
    apply Hclean in Hc0. apply andb_prop in Hc0 as [_ Hc0]. exact Hc0.
Qed.

(** X7. [normalizeTree] is idempotent: given back the tree it returned, as
    the object [{id, label, children}], it returns that same tree, without
    synthesizing an id. *)
Theorem normalize_is_idempotent (input : jsval) (t : TreeNode) :
  (V1.normalizeTree input = Some t -> V1.normalizeTree (to_input t) = Some t) /\
  (V2.normalizeTree input = Some t ->
   V2.normalizeTree (to_input t) = Some t /\ V2.walk (to_input t) 0 = (Some t, 0%nat)).
Proof.
  split.
  - intros H.
    assert (Hset : all_set t = true).
    { apply V1_normalize_walk in H as [a' H]. rewrite V1_walk_gen in H.
      eapply (walk_all_set reject1 V1.keep V1_keep_sub). exact H. }
    apply V1_normalize_clean in H.
    unfold V1.normalizeTree. rewrite V1_walk_gen.
    rewrite (walk_to_input reject1 V1.keep (fun c => truthy (id c))).
    + destruct t; reflexivity.
    + intros [i l cs]. reflexivity.
    + intros c Hc. apply V1_keep_truthy. exact Hc.
    + exact Hset.
    + apply clean_subtrees. exact H.
  - intros H.
    assert (Hset : all_set t = true).
    { apply V2_normalize_walk in H as [a' H]. rewrite V2_walk_gen in H.
      eapply (walk_all_set reject2 V2.keep V2_keep_sub). exact H. }
    unfold V2.normalizeTree. rewrite V2_walk_gen.
    rewrite (walk_to_input reject2 V2.keep (fun _ => true)).
    + destruct t; split; reflexivity.
    + intros [i l cs]. reflexivity.
    + reflexivity.
    + exact Hset.
    + reflexivity.
Qed.

(** ** The visibility reducer, further *)

Lemma map_id_self {A : Type} (f : A -> A) (l : list A) :
  map f l = l <-> Forall (fun x => f x = x) l.
Proof.
  induction l as [|x l IH]; simpl.
  - split; [constructor | reflexivity].
  - split.
    + intros [= Hx Hl]. constructor; [exact Hx | apply IH; exact Hl].
    + intros H. apply Forall_cons in H as [Hx Hl]. rewrite Hx. f_equal. apply IH. exact Hl.
Qed.

Lemma parents_of_node (i l : prim) (cs : list TreeNode) (j : prim) :
  parent_with_id (Node i l cs) j <->
  (cs <> [] /\ i = j) \/ exists c, In c cs /\ parent_with_id c j.
Proof.
  unfold parent_with_id. split.
  - intros (n & Hn & Hk & Hj). apply subtrees_inv in Hn as [->|(c & Hc & Hn)].
    + left. auto.
    + right. exists c. split; [exact Hc|]. exists n. auto.
  - intros [[Hk Hj]|(c & Hc & n & Hn & Hk & Hj)].
    + exists (Node i l cs). split; [left; reflexivity | auto].
    + exists n. split; [|auto]. eapply subtrees_child; [exact Hc | exact Hn].
Qed.

Lemma V2_build_fixed (t : TreeNode) (expanded : gset prim) :
  V2.buildVisibleTree t expanded = t <-> forall i, parent_with_id t i -> i ∈ expanded.
Proof.
  induction t as [i l cs IH] using TreeNode_ind'.
  cbn [V2.buildVisibleTree]. split.
  - intros E j Hj. apply parents_of_node in Hj.
    destruct (bool_decide (i ∈ expanded)) eqn:Hi; simpl in E.
    + injection E as E. apply map_id_self in E.
      destruct Hj as [[_ <-]|(c & Hc & Hj)]; [apply bool_decide_eq_true_1 in Hi; exact Hi|].
      apply list_elem_of_In in Hc.
      rewrite Forall_forall in IH, E. apply (IH c Hc); [apply E; exact Hc | exact Hj].
    + injection E as <-. destruct Hj as [[Hk _]|(c & [] & _)]. congruence.
  - intros Hall. destruct cs as [|c0 cs'].
    + destruct (bool_decide (i ∈ expanded)); reflexivity.
    + rewrite bool_decide_eq_true_2.
      2:{ apply Hall. apply parents_of_node. left. split; [discriminate | reflexivity]. }
      simpl negb. cbv iota. f_equal. apply map_id_self.
      rewrite Forall_forall in IH. apply Forall_forall. intros c Hc.
      apply IH; [exact Hc|]. intros j Hj. apply Hall. apply parents_of_node.
      right. exists c. split; [apply list_elem_of_In; exact Hc | exact Hj].
Qed.

(** X8. [buildVisibleTree] returns the tree unchanged exactly when every
    expandable id is expanded; in the first variant on the trees whose
    nodes below the root have truthy ids, as those of [normalizeTree]
    have. *)
Theorem full_expansion_shows_the_tree (t : TreeNode) (expanded : gset prim) :
  (V2.buildVisibleTree t expanded = t <-> V2.collectExpandableIds t ∅ ⊆ expanded) /\
  (clean t = true ->
   (V1.buildVisibleTree t expanded = t <-> V1.collectExpandableIds t ∅ ⊆ expanded)).
Proof.
  assert (H : V2.buildVisibleTree t expanded = t <->
              V2.collectExpandableIds t ∅ ⊆ expanded).
  { rewrite V2_build_fixed. split.
    - intros Hall i Hi. apply collect_spec in Hi as [Hi|Hi]; [set_solver | auto].
    - intros Hsub i Hi. apply Hsub. apply collect_spec. right. exact Hi. }
  split; [exact H|].
  intros Hclean. rewrite (build_variants_agree t expanded Hclean), collect_variants_agree.
  exact H.
Qed.

Lemma full_expansion_shows_the_tree_witness :
  V1.buildVisibleTree scenario_A_tree {[ PStr "r"; PStr "z" ]} = scenario_A_tree <->
  V1.collectExpandableIds scenario_A_tree ∅ ⊆ {[ PStr "r"; PStr "z" ]}.
Proof.
  apply (full_expansion_shows_the_tree scenario_A_tree {[ PStr "r"; PStr "z" ]}).
  reflexivity.
Defined.

Lemma in_map_kids (f : TreeNode -> TreeNode) (cs : list TreeNode) (x : TreeNode) :
  In x (V1.map_kids f cs) <-> exists c, In c cs /\ truthy (id c) = true /\ x = f c.
Proof.
  unfold V1.map_kids. rewrite <- list_elem_of_In, list_elem_of_omap. split.
  - intros (c & Hc & E). apply list_elem_of_In in Hc.
    destruct (truthy (id c)) eqn:Ht; [|discriminate]. injection E as <-. eauto.
  - intros (c & Hc & Ht & ->). exists c. split; [apply list_elem_of_In; exact Hc|].
    rewrite Ht. reflexivity.
Qed.

Lemma V1_build_ids (t : TreeNode) (expanded : gset prim) :
  tree_ids (V1.buildVisibleTree t expanded) =
    id t ::
    (if bool_decide (id t ∈ expanded)
     then flat_map tree_ids (V1.map_kids (fun c => V1.buildVisibleTree c expanded) (children t))
     else []).
Proof.
  destruct t as [i l cs]. cbn [V1.buildVisibleTree id children].
  destruct (length (filter (fun c => truthy (id c) = true) cs) =? 0)%nat eqn:Hk.
  - apply Nat.eqb_eq, length_zero_iff_nil in Hk.
    assert (E : V1.map_kids (fun c => V1.buildVisibleTree c expanded) cs = []).
    { destruct (V1.map_kids _ cs) as [|x xs] eqn:E; [reflexivity|].
      assert (Hx : In x (V1.map_kids (fun c => V1.buildVisibleTree c expanded) cs))
        by (rewrite E; left; reflexivity).
      apply in_map_kids in Hx as (c & Hc & Ht & _).
      assert (Hin : c ∈ filter (fun c => truthy (id c) = true) cs).
      { apply list_elem_of_filter. split; [exact Ht | apply list_elem_of_In; exact Hc]. }
      rewrite Hk in Hin. inversion Hin. }
    rewrite E. destruct (bool_decide (i ∈ expanded)); reflexivity.
  - destruct (bool_decide (i ∈ expanded)); reflexivity.
Qed.

Lemma V2_build_ids (t : TreeNode) (expanded : gset prim) :
  tree_ids (V2.buildVisibleTree t expanded) =
    id t ::
    (if bool_decide (id t ∈ expanded)
     then flat_map tree_ids (map (fun c => V2.buildVisibleTree c expanded) (children t))
     else []).
Proof.
  destruct t as [i l cs]. cbn [V2.buildVisibleTree id children].
  destruct (bool_decide (i ∈ expanded)); reflexivity.
Qed.

(** X9. Expanding more never hides a node: every id of the visible tree
    under an expanded set is an id of the visible tree under any larger
    set, in both variants. *)
Theorem visible_tree_grows_with_expanded (t : TreeNode) (expanded expanded' : gset prim)
    (i : prim) :
  expanded ⊆ expanded' ->
  (In i (tree_ids (V1.buildVisibleTree t expanded)) ->
   In i (tree_ids (V1.buildVisibleTree t expanded'))) /\
  (In i (tree_ids (V2.buildVisibleTree t expanded)) ->
   In i (tree_ids (V2.buildVisibleTree t expanded'))).
Proof.
  intros Hsub. induction t as [j l cs IH] using TreeNode_ind'.
  rewrite !V1_build_ids, !V2_build_ids. cbn [id children]. split.
  - intros [H|H]; [left; exact H|]. right.
    destruct (bool_decide (j ∈ expanded)) eqn:Hj; [|destruct H].
    apply bool_decide_eq_true_1 in Hj.
    rewrite bool_decide_eq_true_2 by (apply Hsub; exact Hj).
    apply in_flat_map in H as (x & Hx & Hi). apply in_map_kids in Hx as (c & Hc & Ht & ->).
    apply in_flat_map. exists (V1.buildVisibleTree c expanded'). split.
    + apply in_map_kids. eauto.
    + rewrite Forall_forall in IH. apply (IH c (proj2 (list_elem_of_In _ _) Hc)). exact Hi.
  - intros [H|H]; [left; exact H|]. right.
    destruct (bool_decide (j ∈ expanded)) eqn:Hj; [|destruct H].
    apply bool_decide_eq_true_1 in Hj.
    rewrite bool_decide_eq_true_2 by (apply Hsub; exact Hj).
    apply in_flat_map in H as (x & Hx & Hi). apply in_map_iff in Hx as (c & <- & Hc).
    apply in_flat_map. exists (V2.buildVisibleTree c expanded'). split.
    + apply (in_map (fun c => V2.buildVisibleTree c expanded')). exact Hc.
    + rewrite Forall_forall in IH. apply (IH c (proj2 (list_elem_of_In _ _) Hc)). exact Hi.
Qed.

Lemma visible_tree_grows_with_expanded_witness :
  In (PStr "a") (tree_ids (V2.buildVisibleTree scenario_A_tree {[ PStr "r"; PStr "a" ]})).
Proof.
  apply (visible_tree_grows_with_expanded scenario_A_tree
           {[ PStr "r" ]} {[ PStr "r"; PStr "a" ]} (PStr "a")).
  - apply (bool_decide_unpack _). vm_compute. exact I.
  - vm_compute. auto.
Defined.

(** ** The layout, further *)

Lemma V1_layout_parts (d3_tree : Q -> Q -> TreeNode -> list nat -> Q * Q)
    (sp : NodeSpacing) (padding nodeRadius nodeLabelGap : Q)
    (data : TreeNode) (X : gset prim) :
  exists (L : V1.Layout) (sx sy : Q),
    V1.layout d3_tree sp padding nodeRadius nodeLabelGap (Some data) X = Some L /\
    V1.nodes L = map (V1.shift (Fin sx) (Fin sy))
                     (map (V1.place d3_tree sp data X) (descendants data)) /\
    mapM (V1.mkLink nodeRadius nodeLabelGap (V1.byId_of (V1.nodes L))) (hlinks data) =
      Some (V1.links L).
Proof.
  destruct (V1.scan_all nodeRadius nodeLabelGap
              (map (V1.place d3_tree sp data X) (descendants data)))
    as [[[minX maxX] minY] maxY] eqn:Hscan.
  destruct (V1_layout_shape d3_tree sp padding nodeRadius nodeLabelGap
              data X _ _ _ _ Hscan) as (lks & Hlks & HL).
  destruct (V1_scan_mins nodeRadius nodeLabelGap _ _ _ _ _
              (V1_descendants_nonempty d3_tree sp data X)
              (fun n Hn => ltac:(apply in_map_iff in Hn as (h & <- & _);
                                 apply V1_place_wf))
              Hscan) as (mx & my & -> & ->).
  eexists _, _, _. split; [exact HL|]. split; [reflexivity | exact Hlks].
Qed.

Lemma V2_layout_parts (measureText : string -> Q)
    (d3_tree : Q -> Q -> TreeNode -> list nat -> Q * Q)
    (sp : NodeSpacing) (padding : Q) (data : TreeNode) (X : gset prim) :
  exists (L : V2.Layout) (sx sy : Q),
    V2.layout measureText d3_tree sp padding (Some data) X = Some L /\
    V2.nodes L = map (V2.shift (Fin sx) (Fin sy))
                     (map (V2.place measureText d3_tree sp data X) (descendants data)) /\
    mapM (V2.mkLink (V2.byId_of (V2.nodes L))) (hlinks data) = Some (V2.links L).
Proof.
  destruct (V2.scan_all (map (V2.place measureText d3_tree sp data X) (descendants data)))
    as [[[minX minY] maxX] maxY] eqn:Hscan.
  destruct (V2_layout_shape measureText d3_tree sp padding data X _ _ _ _ Hscan)
    as (lks & Hlks & HL).
  destruct (V2_scan_mins _ _ _ _ _
              (V2_descendants_nonempty measureText d3_tree sp data X)
              (fun n Hn => ltac:(apply in_map_iff in Hn as (h & <- & _);
                                 apply V2_place_wf))
              Hscan) as (mx & my & -> & ->).
  eexists _, _, _. split; [exact HL|]. split; [reflexivity | exact Hlks].
Qed.

Lemma V1_build_id (t : TreeNode) (expanded : gset prim) :
  id (V1.buildVisibleTree t expanded) = id t.
Proof.
  destruct t as [i l cs]. simpl.
  destruct (length _ =? 0)%nat; [reflexivity|].
  destruct (bool_decide (i ∈ expanded)); reflexivity.
Qed.

Lemma root_id_in_descendants (t : TreeNode) :
  In (id t) (map (fun h => id (hdata h)) (descendants t)).
Proof. apply in_map_iff. exists (hierarchy t). split; [reflexivity | apply root_in_descendants]. Qed.

(** X10. The chain of memos never throws: whatever the [data] prop and the
    expanded set hold, [layout] returns a result.  For a [data] that is
    neither an object nor an array it is the empty layout with the default
    bounds; otherwise it has one node per node of the visible tree, in the
    order of [descendants], the root among them. *)
Theorem layout_memo_never_throws
    (measureText : string -> Q)
    (d3_tree : Q -> Q -> TreeNode -> list nat -> Q * Q)
    (nodeSpacing : NodeSpacing) (padding nodeRadius nodeLabelGap : Q)
    (data : jsval) (expanded : gset prim) :
  (exists L,
     V1.MindMap_layout d3_tree nodeSpacing padding nodeRadius nodeLabelGap data expanded
       = Some L /\
     (object_like data = false ->
      V1.nodes L = [] /\ V1.links L = [] /\
      V1.bounds L = {| V1.minX := Fin 0; V1.minY := Fin 0;
                       V1.maxX := Fin 1000; V1.maxY := Fin 600 |}) /\
     (object_like data = true ->
      exists t, V1.normalizeTree data = Some t /\
                map V1.pn_id (V1.nodes L) =
                  map (fun h => id (hdata h)) (descendants (V1.buildVisibleTree t expanded)) /\
                In (id t) (map V1.pn_id (V1.nodes L)))) /\
  (exists L,
     V2.MindMap_layout measureText d3_tree nodeSpacing padding data expanded = Some L /\
     (object_like data = false ->
      V2.nodes L = [] /\ V2.links L = [] /\
      V2.bounds L = {| V2.maxX := Fin 1200; V2.maxY := Fin 800 |}) /\
     (object_like data = true ->
      exists t, V2.normalizeTree data = Some t /\
                map V2.pn_id (V2.nodes L) =
                  map (fun h => id (hdata h)) (descendants (V2.buildVisibleTree t expanded)) /\
                In (id t) (map V2.pn_id (V2.nodes L)))).
Proof.
  unfold V1.MindMap_layout, V2.MindMap_layout.
  destruct (object_like data) eqn:Hobj.
  - destruct (normalize_of_object data Hobj) as (t1 & t2 & E1 & E2 & _).
    rewrite E1, E2. cbn [V1.visibleData V1.expandableIds V2.visibleData V2.expandableIds].
    split.
    + destruct (V1_layout_parts d3_tree nodeSpacing padding nodeRadius nodeLabelGap
                  (V1.buildVisibleTree t1 expanded) (V1.collectExpandableIds t1 ∅))
        as (L & sx & sy & HL & Hn & _).
      exists L. split; [exact HL|]. split; [discriminate|]. intros _.
      exists t1. split; [reflexivity|].
      assert (Hids : map V1.pn_id (V1.nodes L) =
                     map (fun h => id (hdata h)) (descendants (V1.buildVisibleTree t1 expanded))).
      { rewrite Hn, !map_map. reflexivity. }
      split; [exact Hids|]. rewrite Hids, <- (V1_build_id t1 expanded).
      apply root_id_in_descendants.
    + destruct (V2_layout_parts measureText d3_tree nodeSpacing padding
                  (V2.buildVisibleTree t2 expanded) (V2.collectExpandableIds t2 ∅))
        as (L & sx & sy & HL & Hn & _).
      exists L. split; [exact HL|]. split; [discriminate|]. intros _.
      exists t2. split; [reflexivity|].
      assert (Hids : map V2.pn_id (V2.nodes L) =
                     map (fun h => id (hdata h)) (descendants (V2.buildVisibleTree t2 expanded))).
      { rewrite Hn, !map_map. reflexivity. }
      split; [exact Hids|]. rewrite Hids, <- (V2_build_id t2 expanded).
      apply root_id_in_descendants.
  - destruct (normalize_of_scalar data Hobj) as [E1 E2]. rewrite E1, E2.
    split; eexists; (split; [reflexivity|]); (split; [|discriminate]);
      intros _; repeat split.
Qed.

(** X11. In the layout the component computes, a node is marked
    [hasChildren] exactly when a node of the canonical tree with its id has
    at least one child, whatever the expanded set holds. *)
Theorem has_children_marks_the_parents
    (measureText : string -> Q)
    (d3_tree : Q -> Q -> TreeNode -> list nat -> Q * Q)
    (nodeSpacing : NodeSpacing) (padding nodeRadius nodeLabelGap : Q)
    (data : jsval) (t : TreeNode) (expanded : gset prim) :
  (V1.normalizeTree data = Some t ->
   exists L,
     V1.MindMap_layout d3_tree nodeSpacing padding nodeRadius nodeLabelGap data expanded
       = Some L /\
     forall n, In n (V1.nodes L) ->
       (V1.pn_hasChildren n = true <-> parent_with_id t (V1.pn_id n))) /\
  (V2.normalizeTree data = Some t ->
   exists L,
     V2.MindMap_layout measureText d3_tree nodeSpacing padding data expanded = Some L /\
     forall n, In n (V2.nodes L) ->
       (V2.pn_hasChildren n = true <-> parent_with_id t (V2.pn_id n))).
Proof.
  unfold V1.MindMap_layout, V2.MindMap_layout. split; intros E; rewrite E;
    cbn [V1.visibleData V1.expandableIds V2.visibleData V2.expandableIds].
  - destruct (V1_layout_parts d3_tree nodeSpacing padding nodeRadius nodeLabelGap
                (V1.buildVisibleTree t expanded) (V1.collectExpandableIds t ∅))
      as (L & sx & sy & HL & Hn & _).
    exists L. split; [exact HL|]. intros n Hin. rewrite Hn in Hin.
    apply in_map_iff in Hin as (n0 & <- & Hin). apply in_map_iff in Hin as (h & <- & _).
    cbn [V1.shift V1.place V1.pn_hasChildren V1.pn_id].
    rewrite bool_decide_eq_true, collect_variants_agree, collect_spec. set_solver.
  - destruct (V2_layout_parts measureText d3_tree nodeSpacing padding
                (V2.buildVisibleTree t expanded) (V2.collectExpandableIds t ∅))
      as (L & sx & sy & HL & Hn & _).
    exists L. split; [exact HL|]. intros n Hin. rewrite Hn in Hin.
    apply in_map_iff in Hin as (n0 & <- & Hin). apply in_map_iff in Hin as (h & <- & _).
    cbn [V2.shift V2.place V2.pn_hasChildren V2.pn_id].
    rewrite bool_decide_eq_true, collect_spec. set_solver.
Qed.

Lemma has_children_marks_the_parents_witness :
  exists L,
    V2.MindMap_layout measure10 Tidy.tidy spacing2 80 scenario_A {[ PStr "r" ]} = Some L /\
    forall n, In n (V2.nodes L) ->
      (V2.pn_hasChildren n = true <-> parent_with_id scenario_A_tree (V2.pn_id n)).
Proof.
  apply (has_children_marks_the_parents measure10 Tidy.tidy spacing2 80 7 14
           scenario_A scenario_A_tree {[ PStr "r" ]}).
  reflexivity.
Defined.

(** X12. On a node of the layout, [handleNodeClick] changes the expanded
    set exactly as [toggle] of its id does and makes the same
    [onNodeExpand] call: the test of [node.hasChildren] and the test of
    [expandableIds] inside [toggle] agree.  A node without children leaves
    the set alone; in either case [onNodeClick] is called once, with the
    node. *)
Theorem node_click_is_toggle
    (d3_tree : Q -> Q -> TreeNode -> list nat -> Q * Q)
    (nodeSpacing : NodeSpacing) (padding nodeRadius nodeLabelGap : Q)
    (visibleData : option TreeNode) (expandableIds prev : gset prim)
    (L : V1.Layout) (n : V1.PositionedNode) :
  V1.layout d3_tree nodeSpacing padding nodeRadius nodeLabelGap visibleData expandableIds
    = Some L ->
  In n (V1.nodes L) ->
  V1.handleNodeClick expandableIds n prev =
    (fst (V1.toggle expandableIds (V1.pn_id n) prev),
     snd (V1.toggle expandableIds (V1.pn_id n) prev), [n]) /\
  (V1.pn_hasChildren n = false ->
   V1.handleNodeClick expandableIds n prev = (prev, [], [n])) /\
  (V1.pn_hasChildren n = true ->
   forall i, i ∈ fst (fst (V1.handleNodeClick expandableIds n prev)) <->
             (i <> V1.pn_id n /\ i ∈ prev) \/ (i = V1.pn_id n /\ i ∉ prev)).
Proof.
  intros HL Hin.
  assert (Hhas : V1.pn_hasChildren n = bool_decide (V1.pn_id n ∈ expandableIds)).
  { destruct visibleData as [data|].
    - destruct (V1_layout_parts d3_tree nodeSpacing padding nodeRadius nodeLabelGap
                  data expandableIds) as (L' & sx & sy & HL' & Hn & _).
      rewrite HL in HL'. injection HL' as <-. rewrite Hn in Hin.
      apply in_map_iff in Hin as (n0 & <- & Hin). apply in_map_iff in Hin as (h & <- & _).
      reflexivity.
    - injection HL as <-. destruct Hin. }
  unfold V1.handleNodeClick, V1.toggle. rewrite Hhas.
  destruct (bool_decide (V1.pn_id n ∈ expandableIds)); cbn [negb fst snd].
  - split; [reflexivity|]. split; [discriminate|]. intros _ i.
    destruct (bool_decide (V1.pn_id n ∈ prev)) eqn:Hp.
    + apply bool_decide_eq_true_1 in Hp. destruct (decide (i = V1.pn_id n)); set_solver.
    + apply bool_decide_eq_false_1 in Hp. destruct (decide (i = V1.pn_id n)); set_solver.
  - split; [reflexivity|]. split; [reflexivity | discriminate].
Qed.

Lemma node_click_is_toggle_witness :
  exists L n,
    V1.layout Tidy.tidy spacing1 60 7 14 (Some scenario_A_tree) {[ PStr "r" ]} = Some L /\
    In n (V1.nodes L) /\
    V1.handleNodeClick {[ PStr "r" ]} n ∅ = ({[ PStr "r" ]}, [(PStr "r", true)], [n]).
Proof.
  destruct (V1_layout_parts Tidy.tidy spacing1 60 7 14 scenario_A_tree {[ PStr "r" ]})
    as (L & sx & sy & HL & Hn & _).
  exists L, (V1.shift (Fin sx) (Fin sy)
                      (V1.place Tidy.tidy spacing1 scenario_A_tree {[ PStr "r" ]}
                                (hierarchy scenario_A_tree))).
  assert (Hin : In (V1.shift (Fin sx) (Fin sy)
                             (V1.place Tidy.tidy spacing1 scenario_A_tree {[ PStr "r" ]}
                                       (hierarchy scenario_A_tree))) (V1.nodes L)).
  { rewrite Hn. apply in_map, in_map, root_in_descendants. }
  split; [exact HL|]. split; [exact Hin|].
  destruct (node_click_is_toggle Tidy.tidy spacing1 60 7 14 (Some scenario_A_tree)
              {[ PStr "r" ]} ∅ L _ HL Hin) as [E _].
  rewrite E. vm_compute. reflexivity.
Defined.

(** *** Edges *)

Lemma flat_map_flat_map {A B C : Type} (f : B -> list C) (g : A -> list B) (l : list A) :
  flat_map f (flat_map g l) = flat_map (fun x => flat_map f (g x)) l.
Proof.
  induction l as [|x l IH]; [reflexivity|].
  simpl. rewrite flat_map_app, IH. reflexivity.
Qed.

Lemma flat_map_map_r {A B C : Type} (f : B -> list C) (g : A -> B) (l : list A) :
  flat_map f (map g l) = flat_map (fun x => f (g x)) l.
Proof. induction l as [|x l IH]; [reflexivity|]. simpl. rewrite IH. reflexivity. Qed.

Lemma flat_map_length_map {A B C : Type} (f : A -> list B) (g : A -> B -> C) (l : list A) :
  length (flat_map (fun x => map (g x) (f x)) l) = length (flat_map f l).
Proof.
  induction l as [|x l IH]; [reflexivity|].
  simpl. rewrite !length_app, length_map, IH. reflexivity.
Qed.

Lemma level_beyond_height (t : TreeNode) : level (hierarchy t) (S (height t)) = [].
Proof.
  destruct (level (hierarchy t) (S (height t))) as [|h hs] eqn:E; [reflexivity|].
  assert (Hin : In h (level (hierarchy t) (S (height t)))) by (rewrite E; left; reflexivity).
  apply level_spec in Hin as [Hlen [_ Hn]]. apply node_at_height in Hn. lia.
Qed.

Lemma descendants_root_first (t : TreeNode) :
  descendants t = hierarchy t :: flat_map (level (hierarchy t)) (seq 1 (height t)).
Proof. reflexivity. Qed.

Lemma hlinks_length (t : TreeNode) : S (length (hlinks t)) = length (descendants t).
Proof.
  unfold hlinks.
  rewrite (flat_map_length_map hchildren (fun h c => (h, c))).
  unfold descendants at 1. rewrite flat_map_flat_map.
  change (fun x => flat_map hchildren (level (hierarchy t) x))
    with (fun x => level (hierarchy t) (S x)).
  rewrite <- (flat_map_map_r (level (hierarchy t)) S), seq_shift.
  rewrite seq_S, flat_map_app. cbn [flat_map].
  change (1 + height t)%nat with (S (height t)).
  rewrite level_beyond_height, descendants_root_first.
  cbn [length app]. rewrite !app_nil_r. reflexivity.
Qed.

Lemma Forall2_map_eq {A B C : Type} (f : A -> C) (g : B -> C) (l : list A) (k : list B) :
  Forall2 (fun x y => g y = f x) l k -> map g k = map f l.
Proof. induction 1 as [|x y l k E _ IH]; [reflexivity|]. simpl. rewrite E, IH. reflexivity. Qed.

(** X13. The layout has one edge per node other than the root, and every
    edge is named after the ids of a parent and its child in the visible
    tree, in the order of [links()]: [parent__child] in the first variant,
    [parent-child] in the second.  No premise on the ids is needed. *)
Theorem edges_are_the_parent_child_pairs
    (measureText : string -> Q)
    (d3_tree : Q -> Q -> TreeNode -> list nat -> Q * Q)
    (nodeSpacing : NodeSpacing) (padding nodeRadius nodeLabelGap : Q)
    (data : TreeNode) (expandableIds : gset prim) :
  (exists L,
     V1.layout d3_tree nodeSpacing padding nodeRadius nodeLabelGap (Some data) expandableIds
       = Some L /\
     S (length (V1.links L)) = length (V1.nodes L) /\
     map l_id (V1.links L) =
       map (fun l => (String_of (id (hdata (fst l))) ++ "__" ++
                      String_of (id (hdata (snd l))))%string) (hlinks data)) /\
  (exists L,
     V2.layout measureText d3_tree nodeSpacing padding (Some data) expandableIds = Some L /\
     S (length (V2.links L)) = length (V2.nodes L) /\
     map l_id (V2.links L) =
       map (fun l => (String_of (id (hdata (fst l))) ++ "-" ++
                      String_of (id (hdata (snd l))))%string) (hlinks data)).
Proof.
  split.
  - destruct (V1_layout_parts d3_tree nodeSpacing padding nodeRadius nodeLabelGap
                data expandableIds) as (L & sx & sy & HL & Hn & Hlk).
    exists L. split; [exact HL|]. split.
    + rewrite <- (length_mapM _ _ _ Hlk), Hn, !length_map. apply hlinks_length.
    + apply mapM_Some_1 in Hlk. apply Forall2_map_eq.
      eapply Forall2_impl; [exact Hlk|]. intros l lk Hmk. unfold V1.mkLink in Hmk.
      change (V1.byId_of ?ns) with (index_by V1.pn_id ns) in Hmk.
      destruct (index_by V1.pn_id _ !! id (hdata (fst l))) as [s|] eqn:Es; [|discriminate].
      destruct (index_by V1.pn_id _ !! id (hdata (snd l))) as [c|] eqn:Ec; [|discriminate].
      apply index_by_lookup_in in Es as [_ Es]. apply index_by_lookup_in in Ec as [_ Ec].
      injection Hmk as <-. cbn [l_id]. rewrite Es, Ec. reflexivity.
  - destruct (V2_layout_parts measureText d3_tree nodeSpacing padding
                data expandableIds) as (L & sx & sy & HL & Hn & Hlk).
    exists L. split; [exact HL|]. split.
    + rewrite <- (length_mapM _ _ _ Hlk), Hn, !length_map. apply hlinks_length.
    + apply mapM_Some_1 in Hlk. apply Forall2_map_eq.
      eapply Forall2_impl; [exact Hlk|]. intros l lk Hmk. unfold V2.mkLink in Hmk.
      change (V2.byId_of ?ns) with (index_by V2.pn_id ns) in Hmk.
      destruct (index_by V2.pn_id _ !! id (hdata (fst l))) as [s|] eqn:Es; [|discriminate].
      destruct (index_by V2.pn_id _ !! id (hdata (snd l))) as [c|] eqn:Ec; [|discriminate].
      apply index_by_lookup_in in Es as [_ Es]. apply index_by_lookup_in in Ec as [_ Ec].
      injection Hmk as <-. cbn [l_id]. rewrite Es, Ec. reflexivity.
Qed.

(** ** The text wrapper, further *)

Lemma append_assoc (a b c : string) : ((a ++ b) ++ c = a ++ (b ++ c))%string.
Proof.
  induction a as [|x a IH]; [reflexivity|].
  change (String x ((a ++ b) ++ c) = String x (a ++ (b ++ c)))%string.
  rewrite IH. reflexivity.
Qed.

Lemma join_space_cons (w : string) (ws : list string) :
  ws <> [] -> join_space (w :: ws) = (w ++ " " ++ join_space ws)%string.
Proof. destruct ws; [congruence | reflexivity]. Qed.

Lemma join_space_snoc (ws : list string) (w : string) :
  ws <> [] -> join_space (ws ++ [w]) = (join_space ws ++ " " ++ w)%string.
Proof.
  induction ws as [|v ws IH]; [congruence|]. intros _.
  destruct ws as [|v' ws'].
  - reflexivity.
  - change ((v :: v' :: ws') ++ [w]) with (v :: ((v' :: ws') ++ [w])).
    rewrite join_space_cons by (destruct ws'; discriminate).
    rewrite IH by discriminate.
    rewrite (join_space_cons v (v' :: ws')) by discriminate.
    rewrite !append_assoc. reflexivity.
Qed.

Lemma join_space_last (ls : list string) (cur w : string) :
  join_space (ls ++ [(cur ++ " " ++ w)%string]) =
  (join_space (ls ++ [cur]) ++ " " ++ w)%string.
Proof.
  induction ls as [|l ls IH]; [reflexivity|].
  change ((l :: ls) ++ [?x]) with (l :: (ls ++ [x])).
  rewrite !join_space_cons by (destruct ls; discriminate).
  rewrite IH, !append_assoc. reflexivity.
Qed.

Lemma join_split_space (s : string) : join_space (V2.split_space s) = s.
Proof.
  induction s as [|c s IH]; [reflexivity|].
  cbn [V2.split_space]. destruct (Ascii.eqb_spec c " ") as [->|Hc].
  - destruct (split_space_cons s) as (w & ws & E). rewrite E in *.
    rewrite join_space_cons by discriminate. rewrite IH. reflexivity.
  - destruct (split_space_cons s) as (w & ws & E). rewrite E in *.
    destruct ws as [|w' ws'].
    + simpl in *. rewrite IH. reflexivity.
    + rewrite join_space_cons in * by discriminate. simpl. rewrite <- IH. reflexivity.
Qed.

Section WrapMore.

Variable measureText : string -> Q.
Variable maxWidth : Q.

Local Abbreviation step := (V2.wrap_step measureText maxWidth).
Local Abbreviation wrap_words := (V2.wrap_words measureText maxWidth).

Lemma wrap_finish_length (lines : list string) (line : string) :
  length (wrap_finish (lines, line)) =
  (length lines + if truthy (PStr line) then 1 else 0)%nat.
Proof.
  unfold wrap_finish. cbn [fst snd]. destruct (truthy (PStr line)).
  - rewrite length_app. reflexivity.
  - lia.
Qed.

Lemma step_count (lines : list string) (line w : string) :
  (length (wrap_finish (step (lines, line) w)) <= S (length (wrap_finish (lines, line))))%nat.
Proof.
  rewrite step_eq, (wrap_finish_length lines line).
  destruct (truthy (PStr line)) eqn:Ht.
  - destruct (Qle_bool _ maxWidth); rewrite wrap_finish_length.
    + destruct (truthy (PStr (line ++ " " ++ w))); lia.
    + rewrite length_app. cbn [length]. destruct (truthy (PStr w)); lia.
  - rewrite wrap_finish_length. destruct (truthy (PStr w)); lia.
Qed.

Lemma step_lines_not_empty (lines : list string) (line w : string) :
  Forall (fun l => l <> "") lines ->
  Forall (fun l => l <> "") (fst (step (lines, line) w)).
Proof.
  intros Hl. rewrite step_eq. destruct (truthy (PStr line)) eqn:Ht; [|exact Hl].
  destruct (Qle_bool _ maxWidth); [exact Hl|]. cbn [fst].
  apply Forall_app. split; [exact Hl|]. constructor; [|constructor].
  apply truthy_str. exact Ht.
Qed.

(** No line pushed is empty, and there are never more lines than words. *)
Lemma wrap_fold_lines (words : list string) (st : list string * string) :
  Forall (fun l => l <> "") (fst st) ->
  Forall (fun l => l <> "") (wrap_finish (fold_left step words st)) /\
  (length (wrap_finish (fold_left step words st)) <=
   length (wrap_finish st) + length words)%nat.
Proof.
  revert st. induction words as [|w ws IH]; intros [lines line] Hl.
  - cbn [fold_left length]. split; [|lia]. unfold wrap_finish. cbn [fst snd] in *.
    destruct (truthy (PStr line)) eqn:Ht; [|exact Hl].
    apply Forall_app. split; [exact Hl|]. constructor; [|constructor].
    apply truthy_str. exact Ht.
  - cbn [fold_left length].
    destruct (IH (step (lines, line) w) (step_lines_not_empty lines line w Hl)) as [H1 H2].
    split; [exact H1|]. pose proof (step_count lines line w). lia.
Qed.

(** When every word that is not empty fits, every line fits. *)
Lemma wrap_fold_fits (words : list string) (lines : list string) (line : string) :
  (forall w, In w words -> w <> "" -> (measureText w <= maxWidth)%Q) ->
  Forall (fun l => (measureText l <= maxWidth)%Q) lines ->
  line = "" \/ (measureText line <= maxWidth)%Q ->
  Forall (fun l => (measureText l <= maxWidth)%Q)
         (wrap_finish (fold_left step words (lines, line))).
Proof.
  revert lines line. induction words as [|w ws IH]; intros lines line Hw Hl Hcur.
  - simpl. unfold wrap_finish. cbn [fst snd].
    destruct (truthy (PStr line)) eqn:Ht; [|exact Hl].
    apply Forall_app. split; [exact Hl|]. constructor; [|constructor].
    destruct Hcur as [->|H]; [discriminate | exact H].
  - assert (Hword : w = "" \/ (measureText w <= maxWidth)%Q).
    { destruct (String.eqb_spec w ""); [left; assumption|].
      right. apply Hw; [left; reflexivity | assumption]. }
    assert (Hws : forall w', In w' ws -> w' <> "" -> (measureText w' <= maxWidth)%Q).
    { intros w' Hin. apply Hw. right. exact Hin. }
    cbn [fold_left]. rewrite step_eq.
    destruct (truthy (PStr line)) eqn:Ht.
    + destruct (Qle_bool _ maxWidth) eqn:Hfit.
      * apply IH; [exact Hws | exact Hl|]. right. apply Qle_bool_iff. exact Hfit.
      * apply IH; [exact Hws | | exact Hword].
        apply Forall_app. split; [exact Hl|]. constructor; [|constructor].
        destruct Hcur as [->|H]; [discriminate | exact H].
    + apply IH; [exact Hws | exact Hl | exact Hword].
Qed.

Lemma wrap_fold_none (words : list string) :
  Forall (fun w => w = "") words ->
  fold_left step words ([], "") = ([], "").
Proof.
  induction 1 as [|w ws -> _ IH]; [reflexivity|].
  cbn [fold_left]. rewrite step_eq, truthy_empty. exact IH.
Qed.

Lemma wrap_words_nil (words : list string) :
  wrap_words words = [] <-> Forall (fun w => w = "") words.
Proof.
  rewrite wrap_words_finish. split.
  - intros E. induction words as [|w ws IH] using rev_ind; [constructor|].
    rewrite fold_left_app in E. cbn [fold_left] in E.
    destruct (String.eqb_spec w "") as [->|Hw].
    + apply Forall_app. split; [|constructor; [reflexivity | constructor]].
      apply IH. destruct (fold_left step ws ([], "")) as [lines line].
      rewrite step_eq in E. unfold wrap_finish in *. cbn [fst snd] in *.
      destruct (truthy (PStr line)) eqn:Ht.
      * exfalso. destruct (Qle_bool _ maxWidth); cbn [fst snd] in E.
        -- rewrite (truthy_app_l line _ Ht) in E. destruct lines; discriminate.
        -- rewrite truthy_empty in E. destruct lines; discriminate.
      * cbn [fst snd] in E. rewrite truthy_empty in E. exact E.
    + exfalso. destruct (fold_left step ws ([], "")) as [lines line].
      pose proof (step_line_truthy measureText maxWidth (lines, line) w
                    (proj2 (truthy_str w) Hw)) as Ht.
      destruct (step (lines, line) w) as [lines' line']. unfold wrap_finish in E.
      cbn [fst snd] in *. rewrite Ht in E. destruct lines'; discriminate.
  - intros Hall. rewrite (wrap_fold_none words Hall). reflexivity.
Qed.

(** Joined by spaces, the lines give back the words joined by spaces. *)
Lemma wrap_fold_join (words done : list string) (lines : list string) (line : string) :
  Forall (fun w => w <> "") words ->
  truthy (PStr line) = true ->
  join_space (lines ++ [line]) = join_space done ->
  done <> [] ->
  join_space (wrap_finish (fold_left step words (lines, line))) =
  join_space (done ++ words).
Proof.
  revert done lines line. induction words as [|w ws IH]; intros done lines line Hw Ht E Hd.
  - simpl. unfold wrap_finish. cbn [fst snd]. rewrite Ht, app_nil_r. exact E.
  - apply Forall_cons in Hw as [Hw Hws].
    cbn [fold_left]. rewrite step_eq, Ht.
    replace (done ++ w :: ws) with ((done ++ [w]) ++ ws) by (rewrite <- app_assoc; reflexivity).
    destruct (Qle_bool _ maxWidth).
    + apply IH; [exact Hws | apply truthy_app_l; exact Ht | | destruct done; discriminate].
      rewrite join_space_last, E, join_space_snoc by exact Hd. reflexivity.
    + apply IH; [exact Hws | apply truthy_str; exact Hw | | destruct done; discriminate].
      rewrite join_space_snoc by (destruct lines; discriminate).
      rewrite E, join_space_snoc by exact Hd. reflexivity.
Qed.

Lemma wrap_words_join (words : list string) :
  Forall (fun w => w <> "") words ->
  join_space (wrap_words words) = join_space words.
Proof.
  intros Hall. rewrite wrap_words_finish. destruct words as [|w ws]; [reflexivity|].
  apply Forall_cons in Hall as [Hw Hws].
  cbn [fold_left]. rewrite step_eq, truthy_empty.
  apply (wrap_fold_join ws [w] [] w); [exact Hws | apply truthy_str; exact Hw | reflexivity |
                                       discriminate].
Qed.

End WrapMore.

(** X14. [wrapText] never returns an empty line, and never more lines than
    the text has words (the pieces between its spaces). *)
Theorem wrap_lines_are_not_empty (measureText : string -> Q) (text : prim) (maxWidth : Q) :
  Forall (fun l => l <> "") (V2.wrapText measureText text maxWidth) /\
  (length (V2.wrapText measureText text maxWidth) <=
   length (V2.split_space (String_of text)))%nat.
Proof.
  unfold V2.wrapText. rewrite wrap_words_finish.
  destruct (wrap_fold_lines measureText maxWidth (V2.split_space (String_of text)) ([], ""))
    as [H1 H2]; [constructor|].
  split; [exact H1|]. rewrite wrap_finish_length, truthy_empty in H2. exact H2.
Qed.

(** X15. When every word of the text that is not empty measures at most
    [maxWidth], so does every line [wrapText] returns. *)
Theorem wrapped_lines_fit (measureText : string -> Q) (text : prim) (maxWidth : Q) :
  (forall w, In w (V2.split_space (String_of text)) -> w <> "" ->
             (measureText w <= maxWidth)%Q) ->
  forall l, In l (V2.wrapText measureText text maxWidth) -> (measureText l <= maxWidth)%Q.
Proof.
  intros Hw l Hl. unfold V2.wrapText in Hl. rewrite wrap_words_finish in Hl.
  pose proof (wrap_fold_fits measureText maxWidth _ [] "" Hw
                (@List.Forall_nil _ _) (or_introl eq_refl)) as H.
  rewrite Forall_forall in H. apply H. apply list_elem_of_In. exact Hl.
Qed.

Lemma wrapped_lines_fit_witness :
  (measure10 "aaaaaaaaaaaaaa bbbbbbbbbbbbbb" <= 300)%Q.
Proof.
  apply (wrapped_lines_fit measure10 (PStr six_words) 300).
  - intros w Hw _. vm_compute in Hw.
    repeat (destruct Hw as [<-|Hw]; [vm_compute; discriminate|]). destruct Hw.
  - vm_compute. auto.
Defined.

Lemma only_spaces_split (s : string) :
  only_spaces s = true <-> Forall (fun w => w = "") (V2.split_space s).
Proof.
  induction s as [|c s IH]; cbn [only_spaces V2.split_space].
  - split; [intros _; constructor; [reflexivity | constructor] | reflexivity].
  - destruct (Ascii.eqb c " "); cbn [andb].
    + rewrite IH. split.
      * intros H. constructor; [reflexivity | exact H].
      * intros H. apply Forall_cons in H as [_ H]. exact H.
    + split; [discriminate|]. intros H.
      destruct (V2.split_space s); apply Forall_cons in H as [H _]; discriminate.
Qed.

Lemma wrapText_nil_iff (measureText : string -> Q) (text : prim) (maxWidth : Q) :
  V2.wrapText measureText text maxWidth = [] <-> only_spaces (String_of text) = true.
Proof.
  unfold V2.wrapText. rewrite wrap_words_nil, only_spaces_split. reflexivity.
Qed.

(** X16. [wrapText] returns no line at all exactly when the text holds
    nothing but spaces (the empty string among them); any other text gives
    at least one line. *)
Theorem wrap_gives_no_line_iff_blank (measureText : string -> Q) (text : prim)
    (maxWidth : Q) :
  (V2.wrapText measureText text maxWidth = [] <-> only_spaces (String_of text) = true) /\
  (only_spaces (String_of text) = false ->
   exists l ls, V2.wrapText measureText text maxWidth = l :: ls /\ l <> "").
Proof.
  split; [apply wrapText_nil_iff|]. intros Hs.
  destruct (V2.wrapText measureText text maxWidth) as [|l ls] eqn:E.
  - apply wrapText_nil_iff in E. congruence.
  - exists l, ls. split; [reflexivity|].
    pose proof (wrap_fold_lines measureText maxWidth (V2.split_space (String_of text))
                  ([], "") (@List.Forall_nil _ _)) as [H _].
    rewrite <- wrap_words_finish in H. fold (V2.wrapText measureText text maxWidth) in H.
    rewrite E in H. apply Forall_cons in H as [H _]. exact H.
Qed.

(** X17. When the text has no empty word (no leading, trailing or doubled
    space), the lines of [wrapText] joined by single spaces give the text
    back: wrapping only turns some spaces into line breaks. *)
Theorem wrapped_lines_rejoin (measureText : string -> Q) (text : prim) (maxWidth : Q) :
  Forall (fun w => w <> "") (V2.split_space (String_of text)) ->
  join_space (V2.wrapText measureText text maxWidth) = String_of text.
Proof.
  intros Hall. unfold V2.wrapText.
  rewrite (wrap_words_join measureText maxWidth _ Hall). apply join_split_space.
Qed.

Lemma wrapped_lines_rejoin_witness :
  join_space (V2.wrapText measure10 (PStr six_words) V2.MAX_TEXT_WIDTH) = six_words.
Proof.
  apply (wrapped_lines_rejoin measure10 (PStr six_words) V2.MAX_TEXT_WIDTH).
  vm_compute. repeat constructor; discriminate.
Defined.

(** *** Labels and boxes *)

Lemma node_at_subtrees (t n : TreeNode) (p : list nat) :
  node_at t p = Some n -> In n (subtrees t).
Proof.
  revert t. induction p as [|i p IH]; intros t H; simpl in H.
  - injection H as <-. apply subtrees_self.
  - destruct (children t !! i) as [c|] eqn:Hc; [|discriminate].
    apply (subtrees_child t c n); [|apply IH; exact H].
    apply list_elem_of_In, list_elem_of_lookup. eauto.
Qed.

Lemma V2_build_label (t : TreeNode) (expanded : gset prim) :
  label (V2.buildVisibleTree t expanded) = label t.
Proof. destruct t as [i l cs]. simpl. destruct (bool_decide (i ∈ expanded)); reflexivity. Qed.

(** The datum of a node of the visible hierarchy is the visible part of a
    node of the canonical tree. *)
Lemma visible_datum (t : TreeNode) (expanded : gset prim) (h : HNode) :
  In h (descendants (V2.buildVisibleTree t expanded)) ->
  exists m, reachable expanded t m /\ In m (subtrees t) /\
            hdata h = V2.buildVisibleTree m expanded.
Proof.
  intros Hh. apply descendants_spec in Hh as [_ Hn].
  apply visible_is_reachable in Hn as (m & Hreach & E).
  exists m. split; [exact Hreach|]. split; [|exact E].
  destruct (reachable_node_at _ _ _ Hreach) as [p Hp]. eapply node_at_subtrees. exact Hp.
Qed.

Lemma all_set_subtrees (t n : TreeNode) :
  all_set t = true -> In n (subtrees t) ->
  nullish (id n) = false /\ nullish (label n) = false.
Proof.
  induction t as [i l cs IH] using TreeNode_ind'. intros Hset Hn.
  apply all_set_inv in Hset as (Hi & Hl & Hcs).
  apply subtrees_inv in Hn as [->|(c & Hc & Hn)]; [split; assumption|].
  simpl in Hc. apply list_elem_of_In in Hc. rewrite Forall_forall in IH, Hcs.
  apply (IH c Hc); [apply Hcs; exact Hc | exact Hn].
Qed.

(** X18. Every node of the layout the component computes shows a node of
    the canonical tree: it carries that node's id and that node's label.
    In the first variant the fallback [n.data.label ?? n.data.id] never
    takes the id, since [normalizeTree] leaves no label unset. *)
Theorem layout_nodes_show_canonical_nodes
    (measureText : string -> Q)
    (d3_tree : Q -> Q -> TreeNode -> list nat -> Q * Q)
    (nodeSpacing : NodeSpacing) (padding nodeRadius nodeLabelGap : Q)
    (data : jsval) (t : TreeNode) (expanded : gset prim) :
  (V1.normalizeTree data = Some t ->
   exists L,
     V1.MindMap_layout d3_tree nodeSpacing padding nodeRadius nodeLabelGap data expanded
       = Some L /\
     forall n, In n (V1.nodes L) ->
       exists m, In m (subtrees t) /\ V1.pn_id n = id m /\ V1.pn_label n = label m /\
                 nullish (V1.pn_label n) = false) /\
  (V2.normalizeTree data = Some t ->
   exists L,
     V2.MindMap_layout measureText d3_tree nodeSpacing padding data expanded = Some L /\
     forall n, In n (V2.nodes L) ->
       exists m, In m (subtrees t) /\ V2.pn_id n = id m /\ V2.pn_label n = label m /\
                 nullish (V2.pn_label n) = false).
Proof.
  unfold V1.MindMap_layout, V2.MindMap_layout. split; intros E; rewrite E;
    cbn [V1.visibleData V1.expandableIds V2.visibleData V2.expandableIds].
  - assert (Hset : all_set t = true).
    { pose proof E as E'. apply V1_normalize_walk in E' as [a' E']. rewrite V1_walk_gen in E'.
      eapply (walk_all_set reject1 V1.keep V1_keep_sub). exact E'. }
    rewrite (build_variants_agree t expanded (V1_normalize_clean _ _ E)).
    destruct (V1_layout_parts d3_tree nodeSpacing padding nodeRadius nodeLabelGap
                (V2.buildVisibleTree t expanded) (V1.collectExpandableIds t ∅))
      as (L & sx & sy & HL & Hn & _).
    exists L. split; [exact HL|]. intros n Hin. rewrite Hn in Hin.
    apply in_map_iff in Hin as (n0 & <- & Hin). apply in_map_iff in Hin as (h & <- & Hh).
    apply visible_datum in Hh as (m & _ & Hm & Eh).
    destruct (all_set_subtrees t m Hset Hm) as [_ Hl].
    exists m. split; [exact Hm|].
    cbn [V1.shift V1.place V1.pn_id V1.pn_label].
    rewrite Eh, V2_build_id, V2_build_label. unfold coalesce. rewrite Hl. auto.
  - assert (Hset : all_set t = true).
    { pose proof E as E'. apply V2_normalize_walk in E' as [a' E']. rewrite V2_walk_gen in E'.
      eapply (walk_all_set reject2 V2.keep V2_keep_sub). exact E'. }
    destruct (V2_layout_parts measureText d3_tree nodeSpacing padding
                (V2.buildVisibleTree t expanded) (V2.collectExpandableIds t ∅))
      as (L & sx & sy & HL & Hn & _).
    exists L. split; [exact HL|]. intros n Hin. rewrite Hn in Hin.
    apply in_map_iff in Hin as (n0 & <- & Hin). apply in_map_iff in Hin as (h & <- & Hh).
    apply visible_datum in Hh as (m & _ & Hm & Eh).
    destruct (all_set_subtrees t m Hset Hm) as [_ Hl].
    exists m. split; [exact Hm|].
    cbn [V2.shift V2.place V2.pn_id V2.pn_label].
    rewrite Eh, V2_build_id, V2_build_label. auto.
Qed.

Lemma layout_nodes_show_canonical_nodes_witness :
  exists L,
    V1.MindMap_layout Tidy.tidy spacing1 60 7 14 scenario_A {[ PStr "r" ]} = Some L /\
    forall n, In n (V1.nodes L) ->
      exists m, In m (subtrees scenario_A_tree) /\ V1.pn_id n = id m /\
                V1.pn_label n = label m /\ nullish (V1.pn_label n) = false.
Proof.
  apply (layout_nodes_show_canonical_nodes measure10 Tidy.tidy spacing1 60 7 14
           scenario_A scenario_A_tree {[ PStr "r" ]}).
  reflexivity.
Defined.

(** X19. In the first variant every box is 44 high and between 118 and 668
    wide: the text width is the label length times 7.2, kept within 90 and
    640, and the padding adds 28. *)
Theorem first_variant_box_sizes
    (d3_tree : Q -> Q -> TreeNode -> list nat -> Q * Q)
    (nodeSpacing : NodeSpacing) (padding nodeRadius nodeLabelGap : Q)
    (data : TreeNode) (expandableIds : gset prim) :
  exists L,
    V1.layout d3_tree nodeSpacing padding nodeRadius nodeLabelGap (Some data) expandableIds
      = Some L /\
    forall n, In n (V1.nodes L) ->
      num_eq (V1.pn_boxH n) (Fin 44) /\
      num_le (Fin 118) (V1.pn_boxW n) /\ num_le (V1.pn_boxW n) (Fin 668) /\
      let textW := (inject_Z (Z.of_nat (String.length (String_of (V1.pn_label n)))) * (36 # 5))%Q in
      ((90 <= textW <= 640)%Q -> num_eq (V1.pn_boxW n) (Fin (textW + 28))).
Proof.
  destruct (V1_layout_parts d3_tree nodeSpacing padding nodeRadius nodeLabelGap
              data expandableIds) as (L & sx & sy & HL & Hn & _).
  exists L. split; [exact HL|]. intros n Hin. rewrite Hn in Hin.
  apply in_map_iff in Hin as (n0 & <- & Hin). apply in_map_iff in Hin as (h & <- & _).
  cbn [V1.shift V1.place V1.pn_boxH V1.pn_boxW V1.pn_label nmin nmax nadd num_eq num_le].
  set (w := (inject_Z _ * (36 # 5))%Q).
  pose proof (Q.le_max_l 90 w) as H1. pose proof (Q.le_max_r 90 w) as H1'.
  pose proof (Q.le_min_l 640 (Qmax 90 w)) as H2.
  pose proof (Q.min_glb 640 (Qmax 90 w) 90) as H3.
  split; [reflexivity|]. split; [|split].
  - assert (90 <= Qmin 640 (Qmax 90 w))%Q by (apply H3; [discriminate | exact H1]). lra.
  - lra.
  - intros [Hlo Hhi]. rewrite (Q.max_r 90 w Hlo), (Q.min_r 640 w Hhi). reflexivity.
Qed.

Lemma Qmax_cases (x y : Q) : Qmax x y = x \/ Qmax x y = y.
Proof.
  unfold Qmax, GenericMinMax.gmax. destruct (x ?= y)%Q; auto.
Qed.

Lemma nmax_cases (a b : num) : nmax a b = a \/ nmax a b = b.
Proof.
  destruct a as [| |x|], b as [| |y|]; simpl; auto.
  destruct (Qmax_cases x y) as [-> | ->]; auto.
Qed.

Lemma fold_nmax_attained {A : Type} (f : A -> num) (ns : list A) (init : num) :
  fold_left (fun m n => nmax m (f n)) ns init = init \/
  exists n, In n ns /\ fold_left (fun m n => nmax m (f n)) ns init = f n.
Proof.
  revert init. induction ns as [|n ns IH]; intros init; [left; reflexivity|].
  cbn [fold_left]. destruct (IH (nmax init (f n))) as [E|(n' & Hn' & E)].
  - rewrite E. destruct (nmax_cases init (f n)) as [-> | ->]; [left; reflexivity|].
    right. exists n. split; [left; reflexivity | reflexivity].
  - right. exists n'. split; [right; exact Hn' | exact E].
Qed.

Lemma fold_nmax_from_neginf {A : Type} (f : A -> num) (ns : list A) :
  ns <> [] ->
  exists n, In n ns /\ fold_left (fun m n => nmax m (f n)) ns NegInf = f n.
Proof.
  destruct ns as [|n ns]; [congruence|]. intros _. cbn [fold_left].
  assert (E0 : nmax NegInf (f n) = f n) by (destruct (f n); reflexivity).
  rewrite E0. destruct (fold_nmax_attained f ns (f n)) as [E|(n' & Hn' & E)].
  - exists n. split; [left; reflexivity | exact E].
  - exists n'. split; [right; exact Hn' | exact E].
Qed.

Lemma fold_nmax_map {A : Type} (f : A -> num) (l : list A) (init : num) :
  fold_left nmax (map f l) init = fold_left (fun m x => nmax m (f x)) l init.
Proof. revert init. induction l as [|x l IH]; intros init; [reflexivity | simpl; apply IH]. Qed.

(** X20. In the second variant a box holds its lines: they are the label
    wrapped at [MAX_TEXT_WIDTH], the height is 20 a line plus 36, every
    line measures at most the width less 44, and a label with at least one
    line has a line that measures exactly that.  The width is [-Infinity]
    exactly for the labels that hold nothing but spaces. *)
Theorem second_variant_box_holds_its_lines
    (measureText : string -> Q)
    (d3_tree : Q -> Q -> TreeNode -> list nat -> Q * Q)
    (nodeSpacing : NodeSpacing) (padding : Q)
    (data : TreeNode) (expandableIds : gset prim) :
  exists L,
    V2.layout measureText d3_tree nodeSpacing padding (Some data) expandableIds = Some L /\
    forall n, In n (V2.nodes L) ->
      V2.pn_lines n = V2.wrapText measureText (V2.pn_label n) V2.MAX_TEXT_WIDTH /\
      num_eq (V2.pn_boxH n)
             (Fin (inject_Z (Z.of_nat (length (V2.pn_lines n))) * 20 + 36)) /\
      (forall l, In l (V2.pn_lines n) ->
         num_le (Fin (measureText l + 44)) (V2.pn_boxW n)) /\
      (V2.pn_lines n <> [] ->
       exists l, In l (V2.pn_lines n) /\ V2.pn_boxW n = (Fin (measureText l) + Fin (22 * 2))%num) /\
      (V2.pn_boxW n = NegInf <-> only_spaces (String_of (V2.pn_label n)) = true).
Proof.
  destruct (V2_layout_parts measureText d3_tree nodeSpacing padding
              data expandableIds) as (L & sx & sy & HL & Hn & _).
  exists L. split; [exact HL|]. intros n Hin. rewrite Hn in Hin.
  apply in_map_iff in Hin as (n0 & <- & Hin). apply in_map_iff in Hin as (h & <- & _).
  cbn [V2.shift V2.place V2.pn_boxH V2.pn_boxW V2.pn_label V2.pn_lines].
  set (lines := V2.wrapText measureText (label (hdata h)) V2.MAX_TEXT_WIDTH).
  unfold nmax_list. rewrite fold_nmax_map.
  assert (Hmax : lines <> [] ->
            exists l, In l lines /\
                      fold_left (fun m l => nmax m (Fin (measureText l))) lines NegInf =
                      Fin (measureText l)).
  { apply fold_nmax_from_neginf. }
  assert (Hup : forall l, In l lines ->
            num_le (Fin (measureText l))
                   (fold_left (fun m l => nmax m (Fin (measureText l))) lines NegInf)).
  { intros l Hl.
    apply (fold_nmax_low (fun l => Fin (measureText l)) lines NegInf);
      [intros; apply low_Fin | apply low_NegInf | exact Hl]. }
  split; [reflexivity|]. split; [|split; [|split]].
  - unfold V2.LINE_HEIGHT, V2.PADDING_Y. simpl. lra.
  - intros l Hl. specialize (Hup l Hl).
    destruct (Hmax ltac:(intros E; rewrite E in Hl; destruct Hl)) as (l0 & _ & E).
    rewrite E in *. unfold V2.PADDING_X. simpl in *. lra.
  - intros Hne. destruct (Hmax Hne) as (l0 & Hl0 & E). exists l0. split; [exact Hl0|].
    rewrite E. reflexivity.
  - rewrite <- (wrapText_nil_iff measureText (label (hdata h)) V2.MAX_TEXT_WIDTH).
    fold lines. split.
    + intros E. destruct lines as [|l ls] eqn:El; [reflexivity|].
      destruct (Hmax ltac:(discriminate)) as (l0 & _ & E0). rewrite E0 in E. discriminate.
    + intros ->. reflexivity.
Qed.

(** *** The collapsed root *)

Lemma V1_build_collapsed (t : TreeNode) (expanded : gset prim) :
  id t ∉ expanded -> V1.buildVisibleTree t expanded = Node (id t) (label t) [].
Proof.
  destruct t as [i l cs]. intros H. cbn [V1.buildVisibleTree id label].
  destruct (length _ =? 0)%nat; [reflexivity|].
  rewrite bool_decide_eq_false_2 by exact H. reflexivity.
Qed.

Lemma V2_build_collapsed (t : TreeNode) (expanded : gset prim) :
  id t ∉ expanded -> V2.buildVisibleTree t expanded = Node (id t) (label t) [].
Proof.
  destruct t as [i l cs]. intros H. cbn [V2.buildVisibleTree id label].
  rewrite bool_decide_eq_false_2 by exact H. reflexivity.
Qed.

Lemma V1_layout_single (d3_tree : Q -> Q -> TreeNode -> list nat -> Q * Q)
    (sp : NodeSpacing) (padding nodeRadius nodeLabelGap : Q) (i l : prim) (X : gset prim) :
  exists L n,
    V1.layout d3_tree sp padding nodeRadius nodeLabelGap (Some (Node i l [])) X = Some L /\
    V1.nodes L = [n] /\ V1.links L = [] /\
    V1.pn_id n = i /\ V1.pn_depth n = 0%nat /\
    num_eq (V1.pn_x n) (Fin padding) /\
    num_eq (V1.box_top n) (Fin padding) /\
    num_eq (V1.maxX (V1.bounds L))
           (Fin padding + Fin (V1.LABEL_X nodeRadius nodeLabelGap) + V1.pn_boxW n +
            Fin padding)%num /\
    num_eq (V1.maxY (V1.bounds L)) (Fin padding + V1.pn_boxH n + Fin padding)%num.
Proof.
  eexists _, _. split; [reflexivity|]. split; [reflexivity|]. split; [reflexivity|].
  split; [reflexivity|]. split; [reflexivity|].
  unfold V1.box_top.
  cbn [V1.nodes V1.bounds V1.maxX V1.maxY V1.shift V1.place V1.pn_x V1.pn_y V1.pn_boxH V1.pn_boxW
       V1.scan_all V1.scan fold_left map descendants hierarchy height children fold_right
       flat_map seq level app hdata hpath nmin nmax nadd nsub nneg nhalf num_eq].
  repeat split; first [ring | field].
Qed.

Lemma V2_layout_single (measureText : string -> Q)
    (d3_tree : Q -> Q -> TreeNode -> list nat -> Q * Q)
    (sp : NodeSpacing) (padding : Q) (i l : prim) (X : gset prim) :
  exists L n,
    V2.layout measureText d3_tree sp padding (Some (Node i l [])) X = Some L /\
    V2.nodes L = [n] /\ V2.links L = [] /\
    V2.pn_id n = i /\ V2.pn_depth n = 0%nat /\
    num_eq (V2.pn_x n) (Fin padding) /\
    num_eq (V2.box_top n) (Fin padding) /\
    num_eq (V2.maxY (V2.bounds L)) (Fin padding + V2.pn_boxH n + Fin padding)%num.
Proof.
  eexists _, _. split; [reflexivity|]. split; [reflexivity|]. split; [reflexivity|].
  split; [reflexivity|]. split; [reflexivity|].
  unfold V2.box_top.
  cbn [V2.nodes V2.bounds V2.maxX V2.maxY V2.shift V2.place V2.pn_x V2.pn_y V2.pn_boxH V2.pn_boxW
       V2.scan_all V2.scan fold_left map descendants hierarchy height children fold_right
       flat_map seq level app hdata hpath nmin nmax nadd nsub nneg nhalf num_eq].
  repeat split; first [ring | field].
Qed.

(** X21. While the id of the root is not expanded, as in the initial state
    of the component, the layout holds the root alone and no edge: its
    anchor is at [x = padding], the top of its box at [y = padding], and
    the bounds are the box with the padding on either side. *)
Theorem collapsed_root_is_laid_out_alone
    (measureText : string -> Q)
    (d3_tree : Q -> Q -> TreeNode -> list nat -> Q * Q)
    (nodeSpacing : NodeSpacing) (padding nodeRadius nodeLabelGap : Q)
    (t : TreeNode) (expanded expandableIds : gset prim) :
  id t ∉ expanded ->
  (exists L n,
     V1.layout d3_tree nodeSpacing padding nodeRadius nodeLabelGap
               (V1.visibleData (Some t) expanded) expandableIds = Some L /\
     V1.nodes L = [n] /\ V1.links L = [] /\
     V1.pn_id n = id t /\ V1.pn_depth n = 0%nat /\
     num_eq (V1.pn_x n) (Fin padding) /\
     num_eq (V1.box_top n) (Fin padding) /\
     num_eq (V1.maxX (V1.bounds L))
            (Fin padding + Fin (V1.LABEL_X nodeRadius nodeLabelGap) + V1.pn_boxW n +
             Fin padding)%num /\
     num_eq (V1.maxY (V1.bounds L)) (Fin padding + V1.pn_boxH n + Fin padding)%num) /\
  (exists L n,
     V2.layout measureText d3_tree nodeSpacing padding
               (V2.visibleData (Some t) expanded) expandableIds = Some L /\
     V2.nodes L = [n] /\ V2.links L = [] /\
     V2.pn_id n = id t /\ V2.pn_depth n = 0%nat /\
     num_eq (V2.pn_x n) (Fin padding) /\
     num_eq (V2.box_top n) (Fin padding) /\
     num_eq (V2.maxY (V2.bounds L)) (Fin padding + V2.pn_boxH n + Fin padding)%num).
Proof.
  intros H. cbn [V1.visibleData V2.visibleData].
  rewrite (V1_build_collapsed t expanded H), (V2_build_collapsed t expanded H).
  split; [apply V1_layout_single | apply V2_layout_single].
Qed.

Lemma collapsed_root_is_laid_out_alone_witness :
  exists L n,
    V2.layout measure10 Tidy.tidy spacing2 80
              (V2.visibleData (Some scenario_A_tree) ∅) {[ PStr "r" ]} = Some L /\
    V2.nodes L = [n] /\ V2.links L = [] /\
    V2.pn_id n = PStr "r" /\ V2.pn_depth n = 0%nat /\
    num_eq (V2.pn_x n) (Fin 80) /\
    num_eq (V2.box_top n) (Fin 80) /\
    num_eq (V2.maxY (V2.bounds L)) (Fin 80 + V2.pn_boxH n + Fin 80)%num.
Proof.
  apply (collapsed_root_is_laid_out_alone measure10 Tidy.tidy spacing2 80 7 14
           scenario_A_tree ∅ {[ PStr "r" ]}).
  apply (bool_decide_unpack _). vm_compute. exact I.
Defined.

(** *** Colours and signs *)

Lemma descendants_below_root (t : TreeNode) :
  Forall (fun h => hdepth h <> 0%nat)
         (flat_map (level (hierarchy t)) (seq 1 (height t))).
Proof.
  apply Forall_forall. intros h Hh. apply list_elem_of_In, in_flat_map in Hh as (k & Hk & Hh).
  apply in_seq in Hk. apply level_spec in Hh as [Hlen [Hd _]]. lia.
Qed.

(** X22. The first node of the layout is the root of the visible tree and
    is drawn with the root colours, whether or not it has children; every
    other node is drawn with the branch colours when its id is expandable
    and with the leaf colours otherwise. *)
Theorem root_colours_go_to_the_first_node
    (measureText : string -> Q)
    (d3_tree : Q -> Q -> TreeNode -> list nat -> Q * Q)
    (nodeSpacing : NodeSpacing) (padding nodeRadius nodeLabelGap : Q)
    (data : TreeNode) (expandableIds : gset prim) :
  (exists L n rest,
     V1.layout d3_tree nodeSpacing padding nodeRadius nodeLabelGap (Some data) expandableIds
       = Some L /\
     V1.nodes L = n :: rest /\ V1.pn_id n = id data /\ V1.palette n = Root /\
     Forall (fun m => V1.palette m =
                        if bool_decide (V1.pn_id m ∈ expandableIds) then Branch else Leaf)
            rest) /\
  (exists L n rest,
     V2.layout measureText d3_tree nodeSpacing padding (Some data) expandableIds = Some L /\
     V2.nodes L = n :: rest /\ V2.pn_id n = id data /\ V2.palette n = Root /\
     Forall (fun m => V2.palette m =
                        if bool_decide (V2.pn_id m ∈ expandableIds) then Branch else Leaf)
            rest).
Proof.
  pose proof (descendants_below_root data) as Hrest.
  split.
  - destruct (V1_layout_parts d3_tree nodeSpacing padding nodeRadius nodeLabelGap
                data expandableIds) as (L & sx & sy & HL & Hn & _).
    rewrite descendants_root_first in Hn. cbn [map] in Hn.
    eexists L, _, _. split; [exact HL|]. split; [exact Hn|].
    split; [reflexivity|]. split; [reflexivity|].
    rewrite Forall_map, Forall_map. eapply Forall_impl; [exact Hrest|].
    intros h Hd. unfold V1.palette. cbn [V1.shift V1.place V1.pn_depth V1.pn_hasChildren V1.pn_id].
    destruct (Nat.eqb_spec (hdepth h) 0); [contradiction | reflexivity].
  - destruct (V2_layout_parts measureText d3_tree nodeSpacing padding
                data expandableIds) as (L & sx & sy & HL & Hn & _).
    rewrite descendants_root_first in Hn. cbn [map] in Hn.
    eexists L, _, _. split; [exact HL|]. split; [exact Hn|].
    split; [reflexivity|]. split; [reflexivity|].
    rewrite Forall_map, Forall_map. eapply Forall_impl; [exact Hrest|].
    intros h Hd. unfold V2.palette. cbn [V2.shift V2.place V2.pn_depth V2.pn_hasChildren V2.pn_id].
    destruct (Nat.eqb_spec (hdepth h) 0); [contradiction | reflexivity].
Qed.

Lemma tree_ids_subtrees (t : TreeNode) : tree_ids t = map id (subtrees t).
Proof.
  induction t as [i l cs IH] using TreeNode_ind'. cbn [tree_ids subtrees map id]. f_equal.
  induction IH as [|c cs Hc _ IHcs]; [reflexivity|].
  cbn [flat_map]. rewrite List.map_app, Hc, IHcs. reflexivity.
Qed.

Lemma parent_with_id_unique (t m : TreeNode) :
  NoDup (tree_ids t) -> In m (subtrees t) ->
  parent_with_id t (id m) <-> children m <> [].
Proof.
  intros Hnd Hm. split.
  - intros (n & Hn & Hk & Hi). rewrite tree_ids_subtrees in Hnd.
    rewrite <- (NoDup_map_inj id _ n m Hnd Hn Hm Hi). exact Hk.
  - intros Hk. exists m. auto.
Qed.

Lemma Forall2_map_r_in {A B : Type} (P : A -> B -> Prop) (f : A -> B) (l : list A) :
  (forall x, In x l -> P x (f x)) -> Forall2 P l (map f l).
Proof.
  induction l as [|x l IH]; intros H; constructor.
  - apply H. left. reflexivity.
  - apply IH. intros y Hy. apply H. right. exact Hy.
Qed.

Lemma visible_sign (t : TreeNode) (expanded : gset prim) (h : HNode) :
  NoDup (tree_ids t) ->
  In h (descendants (V2.buildVisibleTree t expanded)) ->
  (id (hdata h) ∈ V2.collectExpandableIds t ∅ /\ id (hdata h) ∈ expanded <->
   children (hdata h) <> []) /\
  (id (hdata h) ∈ V2.collectExpandableIds t ∅ <-> parent_with_id t (id (hdata h))).
Proof.
  intros Hnd Hh. apply visible_datum in Hh as (m & _ & Hm & ->).
  rewrite V2_build_id, V2_build_children, collect_spec.
  pose proof (parent_with_id_unique t m Hnd Hm) as Hp.
  split; [|set_solver]. destruct (bool_decide (id m ∈ expanded)) eqn:He.
  - apply bool_decide_eq_true_1 in He. split.
    + intros [[H|H] _]; [set_solver|]. apply Hp in H.
      destruct (children m); [congruence | discriminate].
    + intros H. split; [|exact He]. right. apply Hp.
      destruct (children m); [exact H | discriminate].
  - apply bool_decide_eq_false_1 in He. split; [intros [_ H]; contradiction | congruence].
Qed.

(** X23. When the ids of the canonical tree are pairwise distinct, the
    sign of a node tells what the layout shows: the minus sign is on
    exactly the nodes whose children are laid out, the plus sign on the
    nodes that have children in the canonical tree and none laid out, and
    a node without children carries no sign. *)
Theorem sign_tells_whether_children_are_shown
    (measureText : string -> Q)
    (d3_tree : Q -> Q -> TreeNode -> list nat -> Q * Q)
    (nodeSpacing : NodeSpacing) (padding nodeRadius nodeLabelGap : Q)
    (t : TreeNode) (expanded : gset prim) :
  NoDup (tree_ids t) ->
  (clean t = true ->
   exists L,
     V1.layout d3_tree nodeSpacing padding nodeRadius nodeLabelGap
               (V1.visibleData (Some t) expanded) (V1.expandableIds (Some t)) = Some L /\
     Forall2 (fun h n =>
                V1.pn_id n = id (hdata h) /\
                (V1.indicator expanded n = Some Minus <-> children (hdata h) <> []) /\
                (V1.indicator expanded n = Some Plus <->
                 children (hdata h) = [] /\ parent_with_id t (id (hdata h))) /\
                (V1.indicator expanded n = None <-> ~ parent_with_id t (id (hdata h))))
             (descendants (V1.buildVisibleTree t expanded)) (V1.nodes L)) /\
  (exists L,
     V2.layout measureText d3_tree nodeSpacing padding
               (V2.visibleData (Some t) expanded) (V2.expandableIds (Some t)) = Some L /\
     Forall2 (fun h n =>
                V2.pn_id n = id (hdata h) /\
                (V2.indicator expanded n = Some Minus <-> children (hdata h) <> []) /\
                (V2.indicator expanded n = Some Plus <->
                 children (hdata h) = [] /\ parent_with_id t (id (hdata h))) /\
                (V2.indicator expanded n = None <-> ~ parent_with_id t (id (hdata h))))
             (descendants (V2.buildVisibleTree t expanded)) (V2.nodes L)).
Proof.
  intros Hnd.
  assert (Hsign : forall (h : HNode) (has : bool) (ind : option Indicator),
            In h (descendants (V2.buildVisibleTree t expanded)) ->
            has = bool_decide (id (hdata h) ∈ V2.collectExpandableIds t ∅) ->
            ind = (if has
                   then Some (if bool_decide (id (hdata h) ∈ expanded) then Minus else Plus)
                   else None) ->
            (ind = Some Minus <-> children (hdata h) <> []) /\
            (ind = Some Plus <-> children (hdata h) = [] /\ parent_with_id t (id (hdata h))) /\
            (ind = None <-> ~ parent_with_id t (id (hdata h)))).
  { intros h has ind Hh -> ->. destruct (visible_sign t expanded h Hnd Hh) as [H1 H2].
    destruct (bool_decide (id (hdata h) ∈ V2.collectExpandableIds t ∅)) eqn:Hx.
    - apply bool_decide_eq_true_1 in Hx. pose proof (proj1 H2 Hx) as Hp.
      destruct (bool_decide (id (hdata h) ∈ expanded)) eqn:He.
      + apply bool_decide_eq_true_1 in He. pose proof (proj1 H1 (conj Hx He)) as Hk.
        split; [tauto|]. split; [|split; [discriminate | tauto]].
        split; [discriminate | intros [Hk' _]; contradiction].
      + apply bool_decide_eq_false_1 in He.
        assert (Hk : children (hdata h) = []).
        { destruct (children (hdata h)) eqn:Ek; [reflexivity|].
          exfalso. apply He. apply H1. discriminate. }
        split; [split; [discriminate | intros Hk'; contradiction]|].
        split; [tauto|]. split; [discriminate | tauto].
    - apply bool_decide_eq_false_1 in Hx.
      assert (Hp : ~ parent_with_id t (id (hdata h))) by (intros Hp; apply Hx, H2, Hp).
      assert (Hk : children (hdata h) = []).
      { destruct (children (hdata h)) eqn:Ek; [reflexivity|].
        exfalso. apply Hx. apply H1. discriminate. }
      split; [split; [discriminate | intros Hk'; contradiction]|].
      split; [split; [discriminate | tauto] | tauto]. }
  split.
  - intros Hclean. cbn [V1.visibleData V1.expandableIds].
    rewrite (build_variants_agree t expanded Hclean), collect_variants_agree.
    destruct (V1_layout_parts d3_tree nodeSpacing padding nodeRadius nodeLabelGap
                (V2.buildVisibleTree t expanded) (V2.collectExpandableIds t ∅))
      as (L & sx & sy & HL & Hn & _).
    exists L. split; [exact HL|]. rewrite Hn, map_map.
    apply Forall2_map_r_in. intros h Hh. split; [reflexivity|].
    eapply Hsign; [exact Hh | reflexivity | reflexivity].
  - cbn [V2.visibleData V2.expandableIds].
    destruct (V2_layout_parts measureText d3_tree nodeSpacing padding
                (V2.buildVisibleTree t expanded) (V2.collectExpandableIds t ∅))
      as (L & sx & sy & HL & Hn & _).
    exists L. split; [exact HL|]. rewrite Hn, map_map.
    apply Forall2_map_r_in. intros h Hh. split; [reflexivity|].
    eapply Hsign; [exact Hh | reflexivity | reflexivity].
Qed.

Lemma sign_tells_whether_children_are_shown_witness :
  exists L,
    V2.layout measure10 Tidy.tidy spacing2 80
              (V2.visibleData (Some scenario_A_tree) {[ PStr "r" ]})
              (V2.expandableIds (Some scenario_A_tree)) = Some L /\
    Forall2 (fun h n =>
               V2.pn_id n = id (hdata h) /\
               (V2.indicator {[ PStr "r" ]} n = Some Minus <-> children (hdata h) <> []) /\
               (V2.indicator {[ PStr "r" ]} n = Some Plus <->
                children (hdata h) = [] /\ parent_with_id scenario_A_tree (id (hdata h))) /\
               (V2.indicator {[ PStr "r" ]} n = None <->
                ~ parent_with_id scenario_A_tree (id (hdata h))))
            (descendants (V2.buildVisibleTree scenario_A_tree {[ PStr "r" ]})) (V2.nodes L).
Proof.
  apply (sign_tells_whether_children_are_shown measure10 Tidy.tidy spacing2 80 7 14
           scenario_A_tree {[ PStr "r" ]}).
  apply (bool_decide_unpack (NoDup _)). vm_compute. exact I.
Defined.

(** *** The far side of the bounds *)

(** X24. The bounds are tight on the far side: [maxX] is the farthest right
    extent the scan saw of a node, plus the padding, and [maxY] the lowest
    box bottom plus the padding; a node of the layout attains each. *)
Theorem bounds_are_tight
    (measureText : string -> Q)
    (d3_tree : Q -> Q -> TreeNode -> list nat -> Q * Q)
    (nodeSpacing : NodeSpacing) (padding nodeRadius nodeLabelGap : Q)
    (data : TreeNode) (expandableIds : gset prim) :
  (exists L,
     V1.layout d3_tree nodeSpacing padding nodeRadius nodeLabelGap (Some data) expandableIds
       = Some L /\
     (exists n, In n (V1.nodes L) /\
        num_eq (V1.maxX (V1.bounds L))
               (V1.pn_x n + Fin (V1.LABEL_X nodeRadius nodeLabelGap) + V1.pn_boxW n +
                Fin padding)%num) /\
     (exists n, In n (V1.nodes L) /\
        num_eq (V1.maxY (V1.bounds L)) (V1.box_bottom n + Fin padding)%num)) /\
  (exists L,
     V2.layout measureText d3_tree nodeSpacing padding (Some data) expandableIds = Some L /\
     (exists n, In n (V2.nodes L) /\
        num_eq (V2.maxX (V2.bounds L)) (V2.pn_x n + V2.pn_boxW n + Fin 40 + Fin padding)%num) /\
     (exists n, In n (V2.nodes L) /\
        num_eq (V2.maxY (V2.bounds L)) (V2.box_bottom n + Fin padding)%num)).
Proof.
  split.
  - destruct (V1.scan_all nodeRadius nodeLabelGap
                (map (V1.place d3_tree nodeSpacing data expandableIds) (descendants data)))
      as [[[minX maxX] minY] maxY] eqn:Hscan.
    destruct (V1_layout_shape d3_tree nodeSpacing padding nodeRadius nodeLabelGap
                data expandableIds _ _ _ _ Hscan) as (lks & _ & HL).
    pose proof (V1_descendants_nonempty d3_tree nodeSpacing data expandableIds) as Hne.
    assert (Hwf : forall n, In n (map (V1.place d3_tree nodeSpacing data expandableIds)
                                      (descendants data)) -> wf1 n).
    { intros n Hn. apply in_map_iff in Hn as (h & <- & _). apply V1_place_wf. }
    destruct (V1_scan_mins nodeRadius nodeLabelGap _ _ _ _ _ Hne Hwf Hscan)
      as (mx & my & -> & ->).
    unfold V1.scan_all in Hscan. rewrite V1_scan_split in Hscan.
    injection Hscan as _ EmaxX _ EmaxY.
    destruct (fold_nmax_from_neginf
                (fun n => (V1.pn_x n + Fin (V1.LABEL_X nodeRadius nodeLabelGap) +
                           V1.pn_boxW n)%num) _ Hne) as (n0 & Hn0 & E0).
    destruct (fold_nmax_from_neginf V1.box_bottom _ Hne) as (n1 & Hn1 & E1).
    assert (HmaxX : maxX = (V1.pn_x n0 + Fin (V1.LABEL_X nodeRadius nodeLabelGap) +
                            V1.pn_boxW n0)%num) by (rewrite <- EmaxX; exact E0).
    assert (HmaxY : maxY = V1.box_bottom n1) by (rewrite <- EmaxY; exact E1).
    clear EmaxX EmaxY E0 E1. subst maxX maxY.
    eexists. split; [exact HL|]. cbn [V1.nodes V1.bounds V1.maxX V1.maxY]. split.
    + eexists. split; [apply in_map; exact Hn0|].
      destruct (wf1_inv n0 (Hwf n0 Hn0)) as (x & y & h & w & Ex & Ey & Eh & Ew).
      cbn [V1.shift V1.pn_x V1.pn_boxW]. rewrite Ex, Ew. simpl. ring.
    + eexists. split; [apply in_map; exact Hn1|].
      destruct (wf1_inv n1 (Hwf n1 Hn1)) as (x & y & h & w & Ex & Ey & Eh & Ew).
      unfold V1.box_bottom. cbn [V1.shift V1.pn_y V1.pn_boxH]. rewrite Ey, Eh. simpl. ring.
  - destruct (V2.scan_all (map (V2.place measureText d3_tree nodeSpacing data expandableIds)
                               (descendants data)))
      as [[[minX minY] maxX] maxY] eqn:Hscan.
    destruct (V2_layout_shape measureText d3_tree nodeSpacing padding
                data expandableIds _ _ _ _ Hscan) as (lks & _ & HL).
    pose proof (V2_descendants_nonempty measureText d3_tree nodeSpacing data expandableIds)
      as Hne.
    assert (Hwf : forall n, In n (map (V2.place measureText d3_tree nodeSpacing data
                                                expandableIds)
                                      (descendants data)) -> wf2 n).
    { intros n Hn. apply in_map_iff in Hn as (h & <- & _). apply V2_place_wf. }
    destruct (V2_scan_mins _ _ _ _ _ Hne Hwf Hscan) as (mx & my & -> & ->).
    unfold V2.scan_all in Hscan. rewrite V2_scan_split in Hscan.
    injection Hscan as _ _ EmaxX EmaxY.
    destruct (fold_nmax_from_neginf
                (fun n => (V2.pn_x n + V2.pn_boxW n + Fin 40)%num) _ Hne)
      as (n0 & Hn0 & E0).
    destruct (fold_nmax_from_neginf V2.box_bottom _ Hne) as (n1 & Hn1 & E1).
    assert (HmaxX : maxX = (V2.pn_x n0 + V2.pn_boxW n0 + Fin 40)%num)
      by (rewrite <- EmaxX; exact E0).
    assert (HmaxY : maxY = V2.box_bottom n1) by (rewrite <- EmaxY; exact E1).
    clear EmaxX EmaxY E0 E1. subst maxX maxY.
    eexists. split; [exact HL|]. cbn [V2.nodes V2.bounds V2.maxX V2.maxY]. split.
    + eexists. split; [apply in_map; exact Hn0|].
      destruct (wf2_inv n0 (Hwf n0 Hn0)) as (x & y & h & Ex & Ey & Eh & Ew).
      cbn [V2.shift V2.pn_x V2.pn_boxW]. rewrite Ex.
      destruct Ew as [-> | (w & ->)]; simpl; [exact I | ring].
    + eexists. split; [apply in_map; exact Hn1|].
      destruct (wf2_inv n1 (Hwf n1 Hn1)) as (x & y & h & Ex & Ey & Eh & Ew).
      unfold V2.box_bottom. cbn [V2.shift V2.pn_y V2.pn_boxH]. rewrite Ey, Eh. simpl. ring.
Qed.

(** *** The edge curves *)

Lemma Forall2_in_r {A B : Type} (P : A -> B -> Prop) (l : list A) (k : list B) (y : B) :
  Forall2 P l k -> In y k -> exists x, In x l /\ P x y.
Proof.
  induction 1 as [|x y' l k Hxy _ IH]; intros Hy; [destruct Hy|].
  destruct Hy as [<-|Hy].
  - exists x. split; [left; reflexivity | exact Hxy].
  - destruct (IH Hy) as (x' & Hx' & Hp). exists x'. split; [right; exact Hx' | exact Hp].
Qed.

Lemma tidy_level_gap : level_gap Tidy.tidy.
Proof. intros dx dy data p. reflexivity. Qed.

Lemma level_gap_child (d3_tree : Q -> Q -> TreeNode -> list nat -> Q * Q)
    (dx dy : Q) (data : TreeNode) (p : list nat) (i : nat) :
  level_gap d3_tree ->
  (snd (d3_tree dx dy data (p ++ [i])) == snd (d3_tree dx dy data p) + dy)%Q.
Proof.
  intros Hgap.
  pose proof (Hgap dx dy data p) as H1. pose proof (Hgap dx dy data (p ++ [i])) as H2.
  rewrite H1, H2, length_app, Nat.add_comm. cbn [length Nat.add].
  rewrite Nat2Z.inj_succ. unfold Z.succ. rewrite inject_Z_plus. ring.
Qed.

Lemma curve_within_run (run : Q) :
  (0 <= run)%Q ->
  (0 <= Qmin 200 (Qabs run * (3 # 5)) <= run)%Q /\
  (Qmin 200 (Qabs run * (3 # 5)) == Qmin 200 (run * (3 # 5)))%Q.
Proof.
  intros Hrun. rewrite (Qabs_pos run Hrun). split; [|reflexivity]. split.
  - apply Q.min_glb; [discriminate | lra].
  - apply Qle_trans with (run * (3 # 5))%Q; [apply Q.le_min_r | lra].
Qed.

(** X25. As the levels of the tidy tree are [nodeSpacing.x] apart, every
    edge of a layout of the second variant covers the same horizontal run,
    [nodeSpacing.x + 9], whatever the boxes: with distinct ids and a
    spacing that is not negative, the two control points of its curve sit
    [min(200, 0.6 (nodeSpacing.x + 9))] inside of its two ends and between
    them.  In the first variant the run of an edge is [nodeSpacing.x] less
    the width of the parent's box, and both control points sit midway. *)
Theorem edges_span_one_level
    (measureText : string -> Q)
    (d3_tree : Q -> Q -> TreeNode -> list nat -> Q * Q)
    (nodeSpacing : NodeSpacing) (padding nodeRadius nodeLabelGap : Q)
    (data : TreeNode) (expandableIds : gset prim) :
  level_gap d3_tree ->
  distinct_ids data ->
  (0 <= spacing_x nodeSpacing)%Q ->
  (exists L,
     V2.layout measureText d3_tree nodeSpacing padding (Some data) expandableIds = Some L /\
     forall l, In l (V2.links L) ->
       exists sx tx c1 c2 : Q,
         px (source l) = Fin sx /\ px (target l) = Fin tx /\
         px (c_ctrl1 (V2.diagonal (source l) (target l))) = Fin c1 /\
         px (c_ctrl2 (V2.diagonal (source l) (target l))) = Fin c2 /\
         (tx - sx == spacing_x nodeSpacing + 9)%Q /\
         (c1 - sx == Qmin 200 ((spacing_x nodeSpacing + 9) * (3 # 5)))%Q /\
         (tx - c2 == Qmin 200 ((spacing_x nodeSpacing + 9) * (3 # 5)))%Q /\
         (sx <= c1 <= tx)%Q /\ (sx <= c2 <= tx)%Q) /\
  (exists L,
     V1.layout d3_tree nodeSpacing padding nodeRadius nodeLabelGap (Some data) expandableIds
       = Some L /\
     forall l, In l (V1.links L) ->
       exists (s : V1.PositionedNode) (w sx tx m : Q),
         In s (V1.nodes L) /\ py (source l) = V1.pn_y s /\ V1.pn_boxW s = Fin w /\
         px (source l) = Fin sx /\ px (target l) = Fin tx /\
         px (c_ctrl1 (V1.diagonal (source l) (target l))) = Fin m /\
         px (c_ctrl2 (V1.diagonal (source l) (target l))) = Fin m /\
         (tx - sx == spacing_x nodeSpacing - w)%Q /\
         (m + m == sx + tx)%Q).
Proof.
  intros Hgap Hnd Hsp. split.
  - destruct (V2_layout_parts measureText d3_tree nodeSpacing padding
                data expandableIds) as (L & shx & shy & HL & Hn & Hlk).
    exists L. split; [exact HL|]. intros l Hl.
    apply mapM_Some_1 in Hlk.
    destruct (Forall2_in_r _ _ _ _ Hlk Hl) as ([h c] & Hin & Hmk).
    pose proof (hlinks_in_descendants _ _ Hin) as [Hh Hc]. cbn [fst snd] in Hh, Hc.
    apply in_hlinks in Hin as [_ Hch]. apply in_hchildren in Hch as (i & n & _ & ->).
    unfold V2.mkLink in Hmk. cbn [fst snd] in Hmk. rewrite Hn in Hmk.
    rewrite (V2_byId_lookup measureText d3_tree nodeSpacing data expandableIds _ _ _ Hnd Hh),
            (V2_byId_lookup measureText d3_tree nodeSpacing data expandableIds _ _ _ Hnd Hc)
      in Hmk.
    injection Hmk as <-.
    unfold V2.diagonal.
    cbn [px py c_ctrl1 c_ctrl2 source target V2.shift V2.place V2.pn_x V2.pn_y hpath
         nsub nadd nneg nabs nscale nmin].
    pose proof (level_gap_child d3_tree (spacing_y nodeSpacing) (spacing_x nodeSpacing)
                  data (hpath h) i Hgap) as Hstep.
    set (a := snd (d3_tree (spacing_y nodeSpacing) (spacing_x nodeSpacing) data (hpath h)))
      in *.
    set (b := snd (d3_tree (spacing_y nodeSpacing) (spacing_x nodeSpacing) data
                     (hpath h ++ [i]))) in *.
    assert (Hrun : (b + shx + V2.CONNECTOR_RADIUS + - (a + shx)
                    == spacing_x nodeSpacing + 9)%Q).
    { unfold V2.CONNECTOR_RADIUS. rewrite Hstep. ring. }
    assert (H0 : (0 <= b + shx + V2.CONNECTOR_RADIUS + - (a + shx))%Q)
      by (rewrite Hrun; lra).
    destruct (curve_within_run _ H0) as [[Hc0 Hc1] Hc2].
    set (curve := Qmin 200
                    (Qabs (b + shx + V2.CONNECTOR_RADIUS + - (a + shx)) * (3 # 5))) in *.
    assert (Ecurve : (curve == Qmin 200 ((spacing_x nodeSpacing + 9) * (3 # 5)))%Q).
    { rewrite Hc2. rewrite Hrun. reflexivity. }
    eexists _, _, _, _.
    split; [reflexivity|]. split; [reflexivity|].
    split; [reflexivity|]. split; [reflexivity|].
    split; [unfold Qminus; exact Hrun|].
    split; [rewrite <- Ecurve; ring|]. split; [rewrite <- Ecurve; ring|].
    split; split; lra.
  - destruct (V1_layout_parts d3_tree nodeSpacing padding nodeRadius nodeLabelGap
                data expandableIds) as (L & shx & shy & HL & Hn & Hlk).
    exists L. split; [exact HL|]. intros l Hl.
    apply mapM_Some_1 in Hlk.
    destruct (Forall2_in_r _ _ _ _ Hlk Hl) as ([h c] & Hin & Hmk).
    pose proof (hlinks_in_descendants _ _ Hin) as [Hh Hc]. cbn [fst snd] in Hh, Hc.
    apply in_hlinks in Hin as [_ Hch]. apply in_hchildren in Hch as (i & n & _ & ->).
    unfold V1.mkLink in Hmk. cbn [fst snd] in Hmk. rewrite Hn in Hmk.
    rewrite (V1_byId_lookup d3_tree nodeSpacing data expandableIds _ _ _ Hnd Hh),
            (V1_byId_lookup d3_tree nodeSpacing data expandableIds _ _ _ Hnd Hc)
      in Hmk.
    injection Hmk as <-.
    pose proof (level_gap_child d3_tree (spacing_y nodeSpacing) (spacing_x nodeSpacing)
                  data (hpath h) i Hgap) as Hstep.
    exists (V1.shift (Fin shx) (Fin shy) (V1.place d3_tree nodeSpacing data expandableIds h)).
    unfold V1.diagonal.
    cbn [px py c_ctrl1 c_ctrl2 source target V1.shift V1.place V1.pn_x V1.pn_y V1.pn_boxW
         hpath hdata nsub nadd nneg nmin nmax nhalf].
    eexists _, _, _, _.
    split; [rewrite Hn; apply in_map, in_map; exact Hh|].
    split; [reflexivity|]. split; [reflexivity|].
    split; [reflexivity|]. split; [reflexivity|].
    split; [reflexivity|]. split; [reflexivity|].
    split; [rewrite Hstep; ring | field].
Qed.

Lemma edges_span_one_level_witness :
  exists L,
    V2.layout measure10 Tidy.tidy spacing2 80 (Some scenario_A_tree) {[ PStr "r" ]} = Some L /\
    forall l, In l (V2.links L) ->
      exists sx tx c1 c2 : Q,
        px (source l) = Fin sx /\ px (target l) = Fin tx /\
        px (c_ctrl1 (V2.diagonal (source l) (target l))) = Fin c1 /\
        px (c_ctrl2 (V2.diagonal (source l) (target l))) = Fin c2 /\
        (tx - sx == spacing_x spacing2 + 9)%Q /\
        (c1 - sx == Qmin 200 ((spacing_x spacing2 + 9) * (3 # 5)))%Q /\
        (tx - c2 == Qmin 200 ((spacing_x spacing2 + 9) * (3 # 5)))%Q /\
        (sx <= c1 <= tx)%Q /\ (sx <= c2 <= tx)%Q.
Proof.
  apply (edges_span_one_level measure10 Tidy.tidy spacing2 80 7 14
           scenario_A_tree {[ PStr "r" ]}).
  - intros dx dy data p. reflexivity.
  - apply scenario_A_distinct_ids.
  - discriminate.
Defined.

(** X26. Every edge of a layout is drawn from finite numbers: the two ends
    and the two control points of its curve are finite, in both variants,
    also when a box of the second variant is [-Infinity] wide. *)
Theorem edge_curves_are_finite
    (measureText : string -> Q)
    (d3_tree : Q -> Q -> TreeNode -> list nat -> Q * Q)
    (nodeSpacing : NodeSpacing) (padding nodeRadius nodeLabelGap : Q)
    (data : TreeNode) (expandableIds : gset prim) :
  (exists L,
     V1.layout d3_tree nodeSpacing padding nodeRadius nodeLabelGap (Some data) expandableIds
       = Some L /\
     forall l, In l (V1.links L) -> finite_curve (V1.diagonal (source l) (target l))) /\
  (exists L,
     V2.layout measureText d3_tree nodeSpacing padding (Some data) expandableIds = Some L /\
     forall l, In l (V2.links L) -> finite_curve (V2.diagonal (source l) (target l))).
Proof.
  split.
  - destruct (V1_layout_parts d3_tree nodeSpacing padding nodeRadius nodeLabelGap
                data expandableIds) as (L & sx & sy & HL & Hn & Hlk).
    exists L. split; [exact HL|]. intros l Hl.
    apply mapM_Some_1 in Hlk.
    destruct (Forall2_in_r _ _ _ _ Hlk Hl) as (lk & _ & Hmk).
    unfold V1.mkLink in Hmk. change (V1.byId_of ?ns) with (index_by V1.pn_id ns) in Hmk.
    destruct (index_by V1.pn_id _ !! id (hdata (fst lk))) as [s|] eqn:Es; [|discriminate].
    destruct (index_by V1.pn_id _ !! id (hdata (snd lk))) as [c|] eqn:Ec; [|discriminate].
    apply index_by_lookup_in in Es as [Es _]. apply index_by_lookup_in in Ec as [Ec _].
    rewrite Hn in Es, Ec.
    apply in_map_iff in Es as (s0 & <- & Es). apply in_map_iff in Es as (hs & <- & _).
    apply in_map_iff in Ec as (c0 & <- & Ec). apply in_map_iff in Ec as (hc & <- & _).
    injection Hmk as <-.
    unfold V1.diagonal, finite_curve, finite_point, fin. simpl. repeat split.
  - destruct (V2_layout_parts measureText d3_tree nodeSpacing padding
                data expandableIds) as (L & sx & sy & HL & Hn & Hlk).
    exists L. split; [exact HL|]. intros l Hl.
    apply mapM_Some_1 in Hlk.
    destruct (Forall2_in_r _ _ _ _ Hlk Hl) as (lk & _ & Hmk).
    unfold V2.mkLink in Hmk. change (V2.byId_of ?ns) with (index_by V2.pn_id ns) in Hmk.
    destruct (index_by V2.pn_id _ !! id (hdata (fst lk))) as [s|] eqn:Es; [|discriminate].
    destruct (index_by V2.pn_id _ !! id (hdata (snd lk))) as [c|] eqn:Ec; [|discriminate].
    apply index_by_lookup_in in Es as [Es _]. apply index_by_lookup_in in Ec as [Ec _].
    rewrite Hn in Es, Ec.
    apply in_map_iff in Es as (s0 & <- & Es). apply in_map_iff in Es as (hs & <- & _).
    apply in_map_iff in Ec as (c0 & <- & Ec). apply in_map_iff in Ec as (hc & <- & _).
    injection Hmk as <-.
    unfold V2.diagonal, finite_curve, finite_point, fin.
    cbn [px py c_from c_to c_ctrl1 c_ctrl2 source target V2.shift V2.place V2.pn_x V2.pn_y
         nsub nadd nneg nabs nscale nmin to_Q].
    repeat split.
Qed.

(** *** Without a document *)

Lemma wrap_fold_never_pushes (measureText : string -> Q) (maxWidth : Q)
    (words : list string) (line : string) :
  (forall s, (measureText s <= maxWidth)%Q) ->
  fst (fold_left (V2.wrap_step measureText maxWidth) words ([], line)) = [].
Proof.
  intros Hfit. revert line. induction words as [|w ws IH]; intros line; [reflexivity|].
  cbn [fold_left]. rewrite step_eq.
  destruct (truthy (PStr line)); [|apply IH].
  rewrite (proj2 (Qle_bool_iff _ _) (Hfit _)). apply IH.
Qed.

Lemma wrap_one_line (measureText : string -> Q) (maxWidth : Q) (text : prim) :
  (forall s, (measureText s <= maxWidth)%Q) ->
  (length (V2.wrapText measureText text maxWidth) <= 1)%nat.
Proof.
  intros Hfit. unfold V2.wrapText. rewrite wrap_words_finish.
  pose proof (wrap_fold_never_pushes measureText maxWidth
                (V2.split_space (String_of text)) "" Hfit) as H.
  destruct (fold_left _ _ _) as [lines line]. cbn [fst] in H. subst lines.
  unfold wrap_finish. cbn [fst snd]. destruct (truthy (PStr line)); simpl; lia.
Qed.

(** X27. Where there is no [document], [measureText] answers 100 for every
    text, so [wrapText] at a width of 100 or more never breaks a line: it
    returns at most one line, the text itself when the text has no empty
    word, and every box of the layout whose label is not blank is 144 wide
    and 56 high. *)
Theorem no_document_no_line_break
    (d3_tree : Q -> Q -> TreeNode -> list nat -> Q * Q)
    (nodeSpacing : NodeSpacing) (padding : Q)
    (data : TreeNode) (expandableIds : gset prim) (text : prim) (maxWidth : Q) :
  (100 <= maxWidth)%Q ->
  (length (V2.wrapText V2.measureText_no_document text maxWidth) <= 1)%nat /\
  (Forall (fun w => w <> "") (V2.split_space (String_of text)) ->
   V2.wrapText V2.measureText_no_document text maxWidth = [String_of text]) /\
  (exists L,
     V2.layout V2.measureText_no_document d3_tree nodeSpacing padding (Some data)
               expandableIds = Some L /\
     forall n, In n (V2.nodes L) ->
       only_spaces (String_of (V2.pn_label n)) = false ->
       length (V2.pn_lines n) = 1%nat /\
       num_eq (V2.pn_boxW n) (Fin 144) /\ num_eq (V2.pn_boxH n) (Fin 56)).
Proof.
  intros Hmax.
  assert (Hone : forall (t : prim) (w : Q), (100 <= w)%Q ->
            (length (V2.wrapText V2.measureText_no_document t w) <= 1)%nat).
  { intros t w Hw. apply wrap_one_line. intros s. exact Hw. }
  split; [apply Hone; exact Hmax|]. split.
  - intros Hall. specialize (Hone text maxWidth Hmax).
    pose proof (wrap_words_join V2.measureText_no_document maxWidth _ Hall) as Hjoin.
    rewrite join_split_space in Hjoin. fold (V2.wrapText V2.measureText_no_document text maxWidth) in Hjoin.
    destruct (V2.wrapText V2.measureText_no_document text maxWidth) as [|l [|l' ls]] eqn:E.
    + exfalso. apply wrapText_nil_iff, only_spaces_split in E.
      destruct (split_space_cons (String_of text)) as (w & ws & Ew). rewrite Ew in *.
      apply Forall_cons in Hall as [Hw _], E as [Ew' _]. contradiction.
    + simpl in Hjoin. rewrite Hjoin. reflexivity.
    + simpl in Hone. lia.
  - destruct (V2_layout_parts V2.measureText_no_document d3_tree nodeSpacing padding
                data expandableIds) as (L & sx & sy & HL & Hn & _).
    exists L. split; [exact HL|]. intros n Hin Hblank. rewrite Hn in Hin.
    apply in_map_iff in Hin as (n0 & <- & Hin). apply in_map_iff in Hin as (h & <- & _).
    cbn [V2.shift V2.place V2.pn_boxH V2.pn_boxW V2.pn_label V2.pn_lines] in *.
    assert (H260 : (100 <= V2.MAX_TEXT_WIDTH)%Q) by discriminate.
    specialize (Hone (label (hdata h)) V2.MAX_TEXT_WIDTH H260).
    destruct (V2.wrapText V2.measureText_no_document (label (hdata h)) V2.MAX_TEXT_WIDTH)
      as [|l [|l' ls]] eqn:E.
    + apply wrapText_nil_iff in E. congruence.
    + split; [reflexivity|]. split; vm_compute; reflexivity.
    + simpl in Hone. lia.
Qed.

Lemma no_document_no_line_break_witness :
  V2.wrapText V2.measureText_no_document (PStr six_words) V2.MAX_TEXT_WIDTH = [six_words].
Proof.
  apply (no_document_no_line_break Tidy.tidy spacing2 80 scenario_A_tree ∅
           (PStr six_words) V2.MAX_TEXT_WIDTH).
  - discriminate.
  - vm_compute. repeat constructor; discriminate.
Defined.

(** *** The lines of text in the box *)

(** X28. In the second variant the baselines of the lines of a label lie
    inside its box: the first is 34 below the top, each next one 20 lower,
    and the last 22 above the bottom, whatever the number of lines. *)
Theorem text_lines_sit_inside_the_box
    (measureText : string -> Q)
    (d3_tree : Q -> Q -> TreeNode -> list nat -> Q * Q)
    (nodeSpacing : NodeSpacing) (padding : Q)
    (data : TreeNode) (expandableIds : gset prim) :
  exists L,
    V2.layout measureText d3_tree nodeSpacing padding (Some data) expandableIds = Some L /\
    forall n i, In n (V2.nodes L) -> (i < length (V2.pn_lines n))%nat ->
      num_eq (V2.tspan_y n 0) (Fin 34) /\
      num_eq (V2.tspan_y n (S i)) (V2.tspan_y n i + Fin 20)%num /\
      num_le (Fin 34) (V2.tspan_y n i) /\
      num_le (V2.tspan_y n i + Fin 22)%num (V2.pn_boxH n) /\
      num_eq (V2.tspan_y n (length (V2.pn_lines n) - 1) + Fin 22)%num (V2.pn_boxH n).
Proof.
  destruct (V2_layout_parts measureText d3_tree nodeSpacing padding
              data expandableIds) as (L & sx & sy & HL & Hn & _).
  exists L. split; [exact HL|]. intros n i Hin Hi. rewrite Hn in Hin.
  apply in_map_iff in Hin as (n0 & <- & Hin). apply in_map_iff in Hin as (h & <- & _).
  unfold V2.tspan_y.
  cbn [V2.shift V2.place V2.pn_boxH V2.pn_lines nhalf nsub nadd nneg num_eq num_le] in *.
  set (k := length (V2.wrapText measureText (label (hdata h)) V2.MAX_TEXT_WIDTH)) in *.
  unfold V2.LINE_HEIGHT, V2.PADDING_Y.
  assert (Hk : (inject_Z (Z.of_nat (k - 1)) == inject_Z (Z.of_nat k) - 1)%Q).
  { rewrite Nat2Z.inj_sub by lia. unfold Zminus. rewrite inject_Z_plus. reflexivity. }
  assert (HS : (inject_Z (Z.of_nat (S i)) == inject_Z (Z.of_nat i) + 1)%Q).
  { rewrite Nat2Z.inj_succ. unfold Z.succ. rewrite inject_Z_plus. reflexivity. }
  pose proof (inject_nat_le i (k - 1) ltac:(lia)) as Hle.
  pose proof (inject_nat_nonneg i) as H0.
  rewrite Hk in Hle.
  assert (Ey : forall b : Q,
             ((inject_Z (Z.of_nat k) * 20 + 18 * 2) / 2 +
              - ((inject_Z (Z.of_nat k) - 1) * 20 / 2) + b * 20 + 6 == 34 + 20 * b)%Q)
    by (intros b; field).
  rewrite !Ey. change (inject_Z (Z.of_nat 0)) with 0%Q.
  split; [ring|]. split; [rewrite HS; ring|].
  split; [lra|]. split; [lra|]. rewrite Hk. ring.
Qed.

Lemma text_lines_sit_inside_the_box_witness :
  exists L,
    V2.layout measure10 Tidy.tidy spacing2 80 (Some tall_tree) ∅ = Some L /\
    forall n i, In n (V2.nodes L) -> (i < length (V2.pn_lines n))%nat ->
      num_eq (V2.tspan_y n 0) (Fin 34) /\
      num_eq (V2.tspan_y n (S i)) (V2.tspan_y n i + Fin 20)%num /\
      num_le (Fin 34) (V2.tspan_y n i) /\
      num_le (V2.tspan_y n i + Fin 22)%num (V2.pn_boxH n) /\
      num_eq (V2.tspan_y n (length (V2.pn_lines n) - 1) + Fin 22)%num (V2.pn_boxH n).
Proof. apply (text_lines_sit_inside_the_box measure10 Tidy.tidy spacing2 80 tall_tree ∅). Defined.

(** *** The two normalizers *)

Lemma omap_keep_all (keep : option TreeNode -> option TreeNode) (ts : list TreeNode) :
  Forall (fun t => keep (Some t) = Some t) ts -> omap keep (map Some ts) = ts.
Proof.
  induction 1 as [|t ts Ht _ IH]; [reflexivity|].
  cbn [map]. rewrite omap_cons, Ht, IH. reflexivity.
Qed.

Lemma plain_walks (cs : list jsval) :
  Forall (fun c => plain c = true ->
            forall a, exists t a',
              walk_gen reject1 V1.keep c a = (Some t, a') /\
              walk_gen reject2 V2.keep c a = (Some t, a') /\
              truthy (id t) = true) cs ->
  forallb plain cs = true ->
  forall a, exists ts a',
    map_state (walk_gen reject1 V1.keep) cs a = (map Some ts, a') /\
    map_state (walk_gen reject2 V2.keep) cs a = (map Some ts, a') /\
    Forall (fun t => truthy (id t) = true) ts.
Proof.
  induction 1 as [|c cs Hc _ IH]; intros Hp a.
  - exists [], a. repeat split. constructor.
  - cbn [forallb] in Hp. apply andb_prop in Hp as [Hpc Hpcs].
    destruct (Hc Hpc a) as (t & a1 & E1 & E2 & Ht).
    destruct (IH Hpcs a1) as (ts & a2 & F1 & F2 & Hts).
    exists (t :: ts), a2. rewrite !map_state_cons, E1, E2, F1, F2.
    split; [reflexivity|]. split; [reflexivity|]. constructor; assumption.
Qed.

Lemma plain_walk (node : jsval) :
  plain node = true ->
  forall a, exists t a',
    walk_gen reject1 V1.keep node a = (Some t, a') /\
    walk_gen reject2 V2.keep node a = (Some t, a') /\
    truthy (id t) = true.
Proof.
  induction node as [v| |i l n|i l n cs IH] using jsval_ind'; intros Hp a.
  - discriminate.
  - exists (Node (PStr (auto_id a)) (PStr (auto_id a)) []), (S a). repeat split.
  - rewrite !walk_gen_eq.
    change (reject1 (RObject i l n None)) with false.
    change (reject2 (RObject i l n None)) with false. cbv iota.
    cbn [prop_id prop_label prop_name]. cbn [plain] in Hp.
    rewrite andb_true_r in Hp.
    destruct (nullish i) eqn:Hi; cbv zeta iota beta.
    + eexists _, _. split; [reflexivity|]. split; reflexivity.
    + eexists _, _. split; [reflexivity|]. split; [reflexivity | exact Hp].
  - rewrite !walk_gen_eq.
    change (reject1 (RObject i l n (Some cs))) with false.
    change (reject2 (RObject i l n (Some cs))) with false. cbv iota.
    cbn [prop_id prop_label prop_name]. cbn [plain] in Hp.
    apply andb_prop in Hp as [Hid Hcs].
    destruct (nullish i) eqn:Hi; cbv zeta iota beta.
    + destruct (plain_walks cs IH Hcs (S a)) as (ts & a' & E1 & E2 & Hts).
      rewrite E1, E2.
      rewrite (omap_keep_all V1.keep ts), (omap_keep_all V2.keep ts).
      * eexists _, _. split; [reflexivity|]. split; reflexivity.
      * apply Forall_forall. reflexivity.
      * eapply Forall_impl; [exact Hts|]. intros t Ht. apply V1_keep_truthy. exact Ht.
    + destruct (plain_walks cs IH Hcs a) as (ts & a' & E1 & E2 & Hts).
      rewrite E1, E2.
      rewrite (omap_keep_all V1.keep ts), (omap_keep_all V2.keep ts).
      * eexists _, _. split; [reflexivity|]. split; [reflexivity | exact Hid].
      * apply Forall_forall. reflexivity.
      * eapply Forall_impl; [exact Hts|]. intros t Ht. apply V1_keep_truthy. exact Ht.
Qed.

(** X29. The two variants of [normalizeTree] return the same tree on every
    input made of objects and arrays only, each with an id that is absent
    or truthy: they differ only in the entries the first variant drops. *)
Theorem normalizers_agree_on_plain_input (input : jsval) :
  plain input = true ->
  exists t, V1.normalizeTree input = Some t /\ V2.normalizeTree input = Some t.
Proof.
  intros Hp. destruct (plain_walk input Hp 0) as (t & a' & E1 & E2 & _).
  exists t. unfold V1.normalizeTree, V2.normalizeTree.
  rewrite V1_walk_gen, V2_walk_gen, E1, E2.
  destruct input as [v| |i l n cs]; [discriminate | split; reflexivity..].
Qed.

Lemma normalizers_agree_on_plain_input_witness :
  exists t, V1.normalizeTree scenario_A = Some t /\ V2.normalizeTree scenario_A = Some t.
Proof. apply (normalizers_agree_on_plain_input scenario_A). reflexivity. Defined.

(** *** The canvas *)

(** X30. The layout pass of the second variant, run on its canvas, is the
    layout under a measure of the text alone: provided the canvas takes
    [FONT] and keeps its font when it is given a number (the index that
    [lines.map(measureText)] passes for the font), the pass returns what
    [layout] returns under the width of the text in [FONT], and under the
    measure 100 where there is no document. *)
Theorem canvas_layout_is_layout_under_a_measure
    (fresh_font : string) (assign_font : string -> prim -> string)
    (text_width : string -> string -> Q)
    (d3_tree : Q -> Q -> TreeNode -> list nat -> Q * Q)
    (nodeSpacing : NodeSpacing) (padding : Q)
    (visibleData : option TreeNode) (expandableIds : gset prim) (env : V2.Env) :
  (forall cur cur', assign_font cur (PStr V2.FONT) = assign_font cur' (PStr V2.FONT)) ->
  (forall cur k, assign_font cur (PNum k) = cur) ->
  fst (V2.layout_in fresh_font assign_font text_width d3_tree nodeSpacing padding
                    visibleData expandableIds env) =
  V2.layout (if V2.has_document env
             then text_width (assign_font fresh_font (PStr V2.FONT))
             else V2.measureText_no_document)
            d3_tree nodeSpacing padding visibleData expandableIds.
Proof.
  intros Hfont Hnum. apply layout_in_measured; assumption.
Qed.

Lemma canvas_layout_is_layout_under_a_measure_witness :
  fst (V2.layout_in "10px sans-serif" sample_assign_font sample_text_width Tidy.tidy
                    spacing2 80 (Some scenario_A_tree) {[ PStr "r" ]}
                    {| V2.has_document := true; V2.canvas_font := Some "italic 40px serif" |}) =
  V2.layout (sample_text_width V2.FONT) Tidy.tidy spacing2 80
            (Some scenario_A_tree) {[ PStr "r" ]}.
Proof.
  apply (canvas_layout_is_layout_under_a_measure "10px sans-serif" sample_assign_font
           sample_text_width Tidy.tidy spacing2 80 (Some scenario_A_tree) {[ PStr "r" ]}
           {| V2.has_document := true; V2.canvas_font := Some "italic 40px serif" |}).
  - intros cur cur'. reflexivity.
  - intros cur k. reflexivity.
Defined.
